(** * Invisible watermark codec: a shallow embedding and its properties

    The development follows [src/utils.ts] (the seeded generator and the
    bit codec) and [src/watermark.ts] ([applyInvisibleWatermark] and
    [extractWatermark]).

    - JavaScript numbers are IEEE 754 doubles: the generator's counter and
      every value derived from [Math.sin] is a primitive [float], with the
      rounding of each operation.  [Math.sin] itself is
      implementation-approximated (ECMAScript leaves its result to the
      host), so it is a variable of the development.
    - Quantities the code only uses as exact integers (array indices, byte
      values, character codes, the pixel count) are in [Z].
    - Strings are sequences of UTF-16 code units.
    - [Uint8ClampedArray]s live in a store of arrays addressed by
      reference, so that cloning and in-place updates are visible.
    - The [do ... while] redraw loop has no bound in the source: it is
      modelled with a fuel argument and [None] stands for a loop that did
      not finish within the fuel. *)

From Stdlib Require Import ZArith List Lia Bool Floats String Ascii.
From stdpp Require Import base list.
Import ListNotations.

Local Open Scope Z_scope.

(** ** JavaScript numbers *)

Module Num.

(** [Number(z)] for an integer [z]: the nearest double. *)
Definition of_Z (z : Z) : float :=
  SF2Prim (binary_normalize prec emax z 0 false).

(** The integer part of a finite double after rounding towards minus
    infinity; the double must have a fractional part ([e < 0]). *)
Definition floor_mantissa (s : bool) (m : positive) (e : Z) : Z :=
  Z.shiftr (if s then Z.neg m else Z.pos m) (- e).

(** [Math.floor]. *)
Definition Math_floor (x : float) : float :=
  match Prim2SF x with
  | S754_finite s m e =>
      if 0 <=? e then x else of_Z (floor_mantissa s m e)
  | _ => x
  end.

(** [Math.round]: the nearest integer, ties towards plus infinity. *)
Definition Math_round (x : float) : float :=
  match Prim2SF x with
  | S754_finite s m e =>
      if 0 <=? e then x
      else
        let v := if s then Z.neg m else Z.pos m in
        let q := Z.shiftr (2 * v + Z.shiftl 1 (- e)) (- e + 1) in
        if (q =? 0) && s then neg_zero else of_Z q
  | _ => x
  end.

(** The integer a double denotes, when it denotes one.  Both zeros
    denote [0]; NaN, the infinities and doubles with a fractional part
    denote none. *)
Definition to_Z (x : float) : option Z :=
  match Prim2SF x with
  | S754_zero _ => Some 0
  | S754_finite s m e =>
      let z := if 0 <=? e
               then Z.shiftl (if s then Z.neg m else Z.pos m) e
               else floor_mantissa s m e in
      if PrimFloat.Leibniz.eqb x (of_Z z) then Some z else None
  | _ => None
  end.

(** The comparison of [Set.prototype.has]: NaN equals NaN and the two
    zeros are equal. *)
Definition SameValueZero (x y : float) : bool :=
  (x =? y)%float || (is_nan x && is_nan y).

(** [Set.prototype.has] on the insertion-ordered elements of a set. *)
Definition has (s : list float) (x : float) : bool :=
  existsb (SameValueZero x) s.

Definition two53 : float := 9007199254740992%float.

End Num.

(** ** Strings of UTF-16 code units *)

Definition jsstring := list Z.

(** A literal as a JavaScript string (the literals of the source are all
    ASCII). *)
Fixpoint js (s : string) : jsstring :=
  match s with
  | EmptyString => []
  | String a s' => Z.of_nat (nat_of_ascii a) :: js s'
  end.

Definition chr0 : Z := 48.
Definition chr1 : Z := 49.

Module Str.

(** [String.prototype.padStart(n, c)] for a single filler [c]. *)
Definition padStart (n : nat) (c : Z) (s : jsstring) : jsstring :=
  List.repeat c (n - length s) ++ s.

(** [String.prototype.substring(i, j)] for [0 <= i <= j]. *)
Definition substring (i j : nat) (s : jsstring) : jsstring :=
  firstn (j - i) (skipn i s).

(** The binary digits of a positive integer, most significant first,
    in front of [acc]. *)
Fixpoint pos_digits2 (p : positive) (acc : jsstring) : jsstring :=
  match p with
  | xH => chr1 :: acc
  | xO p' => pos_digits2 p' (chr0 :: acc)
  | xI p' => pos_digits2 p' (chr1 :: acc)
  end.

(** [Number.prototype.toString(2)] on an integer. *)
Definition toString2 (n : Z) : jsstring :=
  match n with
  | Z0 => [chr0]
  | Zpos p => pos_digits2 p []
  | Zneg p => 45 :: pos_digits2 p []
  end.

(** White space and line terminators skipped by [parseInt]. *)
Definition isWhiteSpace (c : Z) : bool :=
  existsb (Z.eqb c)
    [9; 10; 11; 12; 13; 32; 160; 5760; 8232; 8233; 8239; 8287; 12288; 65279]
  || ((8192 <=? c) && (c <=? 8202)).

Fixpoint trimStart (s : jsstring) : jsstring :=
  match s with
  | c :: s' => if isWhiteSpace c then trimStart s' else s
  | [] => []
  end.

(** The value of the longest prefix of binary digits, with the number
    of digits read. *)
Fixpoint digits2_prefix (s : jsstring) (acc : Z) (n : nat) : Z * nat :=
  match s with
  | c :: s' =>
      if c =? chr0 then digits2_prefix s' (2 * acc) (S n)
      else if c =? chr1 then digits2_prefix s' (2 * acc + 1) (S n)
      else (acc, n)
  | [] => (acc, n)
  end.

(** [parseInt(s, 2)]; [None] is NaN. *)
Definition parseInt2 (s : jsstring) : option Z :=
  let t := trimStart s in
  let '(neg, t) :=
    match t with
    | 45 :: t' => (true, t')
    | 43 :: t' => (false, t')
    | _ => (false, t)
    end in
  match digits2_prefix t 0 0 with
  | (_, O) => None
  | (v, _) => Some (if neg : bool then - v else v)
  end.

(** [String.fromCharCode(n)]: the code unit [ToUint16(n)]. *)
Definition fromCharCode (n : option Z) : Z :=
  match n with
  | None => 0
  | Some v => v mod 65536
  end.

End Str.

(** ** src/utils.ts: the bit codec *)

(** [stringToBinary]: the loop appends, for each code unit, its binary
    digits padded on the left to eight characters. *)
Definition stringToBinary (str : jsstring) : jsstring :=
  fold_left
    (fun result c => result ++ Str.padStart 8 chr0 (Str.toString2 c))
    str [].

(** The loop of [binaryToString]: [i] advances by eight while
    [i < binary.length]. [steps] bounds the number of iterations. *)
Fixpoint binaryToString_loop (steps : nat) (binary result : jsstring) (i : nat)
  : jsstring :=
  match steps with
  | O => result
  | S steps' =>
      if (i <? length binary)%nat then
        let byte := Str.substring i (i + 8) binary in
        binaryToString_loop steps' binary
          (result ++ [Str.fromCharCode (Str.parseInt2 byte)]) (i + 8)
      else result
  end.

(** [binaryToString]: the loop runs at most [binary.length] times. *)
Definition binaryToString (binary : jsstring) : jsstring :=
  binaryToString_loop (length binary) binary [] 0.

(** The eight binary digits of [c], most significant first. *)
Definition byte_bits (c : Z) : jsstring :=
  map (fun k => if Z.testbit c (7 - Z.of_nat k) then chr1 else chr0) (seq 0 8).

(** ** Typed arrays and the store of arrays *)

(** A [Uint8ClampedArray] is the list of its elements.  An index that is
    not an element index reads [undefined] and ignores writes. *)
Module TA.

Definition clamp (v : Z) : Z := Z.max 0 (Z.min 255 v).

Definition get (a : list Z) (i : Z) : option Z :=
  if 0 <=? i then a !! Z.to_nat i else None.

Definition set (a : list Z) (i v : Z) : list Z :=
  if 0 <=? i then <[Z.to_nat i := clamp v]> a else a.

(** [ToInt32] of what an element read gives: [undefined] becomes [0]. *)
Definition ToInt32 (o : option Z) : Z := default 0 o.

End TA.

Definition store := list (list Z).

Record ImageData := mkImageData { data : nat; width : Z; height : Z }.

Module Store.

Definition array (st : store) (r : nat) : list Z := default [] (st !! r).

(** [data[i]] for the array at reference [r]; a number that is not an
    integer is no element index ([i = None]). *)
Definition read (st : store) (r : nat) (i : option Z) : option Z :=
  match i with
  | Some i => TA.get (array st r) i
  | None => None
  end.

Definition write (st : store) (r : nat) (i : option Z) (v : Z) : store :=
  match i with
  | Some i => <[r := TA.set (array st r) i v]> st
  | None => st
  end.

(** [data[i] |= 1]. *)
Definition or1 (st : store) (r : nat) (i : option Z) : store :=
  write st r i (Z.lor (TA.ToInt32 (read st r i)) 1).

(** [data[i] &= ~1]. *)
Definition andnot1 (st : store) (r : nat) (i : option Z) : store :=
  write st r i (Z.land (TA.ToInt32 (read st r i)) (Z.lnot 1)).

(** [(data[i] & 1) === 1 ? '1' : '0']. *)
Definition lsbChar (st : store) (r : nat) (i : option Z) : Z :=
  if Z.land (TA.ToInt32 (read st r i)) 1 =? 1 then chr1 else chr0.

(** [new Uint8ClampedArray(a)]: a fresh array with the elements of [a]. *)
Definition alloc (st : store) (a : list Z) : store * nat :=
  (st ++ [map TA.clamp a], length st).

End Store.

(** ** Options *)

Record WatermarkOptions := mkOptions {
  strength : option float;
  message : option jsstring;
  randomSeed : option float
}.

Record Config := mkConfig {
  cfg_strength : float;
  cfg_message : jsstring;
  cfg_randomSeed : float
}.

(** [{ ...defaults, ...options }]. *)
Definition spread (defaults : Config) (options : WatermarkOptions) : Config :=
  {| cfg_strength := default (cfg_strength defaults) (strength options);
     cfg_message := default (cfg_message defaults) (message options);
     cfg_randomSeed := default (cfg_randomSeed defaults) (randomSeed options) |}.

Definition quoted (s : string) : jsstring := [34] ++ js s ++ [34].

(** [JSON.stringify({address: "Token address", nft_id: "Test nft_id"})]. *)
Definition defaultMessage : jsstring :=
  js "{" ++ quoted "address" ++ js ":" ++ quoted "Token address" ++ js ","
  ++ quoted "nft_id" ++ js ":" ++ quoted "Test nft_id" ++ js "}".

(** [imageData.width * imageData.height]; an [ImageData] holds
    [4 * width * height] bytes, so the product is an exact integer. *)
Definition totalPixels (imageData : ImageData) : Z :=
  width imageData * height imageData.

(** [stringToBinary("WATERMARK")] and the loop bound
    [Math.min(signature.length, 64)]. *)
Definition signature : jsstring := stringToBinary (js "WATERMARK").
Definition signatureLength : Z := Z.min (Z.of_nat (length signature)) 64.

(** [signature[i] === '1']. *)
Definition isOne (s : jsstring) (i : Z) : bool :=
  match TA.get s i with
  | Some c => c =? chr1
  | None => false
  end.

(** The element index of the signature loops at iteration [i]:
    [byteIndex = i + totalPixels - 64], [dataIndex = byteIndex * 4], and
    the access is [data[dataIndex + 3]]. *)
Definition signatureIndex (total i : Z) : Z :=
  let byteIndex := i + total - 64 in
  let dataIndex := byteIndex * 4 in
  dataIndex + 3.

(** The element index of the message loops for a drawn [pixelIndex] and a
    channel offset: [dataIndex = pixelIndex * 4], [data[dataIndex + off]].
    [pixelIndex] is a result of [Math.floor]: an integer-valued double, an
    infinity or NaN. *)
Definition channelIndex (pixelIndex : float) (off : Z) : option Z :=
  match Num.to_Z pixelIndex with
  | Some p => Some (p * 4 + off)
  | None => None
  end.

Section Codec.

(** The host's [Math.sin]. *)
Variable Math_sin : float -> float.

(** *** src/utils.ts: createSeededRandom *)

(** The returned closure owns the variable [seed]; a generator is the
    current value of that variable. *)
Record SeededRandom := mkSeededRandom { counter : float }.

Definition createSeededRandom (seed : float) : SeededRandom :=
  {| counter := seed |}.

(** One call of the closure: [Math.sin(seed++) * 10000] and its
    fractional part. *)
Definition random (g : SeededRandom) : float * SeededRandom :=
  let x := (Math_sin (counter g) * 10000)%float in
  ((x - Num.Math_floor x)%float, {| counter := (counter g + 1)%float |}).

(** *** src/watermark.ts: the redraw loop

    [do { pixelIndex = Math.floor(random() * totalPixels) }
     while (modifiedPixels.has(pixelIndex))]. *)
Fixpoint drawPixel (fuel : nat) (g : SeededRandom) (total : float)
    (modifiedPixels : list float) : option (float * SeededRandom) :=
  match fuel with
  | O => None
  | S fuel' =>
      let '(r, g') := random g in
      let pixelIndex := Num.Math_floor (r * total)%float in
      if Num.has modifiedPixels pixelIndex
      then drawPixel fuel' g' total modifiedPixels
      else Some (pixelIndex, g')
  end.

(** *** applyInvisibleWatermark *)

(** The body of the message loop after the draw. *)
Definition embedBit (st : store) (r : nat) (pixelIndex : float) (c : Z)
  : store :=
  if c =? chr1
  then Store.or1 st r (channelIndex pixelIndex 2)
  else Store.andnot1 st r (channelIndex pixelIndex 2).

(** The message loop over the characters of [binaryMessage]. *)
Fixpoint embedLoop (fuel : nat) (bits : jsstring) (g : SeededRandom)
    (total : float) (modifiedPixels : list float) (st : store) (r : nat)
  : option (store * list float) :=
  match bits with
  | [] => Some (st, modifiedPixels)
  | c :: bits' =>
      match drawPixel fuel g total modifiedPixels with
      | None => None
      | Some (pixelIndex, g') =>
          embedLoop fuel bits' g' total (modifiedPixels ++ [pixelIndex])
            (embedBit st r pixelIndex c) r
      end
  end.

(** One iteration of the signature loop. *)
Definition writeSignatureBit (total : Z) (r : nat) (st : store) (i : Z)
  : store :=
  if isOne signature i
  then Store.or1 st r (Some (signatureIndex total i))
  else Store.andnot1 st r (Some (signatureIndex total i)).

Definition writeSignature (total : Z) (r : nat) (st : store) : store :=
  fold_left (writeSignatureBit total r) (seqZ 0 signatureLength) st.

(** [Math_random] is the value the host's [Math.random()] returns to
    this call. *)
Definition applyInvisibleWatermark (Math_random : float) (fuel : nat)
    (st : store) (imageData : ImageData) (options : WatermarkOptions)
  : option (store * ImageData) :=
  let defaults :=
    {| cfg_strength := 0x1.3333333333333p-2%float;
       cfg_message := defaultMessage;
       cfg_randomSeed := Num.Math_round (Math_random * 1000 + 1)%float |} in
  let config := spread defaults options in
  let '(st, r) := Store.alloc st (Store.array st (data imageData)) in
  let watermarkedData :=
    {| data := r; width := width imageData; height := height imageData |} in
  let binaryMessage := stringToBinary (cfg_message config) in
  let g := createSeededRandom (cfg_randomSeed config) in
  let total := totalPixels imageData in
  match embedLoop fuel binaryMessage g (Num.of_Z total) [] st r with
  | None => None
  | Some (st, _) => Some (writeSignature total r st, watermarkedData)
  end.

(** *** extractWatermark *)

(** The signature check; [forallb] stops at the first mismatch, as the
    [break] does. *)
Definition signatureMatch (total : Z) (st : store) (r : nat) : bool :=
  forallb
    (fun i =>
       let extractedBit := Store.lsbChar st r (Some (signatureIndex total i)) in
       bool_decide (TA.get signature i = Some extractedBit))
    (seqZ 0 signatureLength).

(** The extraction loop, [n] iterations left. *)
Fixpoint extractLoop (fuel : nat) (n : nat) (g : SeededRandom)
    (total : float) (modifiedPixels : list float) (st : store) (r : nat)
    (extractedBinary : jsstring) : option (jsstring * list float) :=
  match n with
  | O => Some (extractedBinary, modifiedPixels)
  | S n' =>
      match drawPixel fuel g total modifiedPixels with
      | None => None
      | Some (pixelIndex, g') =>
          let bit := Store.lsbChar st r (channelIndex pixelIndex 2) in
          extractLoop fuel n' g' total (modifiedPixels ++ [pixelIndex]) st r
            (extractedBinary ++ [bit])
      end
  end.

(** The result is [Some None] for [null]. *)
Definition extractWatermark (Math_random : float) (fuel : nat)
    (st : store) (imageData : ImageData) (options : WatermarkOptions)
  : option (option jsstring) :=
  let defaults :=
    {| cfg_strength := 0x1.3333333333333p-2%float;
       cfg_message := defaultMessage;
       cfg_randomSeed := Num.Math_round (Math_random * 10000 + 1)%float |} in
  let config := spread defaults options in
  let total := totalPixels imageData in
  if negb (signatureMatch total st (data imageData)) then Some None
  else
    let g := createSeededRandom (cfg_randomSeed config) in
    let expectedMessageLength := length (stringToBinary (cfg_message config)) in
    match extractLoop fuel expectedMessageLength g (Num.of_Z total) []
            st (data imageData) [] with
    | None => None
    | Some (extractedBinary, _) => Some (Some (binaryToString extractedBinary))
    end.

(** *** The slot selector on its own

    The pixels drawn by [k] iterations of either loop above, in draw
    order, starting from the set [modifiedPixels]. *)
Fixpoint selectSlots (fuel : nat) (k : nat) (g : SeededRandom)
    (total : float) (modifiedPixels : list float) : option (list float) :=
  match k with
  | O => Some []
  | S k' =>
      match drawPixel fuel g total modifiedPixels with
      | None => None
      | Some (pixelIndex, g') =>
          match selectSlots fuel k' g' total (modifiedPixels ++ [pixelIndex]) with
          | None => None
          | Some slots => Some (pixelIndex :: slots)
          end
      end
  end.

(** The results of [n] successive calls of a generator. *)
Fixpoint calls (n : nat) (g : SeededRandom) : list float :=
  match n with
  | O => []
  | S n' => let '(r, g') := random g in r :: calls n' g'
  end.

(** The generator after [n] calls. *)
Fixpoint after (n : nat) (g : SeededRandom) : SeededRandom :=
  match n with
  | O => g
  | S n' => after n' (snd (random g))
  end.

End Codec.

Arguments counter : clear implicits.

(** ** A reference sine

    One admissible [Math.sin], used to run the code on concrete inputs:
    reduction of the argument by the nearest multiple of pi (pi split in
    three doubles) and the Taylor polynomial of degree 23. *)
Module SinRef.

Definition inv_pi : float := 0x1.45f306dc9c883p-2%float.
Definition pi_a : float := 0x1.921fb54000000p+1%float.
Definition pi_b : float := 0x1.10b4611800000p-29%float.
Definition pi_c : float := 0x1.313198a2e0370p-60%float.

Definition coefficients : list float :=
  [ 0x1.0000000000000p+0; -0x1.5555555555555p-3;
    0x1.1111111111111p-7; -0x1.a01a01a01a01ap-13;
    0x1.71de3a556c734p-19; -0x1.ae64567f544e4p-26;
    0x1.6124613a86d09p-33; -0x1.ae7f3e733b81fp-41;
    0x1.952c77030ad4ap-49; -0x1.2f49b46814157p-57;
    0x1.71b8ef6dcf572p-66; -0x1.761b41316381ap-75 ]%float.

Definition horner (r2 : float) : float :=
  fold_right (fun c p => (p * r2 + c)%float) 0%float coefficients.

Definition sin (x : float) : float :=
  let k := Num.Math_floor (x * inv_pi + 0x1p-1)%float in
  let r := (((x - k * pi_a) - k * pi_b) - k * pi_c)%float in
  let s := (r * horner (r * r))%float in
  match Num.to_Z k with
  | Some n => if Z.odd n then (- s)%float else s
  | None => s
  end.

End SinRef.

(** ** Vocabulary of the statements *)

(** A character code of one byte. *)
Definition isByte (c : Z) : Prop := 0 <= c <= 255.

(** What [stringToBinary] appends for one character. *)
Definition encodeChar (c : Z) : jsstring :=
  Str.padStart 8 chr0 (Str.toString2 c).

(** A well-formed [ImageData]: its array is in the store and holds four
    bytes per pixel. *)
Definition wf_image (st : store) (img : ImageData) : Prop :=
  exists d, st !! data img = Some d
            /\ Z.of_nat (length d) = 4 * totalPixels img
            /\ Forall isByte d.

(** The least significant bit of what an element read gives. *)
Definition lsb (o : option Z) : Z := Z.land (TA.ToInt32 o) 1.

(** The byte of channel [off] (0 red, 1 green, 2 blue, 3 alpha) of pixel
    [p], as an element read gives it. *)
Definition channel (st : store) (img : ImageData) (p off : Z) : option Z :=
  Store.read st (data img) (Some (p * 4 + off)).

Definition blueLSB (st : store) (img : ImageData) (p : Z) : Z :=
  lsb (channel st img p 2).

Definition alphaLSB (st : store) (img : ImageData) (p : Z) : Z :=
  lsb (channel st img p 3).

(** Bit [i] of a string of binary digits. *)
Definition bitAt (s : jsstring) (i : Z) : Z := if isOne s i then 1 else 0.

(** A drawn number that is the index of a pixel. *)
Definition isPixel (total : Z) (p : float) : Prop :=
  exists z, Num.to_Z p = Some z /\ 0 <= z < total.

Definition isPixelb (total : Z) (p : float) : bool :=
  match Num.to_Z p with
  | Some z => (0 <=? z) && (z <? total)
  | None => false
  end.

(** Numbers no two of which are the same element of a [Set]: each one
    differs from all the earlier ones. *)
Inductive distinctNumbers : list float -> Prop :=
| distinct_nil : distinctNumbers []
| distinct_snoc (l : list float) (x : float) :
    distinctNumbers l -> Num.has l x = false -> distinctNumbers (l ++ [x]).

(** [data[i] |= 1] or [data[i] &= ~1] on the elements of an array. *)
Definition updLSB (a : list Z) (i : Z) (b : bool) : list Z :=
  TA.set a i (if b then Z.lor (TA.ToInt32 (TA.get a i)) 1
              else Z.land (TA.ToInt32 (TA.get a i)) (Z.lnot 1)).

(** A sequence of such updates; an index [None] is no element index. *)
Definition updates (a : list Z) (l : list (option Z * bool)) : list Z :=
  fold_left
    (fun a ib => match fst ib with Some i => updLSB a i (snd ib) | None => a end)
    l a.

(** The same updates on the array at reference [r]. *)
Definition setLSB (r : nat) (st : store) (ib : option Z * bool) : store :=
  if snd ib then Store.or1 st r (fst ib) else Store.andnot1 st r (fst ib).

(** The updates of the message loop for the drawn [slots]. *)
Definition messageUpdates (slots : list float) (bits : jsstring)
  : list (option Z * bool) :=
  zip_with (fun p c => (channelIndex p 2, c =? chr1)) slots bits.

(** The updates of the signature loop. *)
Definition signatureUpdates (total : Z) : list (option Z * bool) :=
  map (fun i => (Some (signatureIndex total i), isOne signature i))
      (seqZ 0 signatureLength).

(** The [config] of each function: [Math_random] is the result of the
    call of [Math.random()] in its [defaults]. *)
Definition applyConfig (Math_random : float) (options : WatermarkOptions)
  : Config :=
  spread {| cfg_strength := 0x1.3333333333333p-2%float;
            cfg_message := defaultMessage;
            cfg_randomSeed := Num.Math_round (Math_random * 1000 + 1)%float |}
         options.

Definition extractConfig (Math_random : float) (options : WatermarkOptions)
  : Config :=
  spread {| cfg_strength := 0x1.3333333333333p-2%float;
            cfg_message := defaultMessage;
            cfg_randomSeed := Num.Math_round (Math_random * 10000 + 1)%float |}
         options.

(** ['1'] or ['0'] for the least significant bit of an element. *)
Definition lsbCharOf (a : list Z) (i : option Z) : Z :=
  if lsb (match i with Some j => TA.get a j | None => None end) =? 1
  then chr1 else chr0.

(** The counter after [k] evaluations of [seed++]. *)
Definition increments (k : nat) (seed : float) : float :=
  Nat.iter k (fun c => (c + 1)%float) seed.

(** [x - Math.floor(x)] for [x = Math.sin(c) * 10000]. *)
Definition scaledFraction (Math_sin : float -> float) (c : float) : float :=
  let x := (Math_sin c * 10000)%float in (x - Num.Math_floor x)%float.

(** A generator output in [0, 1). *)
Definition inUnit (r : float) : bool := (0 <=? r)%float && (r <? 1)%float.

(** The first [n] outputs of the generator created with [seed] are all in
    [0, 1). *)
Definition inUnitUpTo (Math_sin : float -> float) (seed : float) (n : nat)
  : bool :=
  forallb (fun k => inUnit (scaledFraction Math_sin (increments k seed)))
          (seq 0 n).

(** A double in [-2^-54, 0). *)
Definition tinyNegative (x : float) : bool :=
  (-0x1p-54 <=? x)%float && (x <? 0)%float.

(** A double that is neither NaN nor an infinity. *)
Definition isFinite (x : float) : bool :=
  match Prim2SF x with
  | S754_zero _ | S754_finite _ _ _ => true
  | _ => false
  end.

(** ** Inputs of the examples *)

(** Options that give the message and the seed. *)
Definition withSeed (T : jsstring) (S : float) : WatermarkOptions :=
  {| strength := None; message := Some T; randomSeed := Some S |}.

(** Options that leave the seed to the default. *)
Definition withoutSeed (T : jsstring) : WatermarkOptions :=
  {| strength := None; message := Some T; randomSeed := None |}.

(** A 10x10 image, its array at reference 0 of a store with one array, all
    bytes 255 or all bytes 0; a 6x6 image likewise. *)
Definition img10 : ImageData := {| data := 0; width := 10; height := 10 |}.
Definition white10 : store := [repeat 255 400].
Definition black10 : store := [repeat 0 400].
Definition img6 : ImageData := {| data := 0; width := 6; height := 6 |}.
Definition white6 : store := [repeat 255 144].

(** The first sixteen pixels the reference sine draws from seed 42 among
    100 pixels. *)
Definition slots42 : list float :=
  [78; 25; 1; 3; 88; 73; 45; 47; 29; 27; 10; 44; 48; 64; 72; 38]%float.

(** The 10x10 image with the signature in the alpha bits of its last 64
    pixels and nothing else written. *)
Definition signed10 : store :=
  [updates (repeat 255 400) (signatureUpdates 100)].

(** A sine that tells 2^53 from the other doubles: 0 there, 2^-14
    elsewhere. *)
Definition sin_two53 (x : float) : float :=
  if (x =? Num.two53)%float then 0%float else 0x1p-14%float.

(** A mantissa followed by [k] zero bits. *)
Definition shl (m : positive) (k : nat) : positive := Nat.iter k xO m.
(** ** Facts about numbers *)

Lemma SameValueZero_refl (x : float) : Num.SameValueZero x x = true.
Proof.
  unfold Num.SameValueZero, is_nan.
  destruct (x =? x)%float; reflexivity.
Qed.

Lemma SameValueZero_zero (x y : float) (s t : bool) :
  Prim2SF x = S754_zero s -> Prim2SF y = S754_zero t ->
  Num.SameValueZero x y = true.
Proof.
  intros Hx Hy. unfold Num.SameValueZero.
  rewrite FloatAxioms.eqb_spec, Hx, Hy. reflexivity.
Qed.

(** Two doubles that denote the same integer are the same element of a
    [Set]. *)
Lemma to_Z_SameValueZero (x y : float) (z : Z) :
  Num.to_Z x = Some z -> Num.to_Z y = Some z -> Num.SameValueZero x y = true.
Proof.
  unfold Num.to_Z.
  destruct (Prim2SF x) as [sx| | |sx mx ex] eqn:Hx; try discriminate;
  destruct (Prim2SF y) as [sy| | |sy my ey] eqn:Hy; try discriminate.
  - intros _ _. eapply SameValueZero_zero; eassumption.
  - intros [= <-].
    destruct (PrimFloat.Leibniz.eqb y _) eqn:E; [|discriminate].
    intros [= Hz]. apply FloatAxioms.Leibniz.eqb_spec in E.
    rewrite Hz in E. subst y. discriminate Hy.
  - destruct (PrimFloat.Leibniz.eqb x _) eqn:E; [|discriminate].
    intros [= Hz] [= <-]. apply FloatAxioms.Leibniz.eqb_spec in E.
    rewrite Hz in E. subst x. discriminate Hx.
  - destruct (PrimFloat.Leibniz.eqb x _) eqn:Ex; [|discriminate].
    destruct (PrimFloat.Leibniz.eqb y _) eqn:Ey; [|discriminate].
    intros [= Hzx] [= Hzy].
    apply FloatAxioms.Leibniz.eqb_spec in Ex, Ey.
    rewrite Hzx in Ex. rewrite Hzy in Ey. subst x y.
    apply SameValueZero_refl.
Qed.

Lemma has_app (s t : list float) (x : float) :
  Num.has (s ++ t) x = Num.has s x || Num.has t x.
Proof. apply existsb_app. Qed.

Lemma has_false (s : list float) (x : float) :
  Num.has s x = false -> Forall (fun y => Num.SameValueZero x y = false) s.
Proof.
  induction s as [|y s IH]; simpl; intros H; constructor.
  - apply orb_false_iff in H. tauto.
  - apply IH. apply orb_false_iff in H. tauto.
Qed.

(** ** The bit codec: [stringToBinary] and [binaryToString] *)

Lemma stringToBinary_fold (str acc : jsstring) :
  fold_left (fun result c => result ++ encodeChar c) str acc
  = acc ++ flat_map encodeChar str.
Proof.
  revert acc. induction str as [|c str IH]; intros acc; simpl.
  - symmetry. apply app_nil_r.
  - rewrite IH, <- app_assoc. reflexivity.
Qed.

Lemma stringToBinary_flat_map (str : jsstring) :
  stringToBinary str = flat_map encodeChar str.
Proof. apply (stringToBinary_fold str []). Qed.

Lemma stringToBinary_cons (c : Z) (str : jsstring) :
  stringToBinary (c :: str) = encodeChar c ++ stringToBinary str.
Proof. rewrite !stringToBinary_flat_map. reflexivity. Qed.

(** A property of all 256 byte values, checked by evaluation. *)
Lemma byte_cases (f : Z -> bool) :
  forallb f (seqZ 0 256) = true -> forall c, isByte c -> f c = true.
Proof.
  intros H c Hc. rewrite forallb_forall in H. apply H.
  apply list_elem_of_In, elem_of_seqZ. unfold isByte in Hc. lia.
Qed.

Lemma encodeChar_byte (c : Z) : isByte c -> encodeChar c = byte_bits c.
Proof.
  intros Hc.
  apply (byte_cases (fun c => bool_decide (encodeChar c = byte_bits c))) in Hc.
  - apply bool_decide_eq_true in Hc. exact Hc.
  - vm_compute. reflexivity.
Qed.

Lemma parseInt2_byte_bits (c : Z) :
  isByte c -> Str.fromCharCode (Str.parseInt2 (byte_bits c)) = c.
Proof.
  intros Hc.
  apply (byte_cases
    (fun c => bool_decide (Str.fromCharCode (Str.parseInt2 (byte_bits c)) = c)))
    in Hc.
  - apply bool_decide_eq_true in Hc. exact Hc.
  - vm_compute. reflexivity.
Qed.

Lemma length_byte_bits (c : Z) : length (byte_bits c) = 8%nat.
Proof. reflexivity. Qed.

Lemma byte_bits_binary (c : Z) :
  Forall (fun b => b = chr0 \/ b = chr1) (byte_bits c).
Proof.
  unfold byte_bits. apply Forall_map, Forall_forall. intros k _.
  destruct (Z.testbit c _); [right|left]; reflexivity.
Qed.

Lemma stringToBinary_bytes (T : jsstring) :
  Forall isByte T -> stringToBinary T = flat_map byte_bits T.
Proof.
  intros H. rewrite stringToBinary_flat_map.
  induction H as [|c T Hc _ IH]; cbn [flat_map]; [reflexivity|].
  rewrite IH, encodeChar_byte by assumption. reflexivity.
Qed.

Lemma stringToBinary_binary (T : jsstring) :
  Forall isByte T -> Forall (fun b => b = chr0 \/ b = chr1) (stringToBinary T).
Proof.
  intros H. rewrite stringToBinary_bytes by assumption.
  induction H as [|c T Hc _ IH]; cbn [flat_map]; [constructor|].
  apply Forall_app. split; [apply byte_bits_binary|exact IH].
Qed.

Lemma length_stringToBinary (T : jsstring) :
  Forall isByte T -> length (stringToBinary T) = (8 * length T)%nat.
Proof.
  intros H. rewrite stringToBinary_bytes by assumption.
  induction H as [|c T Hc _ IH]; cbn [flat_map length]; [reflexivity|].
  rewrite length_app, IH, length_byte_bits. lia.
Qed.

Lemma binaryToString_loop_bytes (l : jsstring) :
  Forall isByte l ->
  forall (steps : nat) (pre result : jsstring),
    (length l <= steps)%nat ->
    binaryToString_loop steps (pre ++ flat_map byte_bits l) result (length pre)
    = result ++ l.
Proof.
  induction 1 as [|c l Hc _ IH]; intros steps pre result Hsteps.
  - simpl. rewrite !app_nil_r.
    destruct steps; simpl; [reflexivity|].
    rewrite Nat.ltb_irrefl. reflexivity.
  - destruct steps as [|steps]; [simpl in Hsteps; lia|].
    simpl in Hsteps.
    change (flat_map byte_bits (c :: l))
      with (byte_bits c ++ flat_map byte_bits l).
    cbn [binaryToString_loop].
    assert (Hlt : (length pre <? length (pre ++ byte_bits c ++ flat_map byte_bits l))%nat = true).
    { apply Nat.ltb_lt. rewrite !length_app, length_byte_bits. lia. }
    rewrite Hlt.
    assert (Hbyte : Str.substring (length pre) (length pre + 8)
                      (pre ++ byte_bits c ++ flat_map byte_bits l) = byte_bits c).
    { unfold Str.substring.
      replace (length pre + 8 - length pre)%nat with (length (byte_bits c))
        by (rewrite length_byte_bits; lia).
      rewrite drop_app_length, take_app_length. reflexivity. }
    rewrite Hbyte, parseInt2_byte_bits by assumption.
    rewrite (app_assoc pre).
    replace (length pre + 8)%nat with (length (pre ++ byte_bits c))
      by (rewrite length_app, length_byte_bits; reflexivity).
    rewrite IH by lia.
    rewrite <- app_assoc. reflexivity.
Qed.

Lemma binaryToString_stringToBinary (T : jsstring) :
  Forall isByte T -> binaryToString (stringToBinary T) = T.
Proof.
  intros H. unfold binaryToString.
  rewrite length_stringToBinary, stringToBinary_bytes by assumption.
  apply (binaryToString_loop_bytes T H (8 * length T) [] []). lia.
Qed.

(** ** Updates of the least significant bit *)

Lemma byte_lsb_facts (v : Z) :
  isByte v ->
  isByte (Z.lor v 1) /\ isByte (Z.land v (Z.lnot 1))
  /\ Z.land (Z.lor v 1) 1 = 1 /\ Z.land (Z.land v (Z.lnot 1)) 1 = 0
  /\ Z.shiftr (Z.lor v 1) 1 = Z.shiftr v 1
  /\ Z.shiftr (Z.land v (Z.lnot 1)) 1 = Z.shiftr v 1.
Proof.
  intros Hv.
  apply (byte_cases (fun v =>
    bool_decide (
      (0 <= Z.lor v 1 <= 255) /\ (0 <= Z.land v (Z.lnot 1) <= 255)
      /\ Z.land (Z.lor v 1) 1 = 1 /\ Z.land (Z.land v (Z.lnot 1)) 1 = 0
      /\ Z.shiftr (Z.lor v 1) 1 = Z.shiftr v 1
      /\ Z.shiftr (Z.land v (Z.lnot 1)) 1 = Z.shiftr v 1))) in Hv.
  - apply bool_decide_eq_true in Hv. exact Hv.
  - vm_compute. reflexivity.
Qed.

Lemma clamp_byte (v : Z) : isByte v -> TA.clamp v = v.
Proof. unfold isByte, TA.clamp. lia. Qed.

Lemma clamp_isByte (v : Z) : isByte (TA.clamp v).
Proof. unfold isByte, TA.clamp. lia. Qed.

Lemma map_clamp_bytes (a : list Z) : Forall isByte a -> map TA.clamp a = a.
Proof.
  induction 1 as [|v a Hv _ IH]; simpl; [reflexivity|].
  rewrite clamp_byte, IH by assumption. reflexivity.
Qed.

Lemma length_TA_set (a : list Z) (i v : Z) : length (TA.set a i v) = length a.
Proof. unfold TA.set. destruct (0 <=? i); [apply length_insert|reflexivity]. Qed.

Lemma TA_get_set_ne (a : list Z) (i j v : Z) :
  i <> j -> TA.get (TA.set a i v) j = TA.get a j.
Proof.
  intros Hne. unfold TA.get, TA.set.
  destruct (Z.leb_spec 0 j) as [Hj|Hj]; [|reflexivity].
  destruct (Z.leb_spec 0 i) as [Hi|Hi]; [|reflexivity].
  apply list_lookup_insert_ne. lia.
Qed.

Lemma TA_get_set_eq (a : list Z) (i v : Z) :
  0 <= i < Z.of_nat (length a) -> TA.get (TA.set a i v) i = Some (TA.clamp v).
Proof.
  intros Hi. unfold TA.get, TA.set.
  destruct (Z.leb_spec 0 i) as [_|]; [|lia].
  apply list_lookup_insert_eq. lia.
Qed.

Lemma TA_set_out (a : list Z) (i v : Z) :
  ~ 0 <= i < Z.of_nat (length a) -> TA.set a i v = a.
Proof.
  intros Hi. unfold TA.set.
  destruct (Z.leb_spec 0 i) as [H0|]; [|reflexivity].
  apply list_insert_ge. lia.
Qed.

Lemma TA_get_in (a : list Z) (i : Z) :
  0 <= i < Z.of_nat (length a) -> exists v, TA.get a i = Some v.
Proof.
  intros Hi. unfold TA.get.
  destruct (Z.leb_spec 0 i) as [_|]; [|lia].
  apply lookup_lt_is_Some_2. lia.
Qed.

Lemma TA_get_byte (a : list Z) (i v : Z) :
  Forall isByte a -> TA.get a i = Some v -> isByte v.
Proof.
  intros Ha. unfold TA.get. destruct (0 <=? i); [|discriminate].
  intros H. rewrite Forall_forall in Ha. apply Ha.
  apply list_elem_of_lookup. eauto.
Qed.

Lemma TA_set_bytes (a : list Z) (i v : Z) :
  Forall isByte a -> Forall isByte (TA.set a i v).
Proof.
  intros Ha. unfold TA.set. destruct (0 <=? i); [|exact Ha].
  apply Forall_insert; [exact Ha|apply clamp_isByte].
Qed.

Lemma length_updLSB (a : list Z) (i : Z) (b : bool) :
  length (updLSB a i b) = length a.
Proof. apply length_TA_set. Qed.

Lemma updLSB_bytes (a : list Z) (i : Z) (b : bool) :
  Forall isByte a -> Forall isByte (updLSB a i b).
Proof. apply TA_set_bytes. Qed.

Lemma updLSB_get_ne (a : list Z) (i j : Z) (b : bool) :
  i <> j -> TA.get (updLSB a i b) j = TA.get a j.
Proof. apply TA_get_set_ne. Qed.

(** Inside the array the update sets the least significant bit and keeps
    the seven others. *)
Lemma updLSB_get_eq (a : list Z) (i : Z) (b : bool) :
  Forall isByte a -> 0 <= i < Z.of_nat (length a) ->
  exists v v', TA.get a i = Some v /\ TA.get (updLSB a i b) i = Some v'
               /\ Z.land v' 1 = (if b then 1 else 0)
               /\ Z.shiftr v' 1 = Z.shiftr v 1.
Proof.
  intros Ha Hi. destruct (TA_get_in a i Hi) as [v Hv].
  pose proof (TA_get_byte a i v Ha Hv) as Hb.
  destruct (byte_lsb_facts v Hb) as (H1 & H2 & H3 & H4 & H5 & H6).
  unfold updLSB. rewrite Hv. simpl TA.ToInt32.
  rewrite TA_get_set_eq by assumption.
  destruct b; eexists _, _; (split; [reflexivity|]);
    rewrite clamp_byte by assumption; auto.
Qed.

Lemma updLSB_out (a : list Z) (i : Z) (b : bool) :
  ~ 0 <= i < Z.of_nat (length a) -> updLSB a i b = a.
Proof. apply TA_set_out. Qed.

(** An update changes at most the least significant bit of any element. *)
Lemma updLSB_high (a : list Z) (i j : Z) (b : bool) :
  Forall isByte a ->
  option_map (fun v => Z.shiftr v 1) (TA.get (updLSB a i b) j)
  = option_map (fun v => Z.shiftr v 1) (TA.get a j).
Proof.
  intros Ha. destruct (Z.eq_dec i j) as [<-|Hne].
  - destruct (Z_le_dec 0 i) as [H0|H0];
      [destruct (Z_lt_dec i (Z.of_nat (length a))) as [H1|H1]|].
    + destruct (updLSB_get_eq a i b Ha (conj H0 H1)) as (v & v' & Hv & Hv' & _ & Hs).
      rewrite Hv, Hv'. simpl. rewrite Hs. reflexivity.
    + rewrite updLSB_out by lia. reflexivity.
    + rewrite updLSB_out by lia. reflexivity.
  - rewrite updLSB_get_ne by assumption. reflexivity.
Qed.

(** *** Sequences of updates *)

Lemma updates_cons (a : list Z) (ib : option Z * bool) (l : list (option Z * bool)) :
  updates a (ib :: l)
  = updates (match fst ib with Some i => updLSB a i (snd ib) | None => a end) l.
Proof. reflexivity. Qed.

Lemma length_updates (l : list (option Z * bool)) (a : list Z) :
  length (updates a l) = length a.
Proof.
  revert a. induction l as [|[[i|] b] l IH]; intros a; [reflexivity| |].
  - rewrite updates_cons, IH. apply length_updLSB.
  - rewrite updates_cons, IH. reflexivity.
Qed.

Lemma updates_bytes (l : list (option Z * bool)) (a : list Z) :
  Forall isByte a -> Forall isByte (updates a l).
Proof.
  revert a. induction l as [|[[i|] b] l IH]; intros a Ha; [exact Ha| |].
  - rewrite updates_cons. apply IH, updLSB_bytes, Ha.
  - rewrite updates_cons. apply IH, Ha.
Qed.

(** An element that no update addresses is unchanged. *)
Lemma updates_get_other (l : list (option Z * bool)) (a : list Z) (j : Z) :
  Some j ∉ map fst l -> TA.get (updates a l) j = TA.get a j.
Proof.
  revert a. induction l as [|[[i|] b] l IH]; intros a Hj; [reflexivity| |].
  - rewrite updates_cons. simpl in Hj. apply not_elem_of_cons in Hj as [Hne Hj].
    rewrite IH by assumption. apply updLSB_get_ne. congruence.
  - rewrite updates_cons. simpl in Hj. apply not_elem_of_cons in Hj as [_ Hj].
    apply IH, Hj.
Qed.

(** Every element keeps its seven high bits. *)
Lemma updates_high (l : list (option Z * bool)) (a : list Z) (j : Z) :
  Forall isByte a ->
  option_map (fun v => Z.shiftr v 1) (TA.get (updates a l) j)
  = option_map (fun v => Z.shiftr v 1) (TA.get a j).
Proof.
  revert a. induction l as [|[[i|] b] l IH]; intros a Ha; [reflexivity| |].
  - rewrite updates_cons, IH by (apply updLSB_bytes, Ha).
    apply updLSB_high, Ha.
  - rewrite updates_cons. apply IH, Ha.
Qed.

(** With pairwise distinct indices, an addressed element of the array
    ends with the bit of its update. *)
Lemma updates_get_lsb (l : list (option Z * bool)) (a : list Z) (j : Z) (b : bool) :
  Forall isByte a -> NoDup (map fst l) -> (Some j, b) ∈ l ->
  0 <= j < Z.of_nat (length a) ->
  lsb (TA.get (updates a l) j) = (if b then 1 else 0).
Proof.
  revert a. induction l as [|[i c] l IH]; intros a Ha Hnd Hin Hj.
  - apply elem_of_nil in Hin. contradiction.
  - simpl in Hnd. apply NoDup_cons in Hnd as [Hni Hnd].
    apply elem_of_cons in Hin as [Heq|Hin].
    + injection Heq as <- <-. rewrite updates_cons. simpl fst. simpl snd.
      rewrite updates_get_other by exact Hni.
      destruct (updLSB_get_eq a j b Ha Hj) as (v & v' & _ & Hv' & Hl & _).
      rewrite Hv'. exact Hl.
    + rewrite updates_cons. destruct i as [i|]; simpl fst; simpl snd.
      * apply IH; try assumption.
        -- apply updLSB_bytes, Ha.
        -- rewrite length_updLSB. exact Hj.
      * apply IH; assumption.
Qed.

(** ** The store: updates reach one array only *)

Lemma array_lookup (st : store) (r : nat) (a : list Z) :
  st !! r = Some a -> Store.array st r = a.
Proof. unfold Store.array. intros ->. reflexivity. Qed.

Lemma array_insert (st : store) (r : nat) (a : list Z) :
  (r < length st)%nat -> Store.array (<[r := a]> st) r = a.
Proof. intros H. apply array_lookup, list_lookup_insert_eq, H. Qed.

Lemma setLSB_array (r : nat) (st : store) (ib : option Z * bool) :
  (r < length st)%nat ->
  Store.array (setLSB r st ib) r
  = match fst ib with
    | Some i => updLSB (Store.array st r) i (snd ib)
    | None => Store.array st r
    end.
Proof.
  intros Hr. destruct ib as [[i|] b]; destruct b; simpl;
    unfold setLSB, Store.or1, Store.andnot1, Store.write; simpl;
    try reflexivity; apply array_insert, Hr.
Qed.

Lemma setLSB_other (r r' : nat) (st : store) (ib : option Z * bool) :
  r <> r' -> setLSB r st ib !! r' = st !! r'.
Proof.
  intros Hne. destruct ib as [[i|] b]; destruct b;
    unfold setLSB, Store.or1, Store.andnot1, Store.write; simpl;
    try reflexivity; apply list_lookup_insert_ne, Hne.
Qed.

Lemma length_setLSB (r : nat) (st : store) (ib : option Z * bool) :
  length (setLSB r st ib) = length st.
Proof.
  destruct ib as [[i|] b]; destruct b;
    unfold setLSB, Store.or1, Store.andnot1, Store.write; simpl;
    try reflexivity; apply length_insert.
Qed.

Lemma length_fold_setLSB (r : nat) (l : list (option Z * bool)) (st : store) :
  length (fold_left (setLSB r) l st) = length st.
Proof.
  revert st. induction l as [|ib l IH]; intros st; simpl; [reflexivity|].
  rewrite IH. apply length_setLSB.
Qed.

Lemma fold_setLSB_array (r : nat) (l : list (option Z * bool)) (st : store) :
  (r < length st)%nat ->
  Store.array (fold_left (setLSB r) l st) r = updates (Store.array st r) l.
Proof.
  revert st. induction l as [|ib l IH]; intros st Hr; simpl; [reflexivity|].
  rewrite IH by (rewrite length_setLSB; exact Hr).
  rewrite setLSB_array by exact Hr. reflexivity.
Qed.

Lemma fold_setLSB_other (r r' : nat) (l : list (option Z * bool)) (st : store) :
  r <> r' -> fold_left (setLSB r) l st !! r' = st !! r'.
Proof.
  intros Hne. revert st. induction l as [|ib l IH]; intros st; simpl; [reflexivity|].
  rewrite IH. apply setLSB_other, Hne.
Qed.

Lemma embedBit_setLSB (st : store) (r : nat) (p : float) (c : Z) :
  embedBit st r p c = setLSB r st (channelIndex p 2, c =? chr1).
Proof. unfold embedBit, setLSB. simpl. destruct (c =? chr1); reflexivity. Qed.

Lemma writeSignature_updates (total : Z) (r : nat) (st : store) :
  writeSignature total r st = fold_left (setLSB r) (signatureUpdates total) st.
Proof.
  unfold writeSignature, signatureUpdates.
  generalize (seqZ 0 signatureLength). intros l. revert st.
  induction l as [|i l IH]; intros st; simpl; [reflexivity|].
  rewrite IH. reflexivity.
Qed.

(** ** The loops draw their pixels as [selectSlots] does *)

Section Loops.

Variable Math_sin : float -> float.

Lemma drawPixel_fresh (fuel : nat) (g g' : SeededRandom) (total p : float)
    (modifiedPixels : list float) :
  drawPixel Math_sin fuel g total modifiedPixels = Some (p, g') ->
  Num.has modifiedPixels p = false.
Proof.
  revert g. induction fuel as [|fuel IH]; intros g; simpl; [discriminate|].
  set (p0 := Num.Math_floor _).
  destruct (Num.has modifiedPixels p0) eqn:E.
  - apply IH.
  - intros [= <- _]. exact E.
Qed.

(** More fuel never changes a draw that finished. *)
Lemma drawPixel_fuel (fuel fuel' : nat) (g : SeededRandom) (total : float)
    (modifiedPixels : list float) (res : float * SeededRandom) :
  (fuel <= fuel')%nat ->
  drawPixel Math_sin fuel g total modifiedPixels = Some res ->
  drawPixel Math_sin fuel' g total modifiedPixels = Some res.
Proof.
  revert fuel' g. induction fuel as [|fuel IH]; intros fuel' g Hle; simpl; [discriminate|].
  destruct fuel' as [|fuel']; [lia|]. simpl.
  destruct (Num.has modifiedPixels _); [|auto].
  apply IH. lia.
Qed.

Lemma embedLoop_selectSlots (fuel : nat) (bits : jsstring) (g : SeededRandom)
    (total : float) (modifiedPixels : list float) (st : store) (r : nat) :
  embedLoop Math_sin fuel bits g total modifiedPixels st r
  = match selectSlots Math_sin fuel (length bits) g total modifiedPixels with
    | Some slots =>
        Some (fold_left (setLSB r) (messageUpdates slots bits) st,
              modifiedPixels ++ slots)
    | None => None
    end.
Proof.
  revert g modifiedPixels st.
  induction bits as [|c bits IH]; intros g modifiedPixels st; simpl.
  - rewrite app_nil_r. reflexivity.
  - destruct (drawPixel Math_sin fuel g total modifiedPixels) as [[p g']|];
      [|reflexivity].
    rewrite IH.
    destruct (selectSlots Math_sin fuel (length bits) g' total _) as [slots|];
      [|reflexivity].
    rewrite <- app_assoc, embedBit_setLSB. reflexivity.
Qed.

Lemma extractLoop_selectSlots (fuel n : nat) (g : SeededRandom)
    (total : float) (modifiedPixels : list float) (st : store) (r : nat)
    (acc : jsstring) :
  extractLoop Math_sin fuel n g total modifiedPixels st r acc
  = match selectSlots Math_sin fuel n g total modifiedPixels with
    | Some slots =>
        Some (acc ++ map (fun p => Store.lsbChar st r (channelIndex p 2)) slots,
              modifiedPixels ++ slots)
    | None => None
    end.
Proof.
  revert g modifiedPixels acc.
  induction n as [|n IH]; intros g modifiedPixels acc; simpl.
  - rewrite !app_nil_r. reflexivity.
  - destruct (drawPixel Math_sin fuel g total modifiedPixels) as [[p g']|];
      [|reflexivity].
    rewrite IH.
    destruct (selectSlots Math_sin fuel n g' total _) as [slots|];
      [|reflexivity].
    rewrite <- !app_assoc. reflexivity.
Qed.

Lemma selectSlots_length (fuel k : nat) (g : SeededRandom) (total : float)
    (modifiedPixels slots : list float) :
  selectSlots Math_sin fuel k g total modifiedPixels = Some slots ->
  length slots = k.
Proof.
  revert g modifiedPixels slots.
  induction k as [|k IH]; intros g modifiedPixels slots; simpl.
  - intros [= <-]. reflexivity.
  - destruct (drawPixel Math_sin fuel g total modifiedPixels) as [[p g']|];
      [|discriminate].
    destruct (selectSlots Math_sin fuel k g' total _) as [slots'|] eqn:E;
      [|discriminate].
    intros [= <-]. simpl. f_equal. eapply IH, E.
Qed.

Lemma selectSlots_distinct (fuel k : nat) (g : SeededRandom) (total : float)
    (modifiedPixels slots : list float) :
  distinctNumbers modifiedPixels ->
  selectSlots Math_sin fuel k g total modifiedPixels = Some slots ->
  distinctNumbers (modifiedPixels ++ slots).
Proof.
  revert g modifiedPixels slots.
  induction k as [|k IH]; intros g modifiedPixels slots Hd; simpl.
  - intros [= <-]. rewrite app_nil_r. exact Hd.
  - destruct (drawPixel Math_sin fuel g total modifiedPixels) as [[p g']|] eqn:Ed;
      [|discriminate].
    destruct (selectSlots Math_sin fuel k g' total _) as [slots'|] eqn:E;
      [|discriminate].
    intros [= <-].
    change (p :: slots') with ([p] ++ slots'). rewrite app_assoc.
    eapply IH; [|exact E].
    constructor; [exact Hd|]. eapply drawPixel_fresh, Ed.
Qed.

End Loops.

(** ** Distinct numbers are distinct pixels *)

Lemma distinctNumbers_snoc_inv (l : list float) (x : float) :
  distinctNumbers (l ++ [x]) -> distinctNumbers l /\ Num.has l x = false.
Proof.
  intros H. inversion H as [Hnil|l' x' Hd Hf Heq].
  - destruct l; discriminate.
  - apply app_inj_tail in Heq as [-> ->]. split; assumption.
Qed.

Lemma channelIndex_inj (p q : float) (off : Z) (i : Z) :
  channelIndex p off = Some i -> channelIndex q off = Some i ->
  Num.SameValueZero p q = true.
Proof.
  unfold channelIndex.
  destruct (Num.to_Z p) as [zp|] eqn:Hp; [|discriminate].
  destruct (Num.to_Z q) as [zq|] eqn:Hq; [|discriminate].
  intros [= <-] [= H]. assert (zq = zp) as -> by lia.
  eapply to_Z_SameValueZero; eassumption.
Qed.

Lemma isPixel_channelIndex (total : Z) (p : float) (off : Z) :
  isPixel total p ->
  exists z, channelIndex p off = Some (z * 4 + off) /\ 0 <= z < total.
Proof.
  intros (z & Hz & Hr). exists z. unfold channelIndex. rewrite Hz. auto.
Qed.

Lemma distinct_channelIndex (total : Z) (off : Z) (l : list float) :
  distinctNumbers l -> Forall (isPixel total) l ->
  NoDup (map (fun p => channelIndex p off) l).
Proof.
  induction 1 as [|l x Hd IH Hx]; intros Hp; [constructor|].
  apply Forall_app in Hp as [Hl Hx'].
  rewrite map_app. apply NoDup_app. split; [apply IH, Hl|]. split.
  - intros i Hi Hi'. simpl in Hi'. apply list_elem_of_singleton in Hi'. subst i.
    apply list_elem_of_In, in_map_iff in Hi as (y & Hy & Hin).
    apply Forall_inv in Hx'.
    destruct (isPixel_channelIndex total x off Hx') as (z & Hz & _).
    rewrite Hz in Hy.
    pose proof (channelIndex_inj x y off _ Hz Hy) as Hsame.
    apply has_false in Hx. rewrite Forall_forall in Hx.
    apply list_elem_of_In in Hin. rewrite (Hx y Hin) in Hsame. discriminate.
  - simpl. apply NoDup_singleton.
Qed.

Lemma isPixelb_spec (total : Z) (p : float) :
  isPixelb total p = true -> isPixel total p.
Proof.
  unfold isPixelb, isPixel. destruct (Num.to_Z p) as [z|]; [|discriminate].
  intros H. apply andb_true_iff in H as [H1 H2]. exists z. split; [reflexivity|lia].
Qed.

Lemma forallb_isPixel (total : Z) (l : list float) :
  forallb (isPixelb total) l = true -> Forall (isPixel total) l.
Proof.
  intros H. apply Forall_forall. intros p Hp. apply isPixelb_spec.
  rewrite forallb_forall in H. apply H, list_elem_of_In, Hp.
Qed.

(** ** The two functions in terms of the slot selector and the updates *)

Lemma fold_setLSB_alloc (l : list (option Z * bool)) (st : store) (a : list Z) :
  fold_left (setLSB (length st)) l (st ++ [a]) = st ++ [updates a l].
Proof.
  revert a. induction l as [|ib l IH]; intros a; [reflexivity|].
  assert (Harr : Store.array (st ++ [a]) (length st) = a).
  { apply array_lookup, list_lookup_middle. reflexivity. }
  assert (Hins : forall x, <[length st := x]> (st ++ [a]) = st ++ [x]).
  { intros x. replace (length st) with (length st + 0)%nat at 1 by lia.
    rewrite insert_app_r. reflexivity. }
  cbn [fold_left]. rewrite updates_cons.
  destruct ib as [[i|] b]; cbn [fst snd].
  - replace (setLSB (length st) (st ++ [a]) (Some i, b))
      with (st ++ [updLSB a i b]); [apply IH|].
    unfold setLSB, Store.or1, Store.andnot1, Store.write, updLSB, Store.read.
    cbn [fst snd]. rewrite Harr.
    destruct b; rewrite Hins; reflexivity.
  - replace (setLSB (length st) (st ++ [a]) (None, b)) with (st ++ [a]);
      [apply IH|].
    unfold setLSB, Store.or1, Store.andnot1, Store.write. cbn [fst snd].
    destruct b; reflexivity.
Qed.

Lemma lsbChar_array (st : store) (r : nat) (i : option Z) :
  Store.lsbChar st r i = lsbCharOf (Store.array st r) i.
Proof. destruct i; reflexivity. Qed.

Section Functions.

Variable Math_sin : float -> float.

(** The returned image is a fresh array: the input's bytes with the
    updates of the message loop, then those of the signature loop. *)
Lemma applyInvisibleWatermark_eq (u : float) (fuel : nat) (st : store)
    (img : ImageData) (options : WatermarkOptions) (d : list Z) :
  st !! data img = Some d -> Forall isByte d ->
  let config := applyConfig u options in
  let bits := stringToBinary (cfg_message config) in
  let total := totalPixels img in
  applyInvisibleWatermark Math_sin u fuel st img options
  = match selectSlots Math_sin fuel (length bits)
            (createSeededRandom (cfg_randomSeed config)) (Num.of_Z total) [] with
    | Some slots =>
        Some (st ++ [updates d (messageUpdates slots bits ++ signatureUpdates total)],
              {| data := length st; width := width img; height := height img |})
    | None => None
    end.
Proof.
  intros Hd Hb config bits total.
  unfold applyInvisibleWatermark. fold (applyConfig u options). fold config.
  unfold Store.alloc. rewrite (array_lookup _ _ _ Hd), map_clamp_bytes by exact Hb.
  fold bits. fold total.
  rewrite embedLoop_selectSlots.
  destruct (selectSlots Math_sin fuel (length bits) _ _ _) as [slots|];
    [|reflexivity].
  rewrite writeSignature_updates, <- fold_left_app, fold_setLSB_alloc.
  reflexivity.
Qed.

Lemma extractWatermark_eq (u : float) (fuel : nat) (st : store)
    (img : ImageData) (options : WatermarkOptions) :
  let config := extractConfig u options in
  let n := length (stringToBinary (cfg_message config)) in
  let total := totalPixels img in
  let a := Store.array st (data img) in
  extractWatermark Math_sin u fuel st img options
  = if negb (signatureMatch total st (data img)) then Some None
    else match selectSlots Math_sin fuel n
                 (createSeededRandom (cfg_randomSeed config)) (Num.of_Z total) [] with
         | Some slots =>
             Some (Some (binaryToString
                           (map (fun p => lsbCharOf a (channelIndex p 2)) slots)))
         | None => None
         end.
Proof.
  intros config n total a.
  unfold extractWatermark. fold (extractConfig u options). fold config.
  fold total. fold n.
  destruct (negb (signatureMatch total st (data img))); [reflexivity|].
  rewrite extractLoop_selectSlots.
  destruct (selectSlots Math_sin fuel n _ _ _) as [slots|]; [|reflexivity].
  cbn [app]. reflexivity.
Qed.

End Functions.

(** ** Reading the bits back *)

Lemma signatureLength_eq : signatureLength = 64.
Proof. reflexivity. Qed.

Lemma signature_chars (i : Z) :
  0 <= i < 64 ->
  TA.get signature i = Some (if isOne signature i then chr1 else chr0).
Proof.
  intros Hi.
  assert (H : forallb (fun i => bool_decide
                (TA.get signature i = Some (if isOne signature i then chr1 else chr0)))
              (seqZ 0 64) = true) by (vm_compute; reflexivity).
  rewrite forallb_forall in H.
  eapply bool_decide_eq_true_1, H, list_elem_of_In, elem_of_seqZ. lia.
Qed.

Lemma map_fst_signatureUpdates (total : Z) :
  map fst (signatureUpdates total)
  = map (fun i => Some (signatureIndex total i)) (seqZ 0 64).
Proof.
  unfold signatureUpdates. rewrite signatureLength_eq, map_map. reflexivity.
Qed.

Lemma NoDup_map_inj {A B : Type} (f : A -> B) (l : list A) :
  (forall x y, f x = f y -> x = y) -> NoDup l -> NoDup (map f l).
Proof.
  intros Hinj. induction 1 as [|x l Hx Hnd IH]; simpl; constructor.
  - intros Hin. apply list_elem_of_In, in_map_iff in Hin as (y & Hy & Hin).
    apply Hinj in Hy. subst y. apply Hx, list_elem_of_In, Hin.
  - exact IH.
Qed.

Lemma NoDup_signatureUpdates (total : Z) :
  NoDup (map fst (signatureUpdates total)).
Proof.
  rewrite map_fst_signatureUpdates. apply NoDup_map_inj; [|apply NoDup_seqZ].
  unfold signatureIndex. intros x y [= H]. lia.
Qed.

Lemma elem_of_signatureUpdates (total i : Z) :
  0 <= i < 64 ->
  (Some (signatureIndex total i), isOne signature i) ∈ signatureUpdates total.
Proof.
  intros Hi. unfold signatureUpdates. rewrite signatureLength_eq.
  apply list_elem_of_In, in_map_iff. exists i. split; [reflexivity|].
  apply list_elem_of_In, elem_of_seqZ. lia.
Qed.

(** The indices of the signature loop are the alpha bytes of the pixels
    [total - 64 .. total - 1]. *)
Lemma signatureUpdates_index (total j : Z) :
  Some j ∈ map fst (signatureUpdates total) <->
  exists i, 0 <= i < 64 /\ j = (total - 64 + i) * 4 + 3.
Proof.
  rewrite map_fst_signatureUpdates, list_elem_of_In, in_map_iff. split.
  - intros (i & [= Hi] & Hin). apply list_elem_of_In, elem_of_seqZ in Hin.
    exists i. unfold signatureIndex in Hi. split; lia.
  - intros (i & Hi & ->). exists i. split.
    + unfold signatureIndex. f_equal. lia.
    + apply list_elem_of_In, elem_of_seqZ. lia.
Qed.

(** After the signature loop, the alpha bits of the last 64 pixels are
    the first 64 bits of the signature. *)
Lemma signature_readback (a : list Z) (total i : Z) :
  Forall isByte a -> Z.of_nat (length a) = 4 * total -> 64 <= total ->
  0 <= i < 64 ->
  lsb (TA.get (updates a (signatureUpdates total)) (signatureIndex total i))
  = bitAt signature i.
Proof.
  intros Ha Hlen Htot Hi. unfold bitAt.
  apply updates_get_lsb; try assumption.
  - apply NoDup_signatureUpdates.
  - apply elem_of_signatureUpdates, Hi.
  - unfold signatureIndex. lia.
Qed.

Lemma map_fst_messageUpdates (slots : list float) (bits : jsstring) :
  length slots = length bits ->
  map fst (messageUpdates slots bits) = map (fun p => channelIndex p 2) slots.
Proof.
  revert bits. induction slots as [|p slots IH]; intros [|c bits] Hlen;
    try discriminate; [reflexivity|].
  simpl. f_equal. apply IH. simpl in Hlen. lia.
Qed.

(** The indices of the message loop are blue bytes. *)
Lemma messageUpdates_index (slots : list float) (bits : jsstring) (j : Z) :
  Some j ∈ map fst (messageUpdates slots bits) ->
  exists p z, p ∈ slots /\ Num.to_Z p = Some z /\ j = z * 4 + 2.
Proof.
  revert bits. induction slots as [|p slots IH]; intros [|c bits] Hin;
    try (apply elem_of_nil in Hin; contradiction).
  simpl in Hin. apply elem_of_cons in Hin as [Heq|Hin].
  - exists p. unfold channelIndex in Heq.
    destruct (Num.to_Z p) as [z|]; [|discriminate].
    injection Heq as ->. exists z. split; [left|auto].
  - destruct (IH bits Hin) as (q & z & Hq & Hz & Hj).
    exists q, z. split; [right; exact Hq|auto].
Qed.

(** The message bits are read back from any array that has the blue bytes
    the message loop left. *)
Lemma message_readback (total : Z) (slots : list float) :
  forall (bits : jsstring) (a a' : list Z),
    Forall isByte a -> Z.of_nat (length a) = 4 * total ->
    length slots = length bits ->
    NoDup (map (fun p => channelIndex p 2) slots) ->
    Forall (isPixel total) slots ->
    Forall (fun b => b = chr0 \/ b = chr1) bits ->
    (forall j, j mod 4 = 2 ->
       TA.get a' j = TA.get (updates a (messageUpdates slots bits)) j) ->
    map (fun p => lsbCharOf a' (channelIndex p 2)) slots = bits.
Proof.
  induction slots as [|p slots IH]; intros [|c bits] a a' Ha Hlen Hl Hnd Hpx Hbin Ha';
    try discriminate; [reflexivity|].
  simpl in Hl. cbn [map] in Hnd |- *.
  apply NoDup_cons in Hnd as [Hni Hnd].
  apply Forall_cons in Hpx as [Hp Hpx].
  apply Forall_cons in Hbin as [Hc Hbin].
  destruct (isPixel_channelIndex total p 2 Hp) as (z & Hz & Hzr).
  change (messageUpdates (p :: slots) (c :: bits))
    with ((channelIndex p 2, c =? chr1) :: messageUpdates slots bits) in Ha'.
  rewrite updates_cons in Ha'. cbn [fst snd] in Ha'. rewrite Hz in Ha', Hni.
  f_equal.
  - rewrite Hz. unfold lsbCharOf.
    rewrite Ha' by (rewrite Z.add_comm, Z.mod_add; [reflexivity|lia]).
    rewrite updates_get_other
      by (rewrite map_fst_messageUpdates by lia; exact Hni).
    destruct (updLSB_get_eq a (z * 4 + 2) (c =? chr1) Ha ltac:(lia))
      as (v & v' & _ & Hv' & Hlsb & _).
    rewrite Hv'. unfold lsb. simpl TA.ToInt32. rewrite Hlsb.
    destruct Hc as [-> | ->]; reflexivity.
  - apply (IH bits (updLSB a (z * 4 + 2) (c =? chr1)) a'); try assumption.
    + apply updLSB_bytes, Ha.
    + rewrite length_updLSB. exact Hlen.
    + lia.
Qed.

(** ** The embedded image *)

Lemma updates_app (a : list Z) (l1 l2 : list (option Z * bool)) :
  updates a (l1 ++ l2) = updates (updates a l1) l2.
Proof. apply fold_left_app. Qed.

Lemma lsb_cases (o : option Z) : lsb o = 0 \/ lsb o = 1.
Proof.
  unfold lsb. change 1 with (Z.ones 1) at 1 2. rewrite Z.land_ones by lia.
  change (2 ^ 1) with 2. pose proof (Z.mod_pos_bound (TA.ToInt32 o) 2). lia.
Qed.

Lemma bitAt_cases (s : jsstring) (i : Z) : bitAt s i = 0 \/ bitAt s i = 1.
Proof. unfold bitAt. destruct (isOne s i); auto. Qed.

Lemma channel_array (st : store) (img : ImageData) (p off : Z) :
  channel st img p off = TA.get (Store.array st (data img)) (p * 4 + off).
Proof. reflexivity. Qed.

Section Embedded.

Variable Math_sin : float -> float.

(** What a call that returns leaves: the caller's store with one more
    array. *)
Lemma applyInvisibleWatermark_inv (u : float) (fuel : nat) (st st' : store)
    (img out : ImageData) (options : WatermarkOptions) :
  wf_image st img ->
  applyInvisibleWatermark Math_sin u fuel st img options = Some (st', out) ->
  exists d slots,
    let config := applyConfig u options in
    let bits := stringToBinary (cfg_message config) in
    st !! data img = Some d /\ Forall isByte d
    /\ Z.of_nat (length d) = 4 * totalPixels img
    /\ selectSlots Math_sin fuel (length bits)
         (createSeededRandom (cfg_randomSeed config))
         (Num.of_Z (totalPixels img)) [] = Some slots
    /\ st' = st ++ [updates (updates d (messageUpdates slots bits))
                      (signatureUpdates (totalPixels img))]
    /\ out = {| data := length st; width := width img; height := height img |}.
Proof.
  intros (d & Hd & Hlen & Hb) H.
  rewrite (applyInvisibleWatermark_eq Math_sin u fuel st img options d Hd Hb) in H.
  cbv zeta in H.
  destruct (selectSlots Math_sin fuel _ _ _ _) as [slots|] eqn:Hs; [|discriminate].
  injection H as <- <-. exists d, slots. cbv zeta.
  rewrite updates_app. auto 10.
Qed.

Lemma array_alloc (st : store) (a : list Z) :
  Store.array (st ++ [a]) (length st) = a.
Proof. apply array_lookup, list_lookup_middle. reflexivity. Qed.

(** The alpha bits of the last 64 pixels of a returned image. *)
Lemma alpha_signature (u : float) (fuel : nat) (st st' : store)
    (img out : ImageData) (options : WatermarkOptions) (i : Z) :
  wf_image st img -> 64 <= totalPixels img ->
  applyInvisibleWatermark Math_sin u fuel st img options = Some (st', out) ->
  0 <= i < 64 ->
  alphaLSB st' out (totalPixels img - 64 + i) = bitAt signature i.
Proof.
  intros Hwf Htot H Hi.
  destruct (applyInvisibleWatermark_inv u fuel st st' img out options Hwf H)
    as (d & slots & Hd & Hb & Hlen & _ & -> & ->).
  unfold alphaLSB. rewrite channel_array. cbn [data]. rewrite array_alloc.
  replace ((totalPixels img - 64 + i) * 4 + 3)
    with (signatureIndex (totalPixels img) i) by (unfold signatureIndex; lia).
  apply signature_readback; try assumption.
  - apply updates_bytes, Hb.
  - rewrite length_updates. exact Hlen.
Qed.

(** The image read back: the signature matches. *)
Lemma signatureMatch_true_iff (total : Z) (st : store) (r : nat) :
  signatureMatch total st r = true <->
  forall i, 0 <= i < 64 ->
    lsb (TA.get (Store.array st r) (signatureIndex total i)) = bitAt signature i.
Proof.
  unfold signatureMatch. rewrite signatureLength_eq, forallb_forall. split.
  - intros H i Hi.
    assert (Hin : In i (seqZ 0 64)) by (apply list_elem_of_In, elem_of_seqZ; lia).
    apply H, bool_decide_eq_true_1 in Hin. rewrite signature_chars in Hin by exact Hi.
    injection Hin as Hin. unfold Store.lsbChar, Store.read in Hin. unfold bitAt.
    fold (lsb (TA.get (Store.array st r) (signatureIndex total i))) in Hin.
    destruct (lsb_cases (TA.get (Store.array st r) (signatureIndex total i))) as [E|E];
      rewrite E in Hin |- *; destruct (isOne signature i); simpl in Hin;
      try reflexivity; discriminate.
  - intros H i Hin. apply list_elem_of_In, elem_of_seqZ in Hin.
    apply bool_decide_eq_true_2. rewrite signature_chars by lia. f_equal.
    unfold Store.lsbChar, Store.read.
    fold (lsb (TA.get (Store.array st r) (signatureIndex total i))).
    rewrite H by lia. unfold bitAt. destruct (isOne signature i); reflexivity.
Qed.


End Embedded.


(** ** A counter that no longer advances

    From 2^53 on, [seed++] leaves the counter where it is: the generator
    repeats one value and the redraw loop cannot find a second pixel. *)

Section Stall.

Variable Math_sin : float -> float.

Lemma drawPixel_stuck (fuel : nat) (c total : float) (modifiedPixels : list float) :
  (c + 1)%float = c ->
  Num.has modifiedPixels
    (Num.Math_floor (scaledFraction Math_sin c * total)%float) = true ->
  drawPixel Math_sin fuel {| counter := c |} total modifiedPixels = None.
Proof.
  intros Hc Hh. induction fuel as [|fuel IH]; [reflexivity|].
  cbn [drawPixel random counter]. fold (scaledFraction Math_sin c).
  rewrite Hh, Hc. exact IH.
Qed.

Lemma selectSlots_stuck (fuel k : nat) (c total : float) :
  (c + 1)%float = c ->
  selectSlots Math_sin fuel (S (S k)) {| counter := c |} total [] = None.
Proof.
  intros Hc. destruct fuel as [|fuel]; [reflexivity|].
  cbn [selectSlots].
  assert (Hd : drawPixel Math_sin (S fuel) {| counter := c |} total []
               = Some (Num.Math_floor (scaledFraction Math_sin c * total)%float,
                       {| counter := c |})).
  { cbn [drawPixel random counter Num.has existsb]. rewrite Hc. reflexivity. }
  rewrite Hd. cbn [app].
  rewrite drawPixel_stuck; [reflexivity|exact Hc|].
  cbn [Num.has existsb]. rewrite SameValueZero_refl. reflexivity.
Qed.

End Stall.

Lemma two53_stuck : (Num.two53 + 1)%float = Num.two53.
Proof. reflexivity. Qed.

Lemma repeat_bytes (v : Z) (n : nat) : isByte v -> Forall isByte (repeat v n).
Proof.
  intros Hv. apply Forall_forall. intros x Hx.
  apply list_elem_of_In, repeat_spec in Hx. subst x. exact Hv.
Qed.

Lemma wf_white10 : wf_image white10 img10.
Proof.
  exists (repeat 255 400). split; [reflexivity|]. split; [reflexivity|].
  apply repeat_bytes. unfold isByte. lia.
Qed.

Lemma wf_black10 : wf_image black10 img10.
Proof.
  exists (repeat 0 400). split; [reflexivity|]. split; [reflexivity|].
  apply repeat_bytes. unfold isByte. lia.
Qed.

Lemma braces_bytes : Forall (fun c => 0 <= c <= 255) (js "{}").
Proof. change (js "{}") with [123; 125]. repeat (constructor; [lia|]). constructor. Qed.

Lemma length_braces_bits : length (stringToBinary (js "{}")) = 16%nat.
Proof. reflexivity. Qed.


Lemma slots42_eq :
  selectSlots SinRef.sin 100 16 (createSeededRandom 42) (Num.of_Z 100) []
  = Some slots42.
Proof. vm_compute. reflexivity. Qed.

Lemma slots42_pixels : Forall (isPixel 100) slots42.
Proof. apply forallb_isPixel. vm_compute. reflexivity. Qed.



(** ** No pixel is drawn twice *)

Lemma distinctNumbers_pairwise (l : list float) :
  distinctNumbers l ->
  forall (i j : nat) (p q : float),
    (i < j)%nat -> l !! i = Some p -> l !! j = Some q ->
    Num.SameValueZero q p = false.
Proof.
  induction 1 as [|l x Hd IH Hx]; intros i j p q Hij Hi Hj.
  - discriminate Hi.
  - pose proof (lookup_lt_Some _ _ _ Hj) as Hlt. rewrite length_app in Hlt.
    simpl in Hlt.
    rewrite lookup_app_l in Hi by lia.
    destruct (decide (j < length l)%nat) as [Hjl|Hjl].
    + rewrite lookup_app_l in Hj by exact Hjl. exact (IH i j p q Hij Hi Hj).
    + assert (j = length l) as -> by lia.
      rewrite list_lookup_middle in Hj by reflexivity. injection Hj as <-.
      apply has_false in Hx. rewrite Forall_forall in Hx.
      apply Hx. apply list_elem_of_lookup. eauto.
Qed.


(** ** The signature check *)

Lemma signatureIndex_alpha (total i : Z) :
  signatureIndex total i = (total - 64 + i) * 4 + 3.
Proof. unfold signatureIndex. lia. Qed.

Lemma forallb_false_exists {A : Type} (f : A -> bool) (l : list A) :
  forallb f l = false -> exists x, In x l /\ f x = false.
Proof.
  induction l as [|x l IH]; simpl; [discriminate|].
  destruct (f x) eqn:E; simpl.
  - intros H. destruct (IH H) as (y & Hy & Hf). eauto.
  - intros _. eauto.
Qed.

Lemma alphaLSB_signatureIndex (st : store) (img : ImageData) (i : Z) :
  alphaLSB st img (totalPixels img - 64 + i)
  = lsb (TA.get (Store.array st (data img)) (signatureIndex (totalPixels img) i)).
Proof.
  unfold alphaLSB. rewrite channel_array, signatureIndex_alpha. reflexivity.
Qed.


Lemma signed10_matches :
  forall i, 0 <= i < 64 ->
    alphaLSB signed10 img10 (totalPixels img10 - 64 + i) = bitAt signature i.
Proof.
  intros i Hi. rewrite alphaLSB_signatureIndex.
  apply (proj1 (signatureMatch_true_iff (totalPixels img10) signed10 (data img10))).
  - vm_compute. reflexivity.
  - exact Hi.
Qed.



(** ** What the embedding leaves untouched *)

Lemma updates_frame (a : list Z) (l : list (option Z * bool)) (j v : Z) :
  Forall isByte a -> TA.get a j = Some v ->
  exists v', TA.get (updates a l) j = Some v'
             /\ Z.shiftr v' 1 = Z.shiftr v 1
             /\ (v' = v \/ Some j ∈ map fst l).
Proof.
  intros Ha Hv. pose proof (updates_high l a j Ha) as Hh. rewrite Hv in Hh.
  destruct (TA.get (updates a l) j) as [v'|] eqn:Hv'; [|discriminate].
  injection Hh as Hh. exists v'. split; [reflexivity|]. split; [exact Hh|].
  destruct (decide (Some j ∈ map fst l)) as [Hin|Hni]; [right; exact Hin|].
  left. rewrite updates_get_other in Hv' by exact Hni. congruence.
Qed.


(** ** Default seeds *)

Lemma spread_randomSeed (d1 d2 : Config) (options : WatermarkOptions) (seed : float) :
  randomSeed options = Some seed ->
  cfg_strength d1 = cfg_strength d2 -> cfg_message d1 = cfg_message d2 ->
  spread d1 options = spread d2 options.
Proof.
  intros Hs H1 H2. unfold spread. rewrite Hs, H1, H2. reflexivity.
Qed.



(** ** The scenario of the 10x10 image *)

Lemma distinct_to_Z (total : Z) (l : list float) :
  distinctNumbers l -> Forall (isPixel total) l -> NoDup (map Num.to_Z l).
Proof.
  induction 1 as [|l x Hd IH Hx]; intros Hp; [constructor|].
  apply Forall_app in Hp as [Hl Hx'].
  rewrite map_app. apply NoDup_app. split; [apply IH, Hl|]. split.
  - intros i Hi Hi'. simpl in Hi'. apply list_elem_of_singleton in Hi'. subst i.
    apply list_elem_of_In, in_map_iff in Hi as (y & Hy & Hin).
    apply Forall_inv in Hx'. destruct Hx' as (z & Hz & _).
    rewrite Hz in Hy.
    pose proof (to_Z_SameValueZero x y z Hz Hy) as Hsame.
    apply has_false in Hx. rewrite Forall_forall in Hx.
    apply list_elem_of_In in Hin. rewrite (Hx y Hin) in Hsame. discriminate.
  - simpl. apply NoDup_singleton.
Qed.

Lemma map_lookup {A B : Type} (f : A -> B) (l : list A) (k : nat) (x : A) :
  l !! k = Some x -> map f l !! k = Some (f x).
Proof.
  revert k. induction l as [|y l IH]; intros [|k] H; try discriminate.
  - injection H as ->. reflexivity.
  - apply IH, H.
Qed.

Lemma TA_get_of_nat (a : list Z) (k : nat) : TA.get a (Z.of_nat k) = a !! k.
Proof.
  unfold TA.get. destruct (Z.leb_spec 0 (Z.of_nat k)); [|lia].
  rewrite Nat2Z.id. reflexivity.
Qed.

(** The blue bit of the [k]-th drawn pixel is bit [k] of the message. *)
Lemma embedded_blue_bits (Math_sin : float -> float) (u : float) (fuel : nat)
    (st st' : store) (img out : ImageData) (T : jsstring) (S : float)
    (slots : list float) :
  wf_image st img -> Forall isByte T ->
  selectSlots Math_sin fuel (length (stringToBinary T)) (createSeededRandom S)
    (Num.of_Z (totalPixels img)) [] = Some slots ->
  Forall (isPixel (totalPixels img)) slots ->
  applyInvisibleWatermark Math_sin u fuel st img (withSeed T S) = Some (st', out) ->
  forall (k : nat) (p : float) (z : Z),
    slots !! k = Some p -> Num.to_Z p = Some z ->
    blueLSB st' out z = bitAt (stringToBinary T) (Z.of_nat k).
Proof.
  intros Hwf HT Hs Hpx H k p z Hk Hz.
  destruct (applyInvisibleWatermark_inv Math_sin u fuel st st' img out _ Hwf H)
    as (d & slots' & Hd & Hb & Hlen & Hs' & -> & ->).
  cbn [applyConfig spread withSeed message randomSeed default
       cfg_message cfg_randomSeed from_option id] in Hs'.
  rewrite Hs in Hs'. injection Hs' as <-.
  cbn [applyConfig spread withSeed message default cfg_message from_option id].
  set (total := totalPixels img) in *.
  set (bits := stringToBinary T) in *.
  set (a1 := updates d (messageUpdates slots bits)).
  set (a2 := updates a1 (signatureUpdates total)).
  assert (Hread : map (fun p => lsbCharOf a2 (channelIndex p 2)) slots = bits).
  { apply (message_readback total slots bits d a2); try assumption.
    - apply (selectSlots_length _ _ _ _ _ _ _ Hs).
    - apply (distinct_channelIndex total); [|exact Hpx].
      apply (selectSlots_distinct Math_sin _ _ _ _ [] slots distinct_nil Hs).
    - apply stringToBinary_binary, HT.
    - intros j Hj. apply updates_get_other.
      intros Hin. apply signatureUpdates_index in Hin as (i & _ & ->).
      rewrite Z.add_comm, Z.mod_add in Hj by lia. discriminate. }
  pose proof (map_lookup (fun p => lsbCharOf a2 (channelIndex p 2)) slots k p Hk)
    as Hc.
  rewrite Hread in Hc.
  unfold bitAt, isOne. rewrite TA_get_of_nat, Hc.
  unfold blueLSB. rewrite channel_array. cbn [data]. rewrite array_alloc.
  fold a1. fold a2.
  unfold channelIndex, lsbCharOf. rewrite Hz.
  destruct (lsb_cases (TA.get a2 (z * 4 + 2))) as [E|E]; rewrite E; reflexivity.
Qed.


(** ** Images of fewer than 64 pixels *)

Lemma TA_get_negative (a : list Z) (i : Z) : i < 0 -> TA.get a i = None.
Proof. intros Hi. unfold TA.get. destruct (Z.leb_spec 0 i); [lia|reflexivity]. Qed.

Lemma store_write_negative (st : store) (r : nat) (i v : Z) :
  i < 0 -> Store.write st r (Some i) v = st.
Proof.
  intros Hi. unfold Store.write, TA.set.
  destruct (Z.leb_spec 0 i); [lia|].
  unfold Store.array. destruct (st !! r) as [a|] eqn:E; simpl.
  - apply list_insert_id, E.
  - apply list_insert_ge, lookup_ge_None, E.
Qed.


(** ** The generator *)

Lemma increments_succ (k : nat) (c : float) :
  increments (S k) c = increments k (c + 1)%float.
Proof.
  unfold increments.
  exact (Nat.iter_succ_r k (fun c => (c + 1)%float) c).
Qed.

Lemma calls_eq (Math_sin : float -> float) (n : nat) (g : SeededRandom) :
  calls Math_sin n g
  = map (fun k => scaledFraction Math_sin (increments k (counter g))) (seq 0 n).
Proof.
  revert g. induction n as [|n IH]; intros g; [reflexivity|].
  cbn [calls random]. rewrite IH. cbn [counter seq map]. f_equal.
  rewrite <- seq_shift, map_map. apply map_ext. intros k.
  rewrite increments_succ. reflexivity.
Qed.

Lemma after_counter (Math_sin : float -> float) (n : nat) (g : SeededRandom) :
  counter (after Math_sin n g) = increments n (counter g).
Proof.
  revert g. induction n as [|n IH]; intros g; [reflexivity|].
  cbn [after random snd]. rewrite IH, increments_succ. reflexivity.
Qed.

(** ** Bytes of the embedded array *)

(** Each byte of the array after the two loops, against the byte before:
    the high bits are kept, and the byte is kept unless it is the blue
    byte of a drawn pixel or the alpha byte of one of the last 64
    pixels. *)
Lemma embedded_array_frame (d : list Z) (slots : list float) (bits : jsstring)
    (total p off v : Z) :
  Forall isByte d -> 0 <= off < 4 -> TA.get d (p * 4 + off) = Some v ->
  exists v',
    TA.get (updates (updates d (messageUpdates slots bits)) (signatureUpdates total))
      (p * 4 + off) = Some v'
    /\ Z.shiftr v' 1 = Z.shiftr v 1
    /\ (v' = v
        \/ (off = 2 /\ exists q, q ∈ slots /\ Num.to_Z q = Some p)
        \/ (off = 3 /\ total - 64 <= p < total)).
Proof.
  intros Hb Hoff Hv. rewrite <- updates_app.
  destruct (updates_frame d (messageUpdates slots bits ++ signatureUpdates total)
              _ v Hb Hv) as (v' & Hv' & Hh & Hc).
  exists v'. split; [exact Hv'|]. split; [exact Hh|].
  destruct Hc as [Hc|Hin]; [left; exact Hc|right].
  rewrite map_app in Hin. apply elem_of_app in Hin as [Hin|Hin].
  - left. apply messageUpdates_index in Hin as (q & z & Hq & Hz & Hj).
    assert (off = 2 /\ z = p) as [-> ->] by lia. eauto.
  - right. apply signatureUpdates_index in Hin as (i & Hi & Hj). lia.
Qed.

(** With at most 62 pixels the second signature bit is read outside the
    array, as 0, and the signature has a 1 there. *)
Lemma signatureMatch_small (total : Z) (st : store) (r : nat) :
  total <= 62 -> signatureMatch total st r = false.
Proof.
  intros Ht. destruct (signatureMatch total st r) eqn:Hm; [|reflexivity].
  pose proof (proj1 (signatureMatch_true_iff total st r) Hm 1 ltac:(lia)) as H.
  rewrite TA_get_negative in H by (unfold signatureIndex; lia).
  vm_compute in H. discriminate H.
Qed.

Lemma signatureMatch_signed10 :
  signatureMatch (totalPixels img10) signed10 (data img10) = true.
Proof. vm_compute. reflexivity. Qed.

(** ** Exact increments of integer counters

    The doubles of the integers 0 .. 2^53 are closed under [seed++]: the
    sum is computed on the specification of binary64 addition. *)

Lemma shl_S (m : positive) (k : nat) : shl m (S k) = xO (shl m k).
Proof. reflexivity. Qed.

Lemma shl_add (m : positive) (a b : nat) : shl (shl m a) b = shl m (a + b).
Proof. unfold shl. rewrite Nat.add_comm. symmetry. apply Nat.iter_add. Qed.

Lemma Zpos_shl (m : positive) (k : nat) : Z.pos (shl m k) = Z.pos m * 2 ^ Z.of_nat k.
Proof.
  induction k as [|k IH].
  - simpl. lia.
  - rewrite shl_S, Pos2Z.inj_xO, IH, Nat2Z.inj_succ, Z.pow_succ_r by lia. lia.
Qed.

Lemma digits_shl (m : positive) (k : nat) :
  Z.pos (digits2_pos (shl m k)) = Z.pos (digits2_pos m) + Z.of_nat k.
Proof.
  induction k as [|k IH].
  - simpl. lia.
  - rewrite shl_S. cbn [digits2_pos]. rewrite Pos2Z.inj_succ, IH. lia.
Qed.

Lemma pos_iter_shl (m p : positive) : Pos.iter xO m p = shl m (Pos.to_nat p).
Proof. apply Pos2Nat.inj_iter. Qed.

Lemma iter_pos_nat {A : Type} (f : A -> A) (p : positive) (x : A) :
  @SpecFloat.iter_pos A f p x = Nat.iter (Pos.to_nat p) f x.
Proof.
  revert x. induction p as [p IH|p IH|]; intros x; cbn [SpecFloat.iter_pos].
  - rewrite !IH, Pos2Nat.inj_xI. 
    replace (S (2 * Pos.to_nat p))%nat with (Pos.to_nat p + (Pos.to_nat p + 1))%nat by lia.
    rewrite !Nat.iter_add. reflexivity.
  - rewrite !IH, Pos2Nat.inj_xO.
    replace (2 * Pos.to_nat p)%nat with (Pos.to_nat p + Pos.to_nat p)%nat by lia.
    rewrite Nat.iter_add. reflexivity.
  - reflexivity.
Qed.

Lemma shr_exact (m : positive) (k : nat) :
  Nat.iter k shr_1 {| shr_m := Z.pos (shl m k); shr_r := false; shr_s := false |}
  = {| shr_m := Z.pos m; shr_r := false; shr_s := false |}.
Proof.
  induction k as [|k IH]; [reflexivity|].
  rewrite Nat.iter_succ_r, shl_S. cbn [shr_1 orb]. exact IH.
Qed.


Lemma shr_by (m : positive) (k : nat) (e : Z) :
  shr {| shr_m := Z.pos (shl m k); shr_r := false; shr_s := false |} e (Z.of_nat k)
  = ({| shr_m := Z.pos m; shr_r := false; shr_s := false |}, e + Z.of_nat k).
Proof.
  unfold shr. destruct k as [|k].
  - simpl. f_equal. lia.
  - destruct (Z.of_nat (S k)) as [|p|p] eqn:E; try lia.
    rewrite iter_pos_nat. f_equal.
    replace (Pos.to_nat p) with (S k) by lia. apply shr_exact.
Qed.

(** A mantissa of 53 digits followed by [j] zero bits rounds exactly. *)
Lemma binary_round_aux_exact (m0 : positive) (j : nat) (e : Z) :
  Z.pos (digits2_pos m0) = 53 -> -1074 <= e + Z.of_nat j <= 971 ->
  binary_round_aux prec emax false (Z.pos (shl m0 j)) e loc_Exact
  = S754_finite false m0 (e + Z.of_nat j).
Proof.
  intros Hd He.
  unfold binary_round_aux, shr_fexp, fexp, SpecFloat.emin, Zdigits2, shr_record_of_loc.
  rewrite digits_shl, Hd.
  change prec with 53. change emax with 1024.
  replace (IntDef.Z.max (53 + Z.of_nat j + e - 53) (3 - 1024 - 53) - e)
    with (Z.of_nat j) by (change IntDef.Z.max with Z.max; lia).
  rewrite shr_by. cbn [shr_m loc_of_shr_record round_nearest_even].
  rewrite Hd.
  replace (IntDef.Z.max (53 + (e + Z.of_nat j) - 53) (3 - 1024 - 53) - (e + Z.of_nat j))
    with 0 by (change IntDef.Z.max with Z.max; lia).
  cbn [shr shr_m].
  destruct (Z.leb_spec (e + Z.of_nat j) (1024 - 53)); [reflexivity|lia].
Qed.

(** Rounding a positive integer mantissa of at most 53 digits times a power
    of two: the mantissa is normalised to 53 digits. *)
Lemma binary_round_shl (m : positive) (k : nat) (e : Z) :
  let d := Z.pos (digits2_pos m) in
  d <= 53 -> -1074 <= e + Z.of_nat k + d - 53 <= 971 ->
  binary_round prec emax false (shl m k) e
  = S754_finite false (shl m (Z.to_nat (53 - d))) (e + Z.of_nat k + d - 53).
Proof.
  intros d Hd He. unfold binary_round, shl_align, fexp, SpecFloat.emin.
  rewrite digits_shl. fold d.
  change prec with 53. change emax with 1024.
  replace (IntDef.Z.max (d + Z.of_nat k + e - 53) (3 - 1024 - 53) - e)
    with (d + Z.of_nat k - 53) by (change IntDef.Z.max with Z.max; lia).
  replace (IntDef.Z.max (d + Z.of_nat k + e - 53) (3 - 1024 - 53))
    with (e + Z.of_nat k + d - 53) by (change IntDef.Z.max with Z.max; lia).
  destruct (d + Z.of_nat k - 53) as [|p|p] eqn:E.
  - (* exactly 53 digits *)
    transitivity (S754_finite false (shl m k) (e + Z.of_nat 0)).
    + apply (binary_round_aux_exact (shl m k) 0 e); [|lia].
      rewrite digits_shl. fold d. lia.
    + f_equal; [f_equal; lia|lia].
  - (* more than 53 digits: the low bits are zero *)
    set (a := Z.to_nat (53 - d)). set (b := (k - a)%nat).
    replace k with (a + b)%nat at 1 by lia. rewrite <- shl_add.
    rewrite binary_round_aux_exact.
    + f_equal. lia.
    + rewrite digits_shl. fold d. lia.
    + lia.
  - (* fewer than 53 digits: shift left *)
    rewrite pos_iter_shl, shl_add.
    transitivity (S754_finite false (shl m (k + Pos.to_nat p))
                    (e + Z.of_nat k + d - 53 + Z.of_nat 0)).
    + apply (binary_round_aux_exact (shl m (k + Pos.to_nat p)) 0); [|lia].
      rewrite digits_shl. fold d. lia.
    + f_equal; [|lia]. unfold shl. 
      replace (Z.to_nat (53 - d)) with (k + Pos.to_nat p)%nat by lia. reflexivity.
Qed.

Lemma digits2_pos_bounds (m : positive) :
  2 ^ (Z.pos (digits2_pos m) - 1) <= Z.pos m < 2 ^ Z.pos (digits2_pos m).
Proof.
  induction m as [m IH|m IH|]; cbn [digits2_pos].
  - rewrite Pos2Z.inj_succ.
    replace (Z.succ (Z.pos (digits2_pos m)) - 1)
      with (Z.succ (Z.pos (digits2_pos m) - 1)) by lia.
    rewrite !Z.pow_succ_r by lia. lia.
  - rewrite Pos2Z.inj_succ.
    replace (Z.succ (Z.pos (digits2_pos m)) - 1)
      with (Z.succ (Z.pos (digits2_pos m) - 1)) by lia.
    rewrite !Z.pow_succ_r by lia. lia.
  - simpl. lia.
Qed.

Lemma digits2_pos_le_53 (m : positive) :
  Z.pos m < 2 ^ 53 -> Z.pos (digits2_pos m) <= 53.
Proof.
  intros Hm. destruct (Z_le_gt_dec (Z.pos (digits2_pos m)) 53) as [H|H]; [exact H|].
  exfalso. pose proof (digits2_pos_bounds m) as [Hlo _].
  assert (2 ^ 53 <= 2 ^ (Z.pos (digits2_pos m) - 1))
    by (apply Z.pow_le_mono_r; lia).
  lia.
Qed.

(** The double of a positive integer below 2^53: its digits, shifted to 53
    places. *)
Lemma Prim2SF_of_Z_pos (m : positive) :
  let d := Z.pos (digits2_pos m) in
  Z.pos m < 2 ^ 53 ->
  Prim2SF (Num.of_Z (Z.pos m))
  = S754_finite false (shl m (Z.to_nat (53 - d))) (d - 53).
Proof.
  intros d Hm. pose proof (digits2_pos_le_53 m Hm) as Hd. fold d in Hd.
  unfold Num.of_Z, binary_normalize.
  change m with (shl m 0) at 1.
  rewrite binary_round_shl by (fold d; lia). fold d.
  replace (0 + Z.of_nat 0 + d - 53) with (d - 53) by lia.
  apply Prim2SF_SF2Prim.
  unfold valid_binary, bounded, canonical_mantissa, fexp, SpecFloat.emin.
  rewrite digits_shl. fold d.
  change prec with 53. change emax with 1024.
  change IntDef.Z.max with Z.max.
  apply andb_true_iff. split; [apply Z.eqb_eq|apply Z.leb_le]; lia.
Qed.

Lemma of_Z_succ (z : Z) :
  0 <= z -> z + 1 <= 2 ^ 53 -> (Num.of_Z z + 1)%float = Num.of_Z (z + 1).
Proof.
  intros H1 H2.
  destruct (Z.eq_dec (z + 1) (2 ^ 53)) as [Heq|Hne].
  { replace z with (2 ^ 53 - 1) by lia. reflexivity. }
  destruct z as [|m|m]; [reflexivity| |lia].
  replace (Z.pos m + 1) with (Z.pos (m + 1)) by lia.
  apply Prim2SF_inj.
  rewrite add_spec, !Prim2SF_of_Z_pos by lia.
  set (d := Z.pos (digits2_pos m)). set (d' := Z.pos (digits2_pos (m + 1))).
  assert (Hd : 1 <= d <= 53).
  { split; [unfold d; lia|apply digits2_pos_le_53; lia]. }
  assert (Hd' : 1 <= d' <= 53).
  { split; [unfold d'; lia|apply digits2_pos_le_53; lia]. }
  change (Prim2SF 1) with (S754_finite false 4503599627370496 (-52)).
  unfold SF64add, SFadd.
  replace (IntDef.Z.min (d - 53) (-52)) with (-52)
    by (change IntDef.Z.min with Z.min; lia).
  assert (Hx : fst (shl_align (shl m (Z.to_nat (53 - d))) (d - 53) (-52)) = shl m 52).
  { unfold shl_align. destruct (-52 - (d - 53)) as [|p|p] eqn:E; try lia; cbn [fst].
    - f_equal. lia.
    - rewrite pos_iter_shl, shl_add. f_equal. lia. }
  rewrite Hx. cbn [cond_Zopp].
  change (fst (shl_align 4503599627370496 (-52) (-52))) with 4503599627370496%positive.
  replace (Z.pos (shl m 52) + 4503599627370496) with (Z.pos (shl (m + 1) 52)).
  - unfold binary_normalize. rewrite binary_round_shl by (fold d'; lia).
    fold d'. f_equal; lia.
  - rewrite !Zpos_shl. change (2 ^ Z.of_nat 52) with 4503599627370496. lia.
Qed.

(** In the integers from 0 to 2^53, [seed++] adds one exactly. *)
Lemma increments_exact (k : nat) (z : Z) :
  0 <= z -> z + Z.of_nat k <= 2 ^ 53 ->
  increments k (Num.of_Z z) = Num.of_Z (z + Z.of_nat k).
Proof.
  revert z. induction k as [|k IH]; intros z H1 H2.
  - simpl. f_equal. lia.
  - unfold increments in *. rewrite Nat.iter_succ_r, of_Z_succ, IH by lia.
    f_equal. lia.
Qed.

(** ** Rounding a product *)

Lemma shr_1_spec (mrs : shr_record) :
  0 <= shr_m mrs ->
  shr_m (shr_1 mrs) = shr_m mrs / 2
  /\ shr_r (shr_1 mrs) = Z.odd (shr_m mrs).
Proof.
  destruct mrs as [m r s]. cbn [shr_m]. intros Hm.
  destruct m as [|[p|p|]|p]; cbn [shr_1 shr_m shr_r]; try lia.
  - split; [reflexivity|reflexivity].
  - split; [|reflexivity]. rewrite Pos2Z.inj_xI.
    rewrite Z.add_comm, Z.mul_comm, Z.div_add by lia. reflexivity.
  - split; [|reflexivity]. rewrite Pos2Z.inj_xO.
    rewrite Z.mul_comm, Z.div_mul by lia. reflexivity.
  - split; reflexivity.
Qed.

(** [k] steps of [shr_1] divide by [2^k]; the round bit is the last bit
    shifted out. *)
Lemma shr_iter_spec (P : Z) (k : nat) :
  0 <= P ->
  let mrs := Nat.iter (S k) shr_1 {| shr_m := P; shr_r := false; shr_s := false |} in
  shr_m mrs = P / 2 ^ Z.of_nat (S k)
  /\ shr_r mrs = Z.odd (P / 2 ^ Z.of_nat k).
Proof.
  intros HP. cbv zeta.
  assert (Hm : forall j, shr_m (Nat.iter j shr_1
                 {| shr_m := P; shr_r := false; shr_s := false |}) = P / 2 ^ Z.of_nat j).
  { induction j as [|j IH].
    - simpl. rewrite Z.div_1_r. reflexivity.
    - rewrite Nat.iter_succ.
      destruct (shr_1_spec (Nat.iter j shr_1
                  {| shr_m := P; shr_r := false; shr_s := false |})) as [H1 _].
      { rewrite IH. apply Z.div_pos; lia. }
      rewrite H1, IH, Nat2Z.inj_succ, Z.pow_succ_r by lia.
      rewrite Z.div_div by lia. f_equal. lia. }
  split; [apply Hm|].
  rewrite Nat.iter_succ.
  destruct (shr_1_spec (Nat.iter k shr_1
              {| shr_m := P; shr_r := false; shr_s := false |})) as [_ H2].
  { rewrite Hm. apply Z.div_pos; lia. }
  rewrite H2, Hm. reflexivity.
Qed.

(** When the last bit shifted out is set, the remainder is at least half. *)
Lemma odd_quotient_remainder (P : Z) (k : nat) :
  0 <= P -> Z.odd (P / 2 ^ Z.of_nat k) = true ->
  2 ^ Z.of_nat k <= P mod 2 ^ Z.of_nat (S k).
Proof.
  intros HP Hodd.
  set (a := P / 2 ^ Z.of_nat k) in *.
  assert (Hpow : 0 < 2 ^ Z.of_nat k) by (apply Z.pow_pos_nonneg; lia).
  pose proof (Z.div_mod P (2 ^ Z.of_nat k) ltac:(lia)) as Hdm. fold a in Hdm.
  pose proof (Z.mod_pos_bound P (2 ^ Z.of_nat k) Hpow) as Hb.
  apply Z.odd_spec in Hodd. destruct Hodd as [c Hc].
  rewrite Nat2Z.inj_succ, Z.pow_succ_r by lia.
  assert (HP' : P = c * (2 * 2 ^ Z.of_nat k) + (2 ^ Z.of_nat k + P mod 2 ^ Z.of_nat k)) by nia.
  rewrite HP' at 1.
  rewrite Z.add_comm, Z.mod_add by lia.
  rewrite Z.mod_small by lia. lia.
Qed.

Lemma round_nearest_even_bound (mrs : shr_record) :
  let M := round_nearest_even (shr_m mrs) (loc_of_shr_record mrs) in
  shr_m mrs <= M <= shr_m mrs + 1 /\ (M = shr_m mrs \/ shr_r mrs = true).
Proof.
  destruct mrs as [m [|] [|]]; cbn [shr_m shr_r loc_of_shr_record round_nearest_even];
    try destruct (Z.even m); split; auto; lia.
Qed.

Lemma shr_fexp_small (M : positive) (e : Z) :
  Z.pos (digits2_pos M) <= 53 -> -1074 <= e ->
  shr_fexp prec emax (Z.pos M) e loc_Exact
  = ({| shr_m := Z.pos M; shr_r := false; shr_s := false |}, e).
Proof.
  intros Hd He.
  unfold shr_fexp, fexp, SpecFloat.emin, Zdigits2, shr_record_of_loc, shr.
  change prec with 53. change emax with 1024. change IntDef.Z.max with Z.max.
  destruct (Z.max (Z.pos (digits2_pos M) + e - 53) (3 - 1024 - 53) - e) eqn:E;
    try reflexivity.
  lia.
Qed.

Lemma shr_fexp_two53 (e : Z) :
  -1074 <= e ->
  shr_fexp prec emax (2 ^ 53) e loc_Exact
  = ({| shr_m := 2 ^ 52; shr_r := false; shr_s := false |}, e + 1).
Proof.
  intros He.
  unfold shr_fexp, fexp, SpecFloat.emin, shr_record_of_loc, shr.
  change (Zdigits2 (2 ^ 53)) with 54.
  change prec with 53. change emax with 1024. change IntDef.Z.max with Z.max.
  replace (Z.max (54 + e - 53) (3 - 1024 - 53) - e) with 1 by lia.
  reflexivity.
Qed.

(** Rounding a positive mantissa [P] at exponent [E], away from overflow:
    the result is [+0] or a positive double [M * 2^e'] which, unless it is
    subnormal, exceeds [P * 2^E] by at most a factor [1 + 2^-53]. *)
Lemma binary_round_aux_bound (P : positive) (E : Z) :
  E <= 0 -> Z.pos (digits2_pos P) + E <= 60 ->
  match binary_round_aux prec emax false (Z.pos P) E loc_Exact with
  | S754_zero false => True
  | S754_finite false M e' =>
      E <= e'
      /\ (2 ^ 53 * (Z.pos M * 2 ^ (e' - E)) <= Z.pos P * (2 ^ 53 + 1)
          \/ e' = -1074)
  | _ => False
  end.
Proof.
  intros HE Hd.
  pose proof (digits2_pos_bounds P) as [HPlo HPhi].
  set (d := Z.pos (digits2_pos P)) in *.
  unfold binary_round_aux.
  unfold shr_fexp at 1.
  unfold fexp, SpecFloat.emin, Zdigits2, shr_record_of_loc, shr.
  fold d.
  change prec with 53. change emax with 1024. change IntDef.Z.max with Z.max.
  destruct (Z.max (d + E - 53) (3 - 1024 - 53) - E) as [|p|p] eqn:Hk.
  - (* no shift *)
    cbn [shr_m loc_of_shr_record round_nearest_even].
    rewrite shr_fexp_small by (fold d; lia). cbn [shr_m].
    destruct (E <=? 1024 - 53) eqn:Hle; [|lia].
    split; [lia|]. left. rewrite Z.sub_diag. lia.
  - (* a shift to the right by [p] bits *)
    rewrite iter_pos_nat.
    destruct (Pos.to_nat p) as [|k] eqn:Hp; [lia|].
    destruct (shr_iter_spec (Z.pos P) k ltac:(lia)) as [Hm Hr].
    set (mrs := Nat.iter (S k) shr_1 _) in *.
    destruct (round_nearest_even_bound mrs) as [HM Hup].
    set (M1 := round_nearest_even (shr_m mrs) (loc_of_shr_record mrs)) in *.
    assert (Hpk : Z.of_nat (S k) = Z.pos p) by lia.
    assert (Hpow : 0 < 2 ^ Z.of_nat (S k)) by (apply Z.pow_pos_nonneg; lia).
    assert (Hpow' : 0 < 2 ^ Z.of_nat k) by (apply Z.pow_pos_nonneg; lia).
    assert (Hpow2 : 2 ^ Z.of_nat (S k) = 2 * 2 ^ Z.of_nat k)
      by (rewrite Nat2Z.inj_succ, Z.pow_succ_r by lia; reflexivity).
    pose proof (Z.div_mod (Z.pos P) (2 ^ Z.of_nat (S k)) ltac:(lia)) as Hdm.
    pose proof (Z.mod_pos_bound (Z.pos P) (2 ^ Z.of_nat (S k)) Hpow) as Hmod.
    rewrite <- Hm in Hdm.
    (* the rounded mantissa times 2^k is at most P plus half a unit *)
    assert (Hval : M1 * 2 ^ Z.of_nat (S k) <= Z.pos P + 2 ^ Z.of_nat k).
    { destruct Hup as [-> | Hup]; [nia|].
      rewrite Hr in Hup.
      pose proof (odd_quotient_remainder (Z.pos P) k ltac:(lia) Hup). nia. }
    (* the quotient has at most 53 - (k - (d - 53)) digits *)
    assert (HQ0 : 0 <= shr_m mrs) by (rewrite Hm; apply Z.div_pos; lia).
    assert (HQ : shr_m mrs < 2 ^ (d - Z.of_nat (S k)) /\ Z.of_nat (S k) <= d
                 \/ shr_m mrs = 0).
    { destruct (Z_lt_le_dec d (Z.of_nat (S k))) as [Hlt|Hge].
      - right. rewrite Hm. apply Z.div_small. split; [lia|].
        eapply Z.lt_le_trans; [exact HPhi|]. apply Z.pow_le_mono_r; lia.
      - left. split; [|exact Hge].
        rewrite Hm. apply Z.div_lt_upper_bound; [lia|].
        rewrite <- Z.pow_add_r by lia.
        replace (Z.of_nat (S k) + (d - Z.of_nat (S k))) with d by lia. exact HPhi. }
    assert (HM53 : M1 <= 2 ^ 53).
    { destruct HQ as [[HQ _]|HQ]; [|lia].
      assert (2 ^ (d - Z.of_nat (S k)) <= 2 ^ 53) by (apply Z.pow_le_mono_r; lia).
      lia. }
    set (e1 := E + Z.pos p).
    assert (He1 : -1074 <= e1 <= 7) by (unfold e1; lia).
    destruct M1 as [|M|M] eqn:HM1; [| |lia].
    + (* everything was shifted out *)
      unfold shr_fexp, fexp, SpecFloat.emin, shr_record_of_loc, shr.
      change (Zdigits2 0) with 0.
      change prec with 53. change emax with 1024. change IntDef.Z.max with Z.max.
      destruct (Z.max (0 + e1 - 53) (3 - 1024 - 53) - e1) eqn:E2; try exact I.
      lia.
    + destruct (Z.eq_dec (Z.pos M) (2 ^ 53)) as [Heq|Hne].
      * (* the rounding carried into a 54th digit *)
        rewrite Heq, shr_fexp_two53 by lia. cbn [shr_m].
        change (2 ^ 52) with (Z.pos (shl 1 52)). cbv iota.
        destruct (e1 + 1 <=? 1024 - 53) eqn:Hle; [|lia].
        split; [unfold e1; lia|]. left.
        change (Z.pos (shl 1 52)) with (2 ^ 52).
        replace (e1 + 1 - E) with (Z.succ (Z.of_nat (S k))) by (unfold e1; lia).
        rewrite Z.pow_succ_r by lia.
        assert (Hnormal : Z.of_nat (S k) = d - 53).
        { destruct HQ as [[HQ HQd]|HQ]; [|lia].
          destruct (Z_lt_le_dec (d - Z.of_nat (S k)) 53) as [Hlt|Hge]; [|lia].
          assert (2 ^ (d - Z.of_nat (S k)) <= 2 ^ 52) by (apply Z.pow_le_mono_r; lia).
          lia. }
        assert (Hhalf : 2 ^ 53 * 2 ^ Z.of_nat k = 2 ^ (d - 1)).
        { rewrite <- Z.pow_add_r by lia. f_equal. lia. }
        rewrite Heq in Hval. nia.
      * rewrite shr_fexp_small; [|apply digits2_pos_le_53; lia|lia].
        cbn [shr_m].
        destruct (e1 <=? 1024 - 53) eqn:Hle; [|lia].
        split; [unfold e1; lia|].
        destruct (Z.eq_dec (Z.of_nat (S k)) (d - 53)) as [Hnormal|Hsub].
        -- left. replace (e1 - E) with (Z.of_nat (S k)) by (unfold e1; lia).
           assert (Hhalf : 2 ^ 53 * 2 ^ Z.of_nat k = 2 ^ (d - 1)).
           { rewrite <- Z.pow_add_r by lia. f_equal. lia. }
           nia.
        -- right. unfold e1. lia.
  - cbn [shr_m loc_of_shr_record round_nearest_even].
    rewrite shr_fexp_small by (fold d; lia). cbn [shr_m].
    destruct (E <=? 1024 - 53) eqn:Hle; [|lia].
    split; [lia|]. left. rewrite Z.sub_diag. lia.
Qed.

(** ** Doubles that denote integers *)

Lemma Leibniz_eqb_refl (x : float) : PrimFloat.Leibniz.eqb x x = true.
Proof. apply FloatAxioms.Leibniz.eqb_spec. reflexivity. Qed.

Lemma valid_finite (s : bool) (m : positive) (e : Z) :
  valid_binary (S754_finite s m e) = true ->
  Z.max (Z.pos (digits2_pos m) + e - 53) (-1074) = e /\ e <= 971.
Proof.
  unfold SpecFloat.valid_binary, bounded, canonical_mantissa, fexp, SpecFloat.emin.
  change prec with 53. change emax with 1024. change IntDef.Z.max with Z.max.
  intros H. apply andb_true_iff in H as [H1 H2]. lia.
Qed.

(** The double of an integer in [0, 2^53) denotes that integer. *)
Lemma to_Z_of_Z (q : Z) : 0 <= q < 2 ^ 53 -> Num.to_Z (Num.of_Z q) = Some q.
Proof.
  intros Hq. destruct q as [|m|m]; [reflexivity| |lia].
  unfold Num.to_Z. rewrite Prim2SF_of_Z_pos by lia. cbv zeta.
  pose proof (digits2_pos_le_53 m ltac:(lia)) as Hd.
  set (d := Z.pos (digits2_pos m)) in *.
  assert (Hz : (if 0 <=? d - 53
                then Z.shiftl (Z.pos (shl m (Z.to_nat (53 - d)))) (d - 53)
                else Num.floor_mantissa false (shl m (Z.to_nat (53 - d))) (d - 53))
               = Z.pos m).
  { destruct (0 <=? d - 53) eqn:E.
    - replace (d - 53) with 0 by lia. replace (53 - d) with 0 by lia. reflexivity.
    - unfold Num.floor_mantissa. rewrite Zpos_shl, Z.shiftr_div_pow2 by lia.
      replace (Z.of_nat (Z.to_nat (53 - d))) with (- (d - 53)) by lia.
      apply Z.div_mul. apply Z.pow_nonzero; lia. }
  rewrite Hz, Leibniz_eqb_refl. reflexivity.
Qed.

(** A positive double with a non-negative exponent denotes the integer
    [m * 2^e]. *)
Lemma to_Z_integer (x : float) (m : positive) (e : Z) :
  Prim2SF x = S754_finite false m e -> 0 <= e ->
  Num.to_Z x = Some (Z.pos m * 2 ^ e).
Proof.
  intros Hx He. pose proof (Prim2SF_valid x) as Hv. rewrite Hx in Hv.
  apply valid_finite in Hv as [Hc Hmax].
  unfold Num.to_Z. rewrite Hx.
  destruct (0 <=? e) eqn:E; [|lia].
  rewrite Z.shiftl_mul_pow2 by lia.
  replace (PrimFloat.Leibniz.eqb x (Num.of_Z (Z.pos m * 2 ^ e))) with true;
    [reflexivity|].
  symmetry. apply FloatAxioms.Leibniz.eqb_spec.
  apply Prim2SF_inj. rewrite Hx.
  unfold Num.of_Z.
  replace (Z.pos m * 2 ^ e) with (Z.pos (shl m (Z.to_nat e)))
    by (rewrite Zpos_shl; f_equal; f_equal; lia).
  unfold binary_normalize.
  rewrite binary_round_shl by lia.
  rewrite Prim2SF_SF2Prim.
  - f_equal; [|lia].
    replace (53 - Z.pos (digits2_pos m)) with 0 by lia. reflexivity.
  - replace (53 - Z.pos (digits2_pos m)) with 0 by lia.
    replace (0 + Z.of_nat (Z.to_nat e) + Z.pos (digits2_pos m) - 53) with e by lia.
    change (shl m (Z.to_nat 0)) with m.
    rewrite <- Hx. apply Prim2SF_valid.
Qed.

(** ** Pixel indices from generator outputs in [0, 1) *)

Lemma Prim2SF_one : Prim2SF 1 = S754_finite false 4503599627370496%positive (-52).
Proof. vm_compute. reflexivity. Qed.

Lemma Prim2SF_zero : Prim2SF 0 = S754_zero false.
Proof. vm_compute. reflexivity. Qed.

(** A double in [0, 1) is a zero or a positive double with an exponent of
    at most -53. *)
Lemma inUnit_cases (r : float) :
  inUnit r = true ->
  (exists s, Prim2SF r = S754_zero s)
  \/ (exists m e, Prim2SF r = S754_finite false m e
                  /\ e <= -53 /\ Z.pos m < 2 ^ 53).
Proof.
  unfold inUnit. intros H. apply andb_true_iff in H as [H0 H1].
  rewrite FloatAxioms.leb_spec, Prim2SF_zero in H0.
  rewrite FloatAxioms.ltb_spec, Prim2SF_one in H1.
  pose proof (Prim2SF_valid r) as Hv.
  destruct (Prim2SF r) as [s|s| |s m e].
  - left. exists s. reflexivity.
  - destruct s; cbv [SFleb SFltb SFcompare] in H0, H1; congruence.
  - cbv [SFleb SFcompare] in H0. congruence.
  - right. destruct s; [cbv [SFleb SFcompare] in H0; congruence|].
    exists m, e. split; [reflexivity|].
    apply valid_finite in Hv as [Hc _].
    pose proof (digits2_pos_bounds m) as [Hlo Hhi].
    assert (Hd : Z.pos (digits2_pos m) <= 53) by lia.
    assert (Hm : Z.pos m < 2 ^ 53).
    { eapply Z.lt_le_trans; [exact Hhi|]. apply Z.pow_le_mono_r; lia. }
    split; [|exact Hm].
    cbv [SFltb SFcompare] in H1.
    destruct (Z.compare_spec e (-52)) as [Heq|Hlt|Hgt]; [|lia|congruence].
    exfalso.
    assert (Hcmp : (m ?= 4503599627370496%positive)%positive = Lt).
    { unfold Pos.compare.
      destruct (PosDef.Pos.compare_cont Eq m 4503599627370496%positive); congruence. }
    apply (proj1 (Pos.compare_lt_iff _ _)), Pos2Z.pos_lt_pos in Hcmp.
    assert (Hd53 : Z.pos (digits2_pos m) = 53) by lia.
    rewrite Hd53 in Hlo. change (53 - 1) with 52 in Hlo. lia.
Qed.

(** [Math.floor (r * totalPixels)] is a pixel index whenever [r] is in
    [0, 1): the rounding of the product cannot reach [totalPixels]. *)
Lemma floor_scaled_isPixel (r : float) (N : Z) :
  inUnit r = true -> 1 <= N < 2 ^ 53 ->
  isPixel N (Num.Math_floor (r * Num.of_Z N)%float).
Proof.
  intros Hr HN. destruct N as [|n|n]; [lia| |lia].
  pose proof (Prim2SF_of_Z_pos n ltac:(lia)) as HPN. cbv zeta in HPN.
  pose proof (digits2_pos_le_53 n ltac:(lia)) as Hdn.
  set (dn := Z.pos (digits2_pos n)) in *.
  set (x := (r * Num.of_Z (Z.pos n))%float).
  assert (Hx : Prim2SF x = SFmul prec emax (Prim2SF r) (Prim2SF (Num.of_Z (Z.pos n))))
    by (unfold x; apply mul_spec).
  rewrite HPN in Hx.
  assert (Hzero : forall s, Prim2SF x = S754_zero s -> isPixel (Z.pos n) (Num.Math_floor x)).
  { intros s Hs. exists 0. split; [|lia].
    unfold Num.Math_floor. rewrite Hs. unfold Num.to_Z. rewrite Hs. reflexivity. }
  destruct (inUnit_cases r Hr) as [[s Hs]|(m & e & Hs & He & Hm)]; rewrite Hs in Hx.
  { cbn [SFmul] in Hx. eapply Hzero. exact Hx. }
  cbn [SFmul xorb] in Hx.
  set (k := Z.to_nat (53 - dn)) in *.
  set (E := e + (dn - 53)) in *.
  set (P := (m * shl n k)%positive) in *.
  assert (HB : 0 < 2 ^ Z.of_nat k) by (apply Z.pow_pos_nonneg; lia).
  assert (HP : Z.pos P = Z.pos m * (Z.pos n * 2 ^ Z.of_nat k))
    by (unfold P; rewrite Pos2Z.inj_mul, Zpos_shl; reflexivity).
  assert (HdP : Z.pos (digits2_pos P) <= 106).
  { destruct (Z_le_gt_dec (Z.pos (digits2_pos P)) 106) as [H|H]; [exact H|].
    exfalso. pose proof (digits2_pos_bounds P) as [Hlo _].
    assert (2 ^ 106 <= 2 ^ (Z.pos (digits2_pos P) - 1)) by (apply Z.pow_le_mono_r; lia).
    pose proof (digits2_pos_bounds n) as [_ Hnhi]. fold dn in Hnhi.
    assert (Z.pos n * 2 ^ Z.of_nat k < 2 ^ 53).
    { assert (Hpow : 2 ^ 53 = 2 ^ dn * 2 ^ Z.of_nat k)
        by (rewrite <- Z.pow_add_r by lia; f_equal; lia).
      rewrite Hpow. apply Z.mul_lt_mono_pos_r; assumption. }
    nia. }
  pose proof (binary_round_aux_bound P E ltac:(lia) ltac:(lia)) as Hb.
  rewrite <- Hx in Hb.
  destruct (Prim2SF x) as [s|s| |s M e'] eqn:HPx; try contradiction.
  { eapply Hzero. reflexivity. }
  destruct s; [contradiction|]. destruct Hb as [HEe Hb].
  pose proof (Prim2SF_valid x) as Hv. rewrite HPx in Hv.
  apply valid_finite in Hv as [Hc Hmax].
  pose proof (digits2_pos_bounds M) as [HMlo HMhi].
  assert (HdM : Z.pos (digits2_pos M) <= 53) by lia.
  assert (HM : Z.pos M < 2 ^ 53).
  { eapply Z.lt_le_trans; [exact HMhi|]. apply Z.pow_le_mono_r; lia. }
  destruct (Z_lt_le_dec e' 0) as [Hneg|Hpos].
  - (* the product has a fractional part *)
    set (q := Z.pos M / 2 ^ (- e')).
    assert (HD : 0 < 2 ^ (- e')) by (apply Z.pow_pos_nonneg; lia).
    assert (Hq : 0 <= q < Z.pos n).
    { split; [apply Z.div_pos; lia|].
      apply Z.div_lt_upper_bound; [exact HD|].
      destruct Hb as [Hb| ->].
      - assert (HA : 0 < 2 ^ (e' - E)) by (apply Z.pow_pos_nonneg; lia).
        assert (HC : 2 ^ 53 <= 2 ^ (- e)) by (apply Z.pow_le_mono_r; lia).
        assert (Hsplit : 2 ^ (e' - E) * 2 ^ (- e') = 2 ^ (- e) * 2 ^ Z.of_nat k).
        { rewrite <- !Z.pow_add_r by lia. f_equal. unfold E, k. lia. }
        rewrite HP in Hb.
        set (A := 2 ^ (e' - E)) in *. set (D := 2 ^ (- e')) in *.
        set (C := 2 ^ (- e)) in *. set (W := Z.pos n * 2 ^ Z.of_nat k) in *.
        assert (HW : 0 < W) by (unfold W; nia).
        assert (H1 : Z.pos m * W <= (2 ^ 53 - 1) * W) by nia.
        assert (H2 : 2 ^ 53 * W <= C * W) by nia.
        assert (H3 : Z.pos M * A < C * W) by lia.
        assert (H4 : C * W = A * (D * Z.pos n)) by (unfold W; nia).
        apply (Z.mul_lt_mono_pos_r A); [exact HA|]. lia.
      - assert (2 ^ 53 <= 2 ^ (- -1074)) by (apply Z.pow_le_mono_r; lia). nia. }
    exists q. split; [|exact Hq].
    unfold Num.Math_floor. rewrite HPx.
    destruct (0 <=? e') eqn:E0; [lia|].
    unfold Num.floor_mantissa. rewrite Z.shiftr_div_pow2 by lia. fold q.
    apply to_Z_of_Z. lia.
  - (* the product is an integer *)
    exists (Z.pos M * 2 ^ e').
    assert (Hfl : Num.Math_floor x = x).
    { unfold Num.Math_floor. rewrite HPx. destruct (0 <=? e') eqn:E0; [reflexivity|lia]. }
    rewrite Hfl. split; [apply (to_Z_integer x M e' HPx Hpos)|].
    assert (HD : 0 < 2 ^ e') by (apply Z.pow_pos_nonneg; lia).
    split; [nia|].
    destruct Hb as [Hb|Hb]; [|lia].
    assert (HC : 2 ^ 53 <= 2 ^ (- e)) by (apply Z.pow_le_mono_r; lia).
    assert (Hsplit : 2 ^ (e' - E) = 2 ^ e' * (2 ^ (- e) * 2 ^ Z.of_nat k)).
    { rewrite <- !Z.pow_add_r by lia. f_equal. unfold E, k. lia. }
    rewrite HP, Hsplit in Hb.
    set (D := 2 ^ e') in *.
    set (C := 2 ^ (- e)) in *. set (W := Z.pos n * 2 ^ Z.of_nat k) in *.
    assert (HW : 0 < W) by (unfold W; nia).
    assert (H1 : Z.pos m * W <= (2 ^ 53 - 1) * W) by nia.
    assert (H2 : 2 ^ 53 * W <= C * W) by nia.
    assert (H3 : Z.pos M * (D * (C * 2 ^ Z.of_nat k)) < C * W) by lia.
    assert (H4 : C * W = Z.pos n * (C * 2 ^ Z.of_nat k)) by (unfold W; nia).
    assert (H5 : 0 < C * 2 ^ Z.of_nat k) by nia.
    apply (Z.mul_lt_mono_pos_r (C * 2 ^ Z.of_nat k)); [exact H5|]. lia.
Qed.

(** ** Where the drawn pixels come from *)

Lemma increments_add (a b : nat) (c : float) :
  increments a (increments b c) = increments (a + b) c.
Proof. unfold increments. symmetry. apply Nat.iter_add. Qed.

Lemma random_eq (Math_sin : float -> float) (g : SeededRandom) :
  random Math_sin g
  = (scaledFraction Math_sin (counter g), {| counter := (counter g + 1)%float |}).
Proof. reflexivity. Qed.

(** A draw that finishes returns the pixel of one of the next [fuel]
    generator outputs. *)
Lemma drawPixel_source (Math_sin : float -> float) (fuel : nat) (total : float)
    (modifiedPixels : list float) :
  forall (g g' : SeededRandom) (p : float),
    drawPixel Math_sin fuel g total modifiedPixels = Some (p, g') ->
    exists j, (j < fuel)%nat
      /\ p = Num.Math_floor
               (scaledFraction Math_sin (increments j (counter g)) * total)%float
      /\ counter g' = increments (S j) (counter g).
Proof.
  induction fuel as [|fuel IH]; intros g g' p H; [discriminate|].
  cbn [drawPixel] in H. rewrite random_eq in H.
  set (p0 := Num.Math_floor _) in H.
  destruct (Num.has modifiedPixels p0) eqn:E.
  - apply IH in H as (j & Hj & Hp & Hc). exists (S j). split; [lia|].
    cbn [counter] in Hp, Hc.
    rewrite (increments_succ j), (increments_succ (S j)). split; assumption.
  - injection H as <- <-. exists 0%nat. split; [lia|]. split; reflexivity.
Qed.

Lemma selectSlots_source (Math_sin : float -> float) (fuel : nat) (total : float) :
  forall (k : nat) (g : SeededRandom) (modifiedPixels slots : list float),
    selectSlots Math_sin fuel k g total modifiedPixels = Some slots ->
    Forall (fun p => exists j, (j < fuel * k)%nat
              /\ p = Num.Math_floor
                       (scaledFraction Math_sin (increments j (counter g)) * total)%float)
           slots.
Proof.
  induction k as [|k IH]; intros g mp slots H.
  - injection H as <-. constructor.
  - cbn [selectSlots] in H.
    destruct (drawPixel Math_sin fuel g total mp) as [[p g']|] eqn:Hd; [|discriminate].
    destruct (selectSlots Math_sin fuel k g' total (mp ++ [p])) as [slots'|] eqn:Hs;
      [|discriminate].
    injection H as <-.
    apply drawPixel_source in Hd as (j & Hj & Hp & Hc).
    constructor.
    + exists j. split; [nia|exact Hp].
    + apply IH in Hs. eapply Forall_impl; [exact Hs|].
      intros q (i & Hi & Hq). exists (i + S j)%nat. split; [nia|].
      rewrite Hq, Hc, increments_add. reflexivity.
Qed.

Lemma inUnitUpTo_lookup (Math_sin : float -> float) (seed : float) (n j : nat) :
  inUnitUpTo Math_sin seed n = true -> (j < n)%nat ->
  inUnit (scaledFraction Math_sin (increments j seed)) = true.
Proof.
  unfold inUnitUpTo. intros H Hj.
  rewrite forallb_forall in H. apply H. apply in_seq. lia.
Qed.

(** Pixels drawn from generator outputs in [0, 1) are pixels of the image. *)
Lemma selectSlots_pixels (Math_sin : float -> float) (fuel k : nat)
    (seed : float) (N : Z) (slots : list float) :
  1 <= N < 2 ^ 53 ->
  inUnitUpTo Math_sin seed (fuel * k) = true ->
  selectSlots Math_sin fuel k (createSeededRandom seed) (Num.of_Z N) [] = Some slots ->
  Forall (isPixel N) slots.
Proof.
  intros HN Hu Hs. apply selectSlots_source in Hs.
  eapply Forall_impl; [exact Hs|].
  intros p (j & Hj & ->). apply floor_scaled_isPixel; [|exact HN].
  apply (inUnitUpTo_lookup Math_sin seed (fuel * k)); assumption.
Qed.

(** Distinct pixels of an image of [N] pixels are at most [N]. *)
Lemma distinct_pixels_count (N : Z) (l : list float) :
  distinctNumbers l -> Forall (isPixel N) l -> Z.of_nat (length l) <= Z.max 0 N.
Proof.
  intros Hd Hp.
  pose proof (distinct_to_Z N l Hd Hp) as Hnd.
  assert (Hsub : map Num.to_Z l ⊆+ map Some (seqZ 0 N)).
  { apply NoDup_submseteq; [exact Hnd|].
    intros x Hx. apply list_elem_of_fmap in Hx as (p & -> & Hp').
    rewrite Forall_forall in Hp. destruct (Hp p Hp') as (z & Hz & Hr).
    rewrite Hz. apply list_elem_of_fmap. exists z. split; [reflexivity|].
    apply elem_of_seqZ. lia. }
  apply submseteq_length in Hsub.
  rewrite !length_map, length_seqZ in Hsub. lia.
Qed.

(** ** Extraction with a shorter message *)

(** The first draws of a selection are the selection of fewer draws. *)
Lemma selectSlots_prefix (Math_sin : float -> float) (fuel : nat) (total : float)
    (k1 k2 : nat) :
  forall (g : SeededRandom) (modifiedPixels slots : list float),
    selectSlots Math_sin fuel (k1 + k2) g total modifiedPixels = Some slots ->
    selectSlots Math_sin fuel k1 g total modifiedPixels = Some (firstn k1 slots).
Proof.
  induction k1 as [|k1 IH]; intros g mp slots H; [reflexivity|].
  cbn [Nat.add selectSlots] in H |- *.
  destruct (drawPixel Math_sin fuel g total mp) as [[p g']|]; [|discriminate].
  destruct (selectSlots Math_sin fuel (k1 + k2) g' total (mp ++ [p]))
    as [slots'|] eqn:Hs; [|discriminate].
  injection H as <-. rewrite (IH _ _ _ Hs). reflexivity.
Qed.

Lemma firstn_flat_map_byte_bits (n : nat) (T : jsstring) :
  firstn (8 * n) (flat_map byte_bits T) = flat_map byte_bits (firstn n T).
Proof.
  revert T. induction n as [|n IH]; intros T; [reflexivity|].
  destruct T as [|c T]; [reflexivity|].
  cbn [flat_map firstn].
  replace (8 * S n)%nat with (length (byte_bits c) + 8 * n)%nat
    by (rewrite length_byte_bits; lia).
  rewrite firstn_app_2, IH. reflexivity.
Qed.

(** ** Lengths of the encoding *)

Lemma length_padStart (n : nat) (c : Z) (s : jsstring) :
  length (Str.padStart n c s) = Nat.max n (length s).
Proof. unfold Str.padStart. rewrite length_app, repeat_length. lia. Qed.

Lemma length_encodeChar (c : Z) : (8 <= length (encodeChar c))%nat.
Proof. unfold encodeChar. rewrite length_padStart. lia. Qed.

Lemma length_stringToBinary_ge (T : jsstring) :
  (8 * length T <= length (stringToBinary T))%nat.
Proof.
  induction T as [|c T IH]; [simpl; lia|].
  rewrite stringToBinary_cons, length_app. cbn [length].
  pose proof (length_encodeChar c). lia.
Qed.

(** ** The decoding loop in closed form *)

Lemma substring_app_l (i : nat) (b1 b2 : jsstring) :
  (i + 8 <= length b1)%nat ->
  Str.substring i (i + 8) (b1 ++ b2) = Str.substring i (i + 8) b1.
Proof.
  intros H. unfold Str.substring.
  rewrite skipn_app. replace (i - length b1)%nat with 0%nat by lia.
  rewrite firstn_app.
  replace (i + 8 - i - length (skipn i b1))%nat with 0%nat
    by (rewrite length_skipn; lia).
  cbn [firstn]. apply app_nil_r.
Qed.

Lemma substring_app_r (j : nat) (b1 b2 : jsstring) :
  Str.substring (length b1 + j) (length b1 + j + 8) (b1 ++ b2)
  = Str.substring j (j + 8) b2.
Proof.
  unfold Str.substring.
  rewrite skipn_app, skipn_all2 by lia.
  replace (length b1 + j - length b1)%nat with j by lia.
  cbn [app]. f_equal. lia.
Qed.

(** The character decoded from the [i]-th window of eight. *)
Lemma binaryToString_loop_closed (binary : jsstring) :
  forall (steps i : nat) (result : jsstring),
    ((length binary + 7) / 8 - i <= steps)%nat ->
    binaryToString_loop steps binary result (8 * i)
    = result
      ++ map (fun i => Str.fromCharCode
                         (Str.parseInt2 (Str.substring (8 * i) (8 * i + 8) binary)))
             (seq i ((length binary + 7) / 8 - i)).
Proof.
  set (m := ((length binary + 7) / 8)%nat).
  assert (Hm : forall i, (8 * i < length binary <-> i < m)%nat).
  { intros i. unfold m. split; intros H.
    - apply Nat.div_le_lower_bound; lia.
    - destruct (Nat.lt_ge_cases (8 * i) (length binary)) as [Hlt|Hge]; [exact Hlt|].
      exfalso. assert ((length binary + 7) / 8 <= i)%nat; [|lia].
      apply Nat.lt_succ_r, Nat.Div0.div_lt_upper_bound; lia. }
  induction steps as [|steps IH]; intros i result Hs.
  - replace (m - i)%nat with 0%nat by lia. cbn. symmetry. apply app_nil_r.
  - cbn [binaryToString_loop].
    destruct (8 * i <? length binary)%nat eqn:E.
    + apply Nat.ltb_lt in E. apply (proj1 (Hm i)) in E.
      set (ch := Str.fromCharCode
                   (Str.parseInt2 (Str.substring (8 * i) (8 * i + 8) binary))).
      replace (8 * i + 8)%nat with (8 * S i)%nat by lia.
      rewrite IH by lia.
      replace (m - i)%nat with (S (m - S i)) by lia.
      cbn [seq map]. rewrite <- app_assoc. reflexivity.
    + apply Nat.ltb_ge in E.
      assert (~ (i < m)%nat) by (intros Hi; apply Hm in Hi; lia).
      replace (m - i)%nat with 0%nat by lia. cbn. symmetry. apply app_nil_r.
Qed.

Lemma binaryToString_closed (binary : jsstring) :
  binaryToString binary
  = map (fun i => Str.fromCharCode
                    (Str.parseInt2 (Str.substring (8 * i) (8 * i + 8) binary)))
        (seq 0 ((length binary + 7) / 8)).
Proof.
  unfold binaryToString.
  change (binaryToString_loop (length binary) binary [] 0)
    with (binaryToString_loop (length binary) binary [] (8 * 0)).
  rewrite (binaryToString_loop_closed binary (length binary) 0 []).
  - rewrite Nat.sub_0_r. reflexivity.
  - rewrite Nat.sub_0_r. apply Nat.lt_succ_r, Nat.Div0.div_lt_upper_bound; lia.
Qed.

Lemma binaryToString_app (b1 b2 : jsstring) (n : nat) :
  length b1 = (8 * n)%nat ->
  binaryToString (b1 ++ b2) = binaryToString b1 ++ binaryToString b2.
Proof.
  intros H1. rewrite !binaryToString_closed.
  assert (Hm1 : ((length b1 + 7) / 8 = n)%nat).
  { rewrite H1. symmetry. apply Nat.div_unique with 7%nat; lia. }
  assert (Hm : ((length (b1 ++ b2) + 7) / 8 = n + (length b2 + 7) / 8)%nat).
  { rewrite length_app, H1.
    replace (8 * n + length b2 + 7)%nat with (n * 8 + (length b2 + 7))%nat by lia.
    rewrite Nat.div_add_l by lia. reflexivity. }
  rewrite Hm, Hm1, seq_app, map_app. f_equal.
  - apply map_ext_in. intros i Hi. apply in_seq in Hi.
    rewrite substring_app_l by lia. reflexivity.
  - cbn [Nat.add].
    replace (seq n ((length b2 + 7) / 8))
      with (map (Nat.add n) (seq 0 ((length b2 + 7) / 8)))
      by (rewrite <- (Nat.add_0_r n) at 2; apply fmap_add_seq).
    rewrite map_map. apply map_ext. intros j.
    replace (8 * (n + j))%nat with (length b1 + 8 * j)%nat by lia.
    rewrite substring_app_r. reflexivity.
Qed.

(** ** Windows of eight binary digits *)

Lemma binary_window_byte (chunk : jsstring) :
  length chunk = 8%nat -> Forall (fun b => b = chr0 \/ b = chr1) chunk ->
  exists c, isByte c /\ chunk = byte_bits c.
Proof.
  intros Hl Hb. exists (Str.fromCharCode (Str.parseInt2 chunk)).
  do 9 (destruct chunk as [|? chunk]; try discriminate Hl).
  repeat match goal with
         | H : Forall _ (_ :: _) |- _ =>
             apply Forall_cons_1 in H; destruct H as [[-> | ->] H]
         end;
    (split; [vm_compute; split; intro; discriminate|vm_compute; reflexivity]).
Qed.

Lemma binaryToString_window (chunk : jsstring) :
  length chunk = 8%nat ->
  binaryToString chunk = [Str.fromCharCode (Str.parseInt2 chunk)].
Proof.
  intros Hl.
  assert (Hs : Str.substring (8 * 0) (8 * 0 + 8) chunk = chunk).
  { unfold Str.substring. cbn [Nat.mul Nat.add Nat.sub skipn].
    apply firstn_all2. lia. }
  rewrite binaryToString_closed, Hl.
  change ((8 + 7) / 8)%nat with 1%nat. cbn [seq map]. rewrite Hs. reflexivity.
Qed.

(** ** Characters of more than one byte *)

Lemma length_pos_digits2 (p : positive) (acc : jsstring) :
  length (Str.pos_digits2 p acc) = (Pos.to_nat (digits2_pos p) + length acc)%nat.
Proof.
  revert acc. induction p as [p IH|p IH|]; intros acc; cbn [Str.pos_digits2 digits2_pos].
  - rewrite IH. cbn [length]. lia.
  - rewrite IH. cbn [length]. lia.
  - cbn [length]. lia.
Qed.

Lemma length_encodeChar_wide (c : Z) :
  256 <= c -> (9 <= length (encodeChar c))%nat.
Proof.
  intros Hc. destruct c as [|p|p]; try lia.
  unfold encodeChar. rewrite length_padStart. cbn [Str.toString2].
  rewrite length_pos_digits2. cbn [length].
  pose proof (digits2_pos_bounds p) as [_ Hhi].
  assert (8 < Z.pos (digits2_pos p)); [|lia].
  destruct (Z_lt_le_dec 8 (Z.pos (digits2_pos p))) as [H|H]; [exact H|].
  exfalso. assert (2 ^ Z.pos (digits2_pos p) <= 2 ^ 8) by (apply Z.pow_le_mono_r; lia).
  lia.
Qed.

Lemma length_stringToBinary_wide (T : jsstring) :
  Forall (fun c => 0 <= c) T -> ~ Forall isByte T ->
  (8 * length T < length (stringToBinary T))%nat.
Proof.
  induction T as [|c T IH]; intros Hpos Hw.
  - exfalso. apply Hw. constructor.
  - apply Forall_cons_1 in Hpos as [Hc Hpos].
    rewrite stringToBinary_cons, length_app. cbn [length].
    pose proof (length_encodeChar c) as H8.
    pose proof (length_stringToBinary_ge T) as HT.
    destruct (Z_le_gt_dec c 255) as [Hle|Hgt].
    + assert (~ Forall isByte T).
      { intros HF. apply Hw. constructor; [unfold isByte; lia|exact HF]. }
      specialize (IH Hpos H). lia.
    + pose proof (length_encodeChar_wide c ltac:(lia)). lia.
Qed.

Lemma length_binaryToString (b : jsstring) :
  length (binaryToString b) = ((length b + 7) / 8)%nat.
Proof. rewrite binaryToString_closed, length_map, length_seq. reflexivity. Qed.

(** [parseInt] of a string that starts with no digit, sign or white
    space is NaN. *)
Lemma parseInt2_NaN (c : Z) (w : jsstring) :
  c <> chr0 -> c <> chr1 -> c <> 43 -> c <> 45 ->
  Str.isWhiteSpace c = false ->
  Str.parseInt2 (c :: w) = None.
Proof.
  intros H0 H1 Hp Hm Hw.
  assert (Hd : Str.digits2_prefix (c :: w) 0 0 = (0, 0%nat)).
  { cbn [Str.digits2_prefix].
    rewrite (proj2 (Z.eqb_neq c chr0) H0), (proj2 (Z.eqb_neq c chr1) H1).
    reflexivity. }
  unfold Str.parseInt2. cbn [Str.trimStart]. rewrite Hw.
  destruct c as [|p|p]; try (cbv beta iota zeta; rewrite Hd; reflexivity).
  do 6 (destruct p as [p|p|]; try (cbv beta iota zeta; rewrite Hd; reflexivity));
    contradiction.
Qed.

(** ** Repeating the updates *)

(** The last bit an update leaves at an addressed element does not
    depend on the array it started from. *)
Lemma updates_lsb_indep (l : list (option Z * bool)) :
  forall (a a' : list Z) (j : Z),
    Forall isByte a -> Forall isByte a' -> length a = length a' ->
    Some j ∈ map fst l ->
    lsb (TA.get (updates a l) j) = lsb (TA.get (updates a' l) j).
Proof.
  induction l as [|[i b] l IH]; intros a a' j Ha Ha' Hlen Hin.
  - apply elem_of_nil in Hin. contradiction.
  - rewrite !updates_cons. cbn [fst snd].
    destruct (decide (Some j ∈ map fst l)) as [Hl|Hl].
    + destruct i as [i|]; [|apply IH; assumption].
      apply IH; try assumption.
      * apply updLSB_bytes, Ha.
      * apply updLSB_bytes, Ha'.
      * rewrite !length_updLSB. exact Hlen.
    + cbn [map fst] in Hin. apply elem_of_cons in Hin as [Heq|Hin]; [|contradiction].
      subst i. rewrite !updates_get_other by exact Hl.
      destruct (decide (0 <= j < Z.of_nat (length a))) as [Hj|Hj].
      * destruct (updLSB_get_eq a j b Ha Hj) as (v & v' & _ & Hv' & Hb & _).
        destruct (updLSB_get_eq a' j b Ha' ltac:(lia)) as (w & w' & _ & Hw' & Hb' & _).
        rewrite Hv', Hw'. unfold lsb, TA.ToInt32. cbn [default from_option id].
        rewrite Hb, Hb'. reflexivity.
      * rewrite !updLSB_out by lia.
        assert (Hn : forall x : list Z, length x = length a -> TA.get x j = None).
        { intros x Hx. unfold TA.get. destruct (0 <=? j) eqn:E; [|reflexivity].
          apply lookup_ge_None_2. lia. }
        rewrite (Hn a eq_refl), (Hn a' (eq_sym Hlen)). reflexivity.
Qed.



(** ** Arrays of one repeated byte *)

Lemma lookup_repeat (v : Z) (n k : nat) :
  repeat v n !! k = if (k <? n)%nat then Some v else None.
Proof.
  revert k. induction n as [|n IH]; intros k; [destruct k; reflexivity|].
  destruct k as [|k]; [reflexivity|]. cbn [repeat]. rewrite lookup_cons.
  rewrite IH. reflexivity.
Qed.

Lemma lsb_repeat (v w : Z) (n : nat) (j : Z) :
  Z.land v 1 = Z.land w 1 ->
  lsb (TA.get (repeat v n) j) = lsb (TA.get (repeat w n) j).
Proof.
  intros H. unfold TA.get. destruct (0 <=? j); [|reflexivity].
  rewrite !lookup_repeat. destruct (_ <? _)%nat; [|reflexivity].
  exact H.
Qed.

(** Two arrays of repeated bytes with the same last bit still agree on
    every last bit after the same updates. *)
Lemma lsb_updates_repeat (l : list (option Z * bool)) (v w : Z) (n : nat) (j : Z) :
  isByte v -> isByte w -> Z.land v 1 = Z.land w 1 ->
  lsb (TA.get (updates (repeat v n) l) j) = lsb (TA.get (updates (repeat w n) l) j).
Proof.
  intros Hv Hw H.
  destruct (decide (Some j ∈ map fst l)) as [Hin|Hin].
  - apply updates_lsb_indep; try (apply repeat_bytes; assumption); [|exact Hin].
    rewrite !repeat_length. reflexivity.
  - rewrite !updates_get_other by exact Hin. apply lsb_repeat, H.
Qed.

(** ** Windows of binary digits *)

Lemma digits2_prefix_binary (s : jsstring) :
  Forall (fun c => c = chr0 \/ c = chr1) s ->
  forall (acc : Z) (n : nat),
    exists v, 0 <= v < 2 ^ Z.of_nat (length s)
      /\ Str.digits2_prefix s acc n
         = (acc * 2 ^ Z.of_nat (length s) + v, (n + length s)%nat).
Proof.
  induction 1 as [|c s Hc Hs IH]; intros acc n.
  - exists 0. cbn. split; [lia|]. f_equal; lia.
  - assert (Hpow : 0 < 2 ^ Z.of_nat (length s)) by (apply Z.pow_pos_nonneg; lia).
    cbn [Str.digits2_prefix length]. rewrite Nat2Z.inj_succ, Z.pow_succ_r by lia.
    destruct Hc as [-> | ->].
    + change (chr0 =? chr0) with true. cbv iota.
      destruct (IH (2 * acc) (S n)) as (v & Hv & ->).
      exists v. split; [lia|]. f_equal; lia.
    + change (chr1 =? chr0) with false. change (chr1 =? chr1) with true. cbv iota.
      destruct (IH (2 * acc + 1) (S n)) as (v & Hv & ->).
      exists (2 ^ Z.of_nat (length s) + v). split; [lia|]. f_equal; lia.
Qed.

(** [parseInt] reads a non-empty string of binary digits as a number
    below [2^length]. *)
Lemma parseInt2_binary (s : jsstring) :
  s <> [] -> Forall (fun c => c = chr0 \/ c = chr1) s ->
  exists v, Str.parseInt2 s = Some v /\ 0 <= v < 2 ^ Z.of_nat (length s).
Proof.
  intros Hne Hb. destruct s as [|c s]; [contradiction|].
  destruct (digits2_prefix_binary (c :: s) Hb 0 0) as (v & Hv & Hd).
  exists v. split; [|exact Hv].
  apply Forall_cons_1 in Hb as [[-> | ->] _];
    unfold Str.parseInt2; cbn [Str.trimStart];
    [change (Str.isWhiteSpace chr0) with false
    |change (Str.isWhiteSpace chr1) with false];
    cbv iota; unfold chr0, chr1 in *; cbv beta iota zeta;
    rewrite Hd; cbn [Nat.add length]; f_equal; lia.
Qed.

Lemma binaryToString_bytes (b : jsstring) :
  Forall (fun c => c = chr0 \/ c = chr1) b ->
  Forall isByte (binaryToString b).
Proof.
  intros Hb. rewrite binaryToString_closed. apply Forall_forall. intros x Hx.
  apply list_elem_of_In, in_map_iff in Hx as (i & <- & Hi). apply in_seq in Hi.
  set (w := Str.substring (8 * i) (8 * i + 8) b).
  assert (Hlen : (1 <= length w <= 8)%nat).
  { unfold w, Str.substring. rewrite length_firstn, length_skipn.
    assert (8 * i < length b)%nat; [|lia].
    destruct (Nat.lt_ge_cases (8 * i) (length b)) as [Hlt|Hge]; [exact Hlt|].
    exfalso. assert ((length b + 7) / 8 <= i)%nat; [|lia].
    apply Nat.lt_succ_r, Nat.Div0.div_lt_upper_bound; lia. }
  assert (Hw : Forall (fun c => c = chr0 \/ c = chr1) w)
    by (unfold w, Str.substring; apply Forall_take, Forall_drop, Hb).
  destruct (parseInt2_binary w) as (v & -> & Hv); [|exact Hw|].
  { intros E. rewrite E in Hlen. cbn in Hlen. lia. }
  assert (2 ^ Z.of_nat (length w) <= 2 ^ 8) by (apply Z.pow_le_mono_r; lia).
  unfold Str.fromCharCode, isByte. rewrite Z.mod_small by lia. lia.
Qed.

(** The signature is read back from every image of at least 63 pixels:
    with 63 pixels the first bit is read in front of the array, as 0. *)
Lemma signature_readback_63 (a : list Z) (total i : Z) :
  Forall isByte a -> Z.of_nat (length a) = 4 * total -> 63 <= total ->
  0 <= i < 64 ->
  lsb (TA.get (updates a (signatureUpdates total)) (signatureIndex total i))
  = bitAt signature i.
Proof.
  intros Ha Hlen Htot Hi.
  destruct (Z_lt_le_dec (signatureIndex total i) 0) as [Hneg|Hpos].
  - rewrite TA_get_negative by exact Hneg.
    assert (i = 0) by (unfold signatureIndex in Hneg; lia). subst i. reflexivity.
  - unfold bitAt. apply updates_get_lsb; try assumption.
    + apply NoDup_signatureUpdates.
    + apply elem_of_signatureUpdates, Hi.
    + unfold signatureIndex in *. lia.
Qed.

(** ** A generator output of exactly 1 *)

Lemma digits2_pos_unique (P : positive) (d : Z) :
  2 ^ (d - 1) <= Z.pos P < 2 ^ d -> 1 <= d -> Z.pos (digits2_pos P) = d.
Proof.
  intros [Hlo Hhi] Hd. pose proof (digits2_pos_bounds P) as [Hlo' Hhi'].
  set (d' := Z.pos (digits2_pos P)) in *.
  destruct (Z.lt_trichotomy d' d) as [Hlt|[Heq|Hgt]]; [|exact Heq|]; exfalso.
  - assert (2 ^ d' <= 2 ^ (d - 1)) by (apply Z.pow_le_mono_r; lia). lia.
  - assert (2 ^ d <= 2 ^ (d' - 1)) by (apply Z.pow_le_mono_r; lia). lia.
Qed.

(** A mantissa within half a unit below [2^(53+k)] is rounded up to the
    next binade. *)
Lemma binary_round_aux_carry (P : positive) (e : Z) (k : nat) :
  2 ^ (54 + Z.of_nat k) - 2 ^ Z.of_nat k <= Z.pos P < 2 ^ (54 + Z.of_nat k) ->
  -1074 <= e + Z.of_nat (S k) <= 970 ->
  binary_round_aux prec emax false (Z.pos P) e loc_Exact
  = S754_finite false 4503599627370496 (e + Z.of_nat (S k) + 1).
Proof.
  intros [Hlo Hhi] He.
  assert (Hpk : 0 < 2 ^ Z.of_nat k) by (apply Z.pow_pos_nonneg; lia).
  assert (H54 : 2 ^ (54 + Z.of_nat k) = 2 ^ 54 * 2 ^ Z.of_nat k)
    by (apply Z.pow_add_r; lia).
  assert (Hd : Z.pos (digits2_pos P) = 54 + Z.of_nat k).
  { apply digits2_pos_unique; [|lia]. split; [|exact Hhi].
    replace (54 + Z.of_nat k - 1) with (53 + Z.of_nat k) by lia.
    rewrite Z.pow_add_r by lia. lia. }
  unfold binary_round_aux. unfold shr_fexp at 1.
  unfold fexp, SpecFloat.emin, Zdigits2, shr_record_of_loc, shr.
  rewrite Hd. change prec with 53. change emax with 1024.
  change IntDef.Z.max with Z.max.
  replace (Z.max (54 + Z.of_nat k + e - 53) (3 - 1024 - 53) - e)
    with (Z.of_nat (S k)) by lia.
  destruct (Z.of_nat (S k)) as [|p|p] eqn:Hp; try lia.
  rewrite iter_pos_nat. replace (Pos.to_nat p) with (S k) by lia.
  destruct (shr_iter_spec (Z.pos P) k ltac:(lia)) as [Hm Hr].
  set (mrs := Nat.iter (S k) shr_1 _) in *.
  assert (HQ : shr_m mrs = 2 ^ 53 - 1).
  { rewrite Hm, Nat2Z.inj_succ, Z.pow_succ_r by lia.
    symmetry. apply (Z.div_unique _ _ _ (Z.pos P - (2 ^ 53 - 1) * (2 * 2 ^ Z.of_nat k)));
      lia. }
  assert (HR : shr_r mrs = true).
  { rewrite Hr.
    replace (Z.pos P / 2 ^ Z.of_nat k) with (2 ^ 54 - 1); [reflexivity|].
    apply (Z.div_unique _ _ _ (Z.pos P - (2 ^ 54 - 1) * 2 ^ Z.of_nat k)); lia. }
  assert (HM : round_nearest_even (shr_m mrs) (loc_of_shr_record mrs) = 2 ^ 53).
  { destruct mrs as [m r s]. cbn [shr_m shr_r] in HQ, HR. subst m r.
    destruct s; reflexivity. }
  rewrite HM, shr_fexp_two53 by lia. cbn [shr_m].
  change (2 ^ 52) with (Z.pos 4503599627370496). cbv iota.
  destruct (_ <=? _) eqn:E; [|lia].
  f_equal.
Qed.

Lemma Prim2SF_tiny : Prim2SF (-0x1p-54) = S754_finite true 4503599627370496 (-106).
Proof. vm_compute. reflexivity. Qed.

Lemma Prim2SF_minus_one : Prim2SF (-1) = S754_finite true 4503599627370496 (-52).
Proof. vm_compute. reflexivity. Qed.

(** A double in [-2^-54, 0) is negative with a magnitude [m * 2^e] of at
    most [2^-54]. *)
Lemma tinyNegative_cases (x : float) :
  tinyNegative x = true ->
  exists m e, Prim2SF x = S754_finite true m e
              /\ e <= -106 /\ Z.pos m <= 2 ^ (-54 - e).
Proof.
  unfold tinyNegative. intros H. apply andb_true_iff in H as [H0 H1].
  rewrite FloatAxioms.leb_spec, Prim2SF_tiny in H0.
  rewrite FloatAxioms.ltb_spec, Prim2SF_zero in H1.
  pose proof (Prim2SF_valid x) as Hv.
  destruct (Prim2SF x) as [s|s| |s m e].
  - cbv [SFltb SFcompare] in H1. congruence.
  - destruct s; cbv [SFleb SFltb SFcompare] in H0, H1; congruence.
  - cbv [SFleb SFcompare] in H0. congruence.
  - destruct s; [|cbv [SFltb SFcompare] in H1; congruence].
    exists m, e. split; [reflexivity|].
    apply valid_finite in Hv as [Hc _].
    pose proof (digits2_pos_bounds m) as [_ Hhi].
    assert (Hm : Z.pos m < 2 ^ 53).
    { eapply Z.lt_le_trans; [exact Hhi|]. apply Z.pow_le_mono_r; lia. }
    cbv [SFleb SFcompare] in H0.
    destruct (Z.compare_spec (-106) e) as [Heq|Hlt|Hgt]; [|congruence|].
    + subst e. split; [lia|]. change (2 ^ (-54 - -106)) with (Z.pos 4503599627370496).
      assert (Hcmp : (4503599627370496 ?= m)%positive <> Lt).
      { unfold Pos.compare.
        destruct (PosDef.Pos.compare_cont Eq 4503599627370496 m);
          cbn [CompOpp] in H0; congruence. }
      apply Pos.compare_nlt_iff in Hcmp.
      apply Pos2Z.pos_le_pos. apply Pos.le_nlt. exact Hcmp.
    + split; [lia|].
      assert (2 ^ 53 <= 2 ^ (-54 - e)) by (apply Z.pow_le_mono_r; lia). lia.
Qed.

(** [Math.floor] of such a double is -1. *)
Lemma Math_floor_tiny (x : float) :
  tinyNegative x = true -> Num.Math_floor x = (-1)%float.
Proof.
  intros H. destruct (tinyNegative_cases x H) as (m & e & Hx & He & Hm).
  unfold Num.Math_floor. rewrite Hx.
  destruct (0 <=? e) eqn:E; [lia|].
  unfold Num.floor_mantissa. rewrite Z.shiftr_div_pow2 by lia.
  assert (Hp : 2 ^ (-54 - e) < 2 ^ (- e)) by (apply Z.pow_lt_mono_r; lia).
  replace (Z.neg m / 2 ^ (- e)) with (-1); [reflexivity|].
  apply (Z.div_unique _ _ _ (2 ^ (- e) - Z.pos m)); lia.
Qed.

(** Subtracting -1 from such a double gives exactly 1: the difference
    [1 - m * 2^e] is within half a unit in the last place of 1. *)
Lemma sub_tiny (x : float) :
  tinyNegative x = true -> (x - -1)%float = 1%float.
Proof.
  intros H. destruct (tinyNegative_cases x H) as (m & e & Hx & He & Hm).
  apply Prim2SF_inj.
  rewrite sub_spec, Hx, Prim2SF_minus_one, Prim2SF_one.
  unfold SF64sub, SFsub.
  replace (IntDef.Z.min e (-52)) with e by (change IntDef.Z.min with Z.min; lia).
  assert (Hs1 : fst (shl_align m e e) = m).
  { unfold shl_align. rewrite Z.sub_diag. reflexivity. }
  set (j := Z.to_nat (-52 - e)).
  assert (Hs2 : fst (shl_align 4503599627370496 (-52) e) = shl 4503599627370496 j).
  { unfold shl_align. destruct (e - -52) as [|d|d] eqn:E; try lia. cbn [fst].
    rewrite pos_iter_shl. f_equal. unfold j. lia. }
  rewrite Hs1, Hs2. cbn [cond_Zopp].
  assert (Hq : Z.pos (shl 4503599627370496 j) = 2 ^ (- e)).
  { rewrite Zpos_shl. change (Z.pos 4503599627370496) with (2 ^ 52).
    rewrite <- Z.pow_add_r by lia. f_equal. unfold j. lia. }
  assert (Hp1 : 2 ^ (-54 - e) < 2 ^ (- e)) by (apply Z.pow_lt_mono_r; lia).
  set (k := Z.to_nat (- e - 54)).
  assert (Hk : 2 ^ (- e) = 2 ^ (54 + Z.of_nat k)) by (f_equal; unfold k; lia).
  assert (Hk' : 2 ^ (-54 - e) = 2 ^ Z.of_nat k) by (f_equal; unfold k; lia).
  match goal with
  | |- binary_normalize _ _ ?z _ _ = _ => destruct z as [|P|P] eqn:HP
  end; [lia| |lia].
  assert (HPv : Z.pos P = 2 ^ (- e) - Z.pos m) by lia.
  unfold binary_normalize, binary_round.
  assert (Hd : Z.pos (digits2_pos P) = - e).
  { apply digits2_pos_unique; [|lia]. split; [|lia].
    replace (- e) with (Z.succ (- e - 1)) in HPv, Hp1 by lia.
    rewrite Z.pow_succ_r in HPv, Hp1 by lia.
    assert (2 ^ (-54 - e) <= 2 ^ (- e - 1)) by (apply Z.pow_le_mono_r; lia).
    lia. }
  assert (Hf : fexp prec emax (- e + e) = -53).
  { unfold fexp, SpecFloat.emin.
    change prec with 53. change emax with 1024. change IntDef.Z.max with Z.max.
    lia. }
  rewrite Hd, Hf. unfold shl_align. destruct (-53 - e) as [|d|d] eqn:E; try lia.
  rewrite (binary_round_aux_carry P e k) by lia.
  f_equal. unfold k. lia.
Qed.

Lemma one_times_of_Z (N : Z) :
  1 <= N < 2 ^ 53 -> (1 * Num.of_Z N)%float = Num.of_Z N.
Proof.
  intros HN. destruct N as [|n|n]; [lia| |lia].
  pose proof (Prim2SF_of_Z_pos n ltac:(lia)) as HPN. cbv zeta in HPN.
  pose proof (digits2_pos_le_53 n ltac:(lia)) as Hd.
  set (d := Z.pos (digits2_pos n)) in *.
  set (k := Z.to_nat (53 - d)) in *.
  apply Prim2SF_inj. rewrite mul_spec, Prim2SF_one, HPN.
  unfold SF64mul, SFmul. cbn [xorb].
  replace (4503599627370496 * shl n k)%positive with (shl (shl n k) 52).
  - rewrite binary_round_aux_exact.
    + f_equal. lia.
    + rewrite digits_shl. fold d. unfold k. lia.
    + unfold d in *. lia.
  - apply Pos2Z.inj. rewrite Pos2Z.inj_mul, (Zpos_shl (shl n k) 52).
    change (2 ^ Z.of_nat 52) with (Z.pos 4503599627370496). lia.
Qed.

Lemma Math_floor_of_Z (N : Z) :
  0 <= N < 2 ^ 53 -> Num.Math_floor (Num.of_Z N) = Num.of_Z N.
Proof.
  intros HN. destruct N as [|n|n]; [reflexivity| |lia].
  unfold Num.Math_floor. rewrite Prim2SF_of_Z_pos by lia. cbv zeta.
  pose proof (digits2_pos_le_53 n ltac:(lia)) as Hd.
  set (d := Z.pos (digits2_pos n)) in *.
  destruct (0 <=? d - 53) eqn:E; [reflexivity|].
  f_equal. unfold Num.floor_mantissa. rewrite Zpos_shl, Z.shiftr_div_pow2 by lia.
  replace (Z.of_nat (Z.to_nat (53 - d))) with (- (d - 53)) by lia.
  apply Z.div_mul. apply Z.pow_nonzero; lia.
Qed.

(** ** The fractional part of a finite double *)

(** The sign of a rounding is the sign it is given. *)
Lemma binary_round_aux_sign (m e : Z) (l : location) :
  binary_round_aux prec emax true m e l
  = SFopp (binary_round_aux prec emax false m e l).
Proof.
  unfold binary_round_aux.
  destruct (shr_fexp prec emax m e l) as [mrs' e'].
  destruct (shr_fexp prec emax _ e' loc_Exact) as [mrs'' e''].
  destruct (shr_m mrs''); [reflexivity| |reflexivity].
  destruct (e'' <=? emax - prec); reflexivity.
Qed.

Lemma Prim2SF_of_Z_neg (c : positive) :
  let d := Z.pos (digits2_pos c) in
  Z.pos c < 2 ^ 53 ->
  Prim2SF (Num.of_Z (Z.neg c))
  = S754_finite true (shl c (Z.to_nat (53 - d))) (d - 53).
Proof.
  intros d Hc. pose proof (digits2_pos_le_53 c Hc) as Hd. fold d in Hd.
  pose proof (binary_round_shl c 0 0) as Hr. cbv zeta in Hr. fold d in Hr.
  specialize (Hr Hd ltac:(lia)). change (shl c 0) with c in Hr.
  replace (0 + Z.of_nat 0 + d - 53) with (d - 53) in Hr by lia.
  unfold Num.of_Z, binary_normalize.
  assert (Hs : binary_round prec emax true c 0
               = S754_finite true (shl c (Z.to_nat (53 - d))) (d - 53)).
  { unfold binary_round in Hr |- *.
    destruct (shl_align c 0 _) as [mz ez].
    rewrite binary_round_aux_sign, Hr. reflexivity. }
  rewrite Hs. apply Prim2SF_SF2Prim.
  pose proof (Prim2SF_valid (Num.of_Z (Z.pos c))) as Hv.
  rewrite (Prim2SF_of_Z_pos c Hc) in Hv. exact Hv.
Qed.

Lemma shl_align_value (mx : positive) (ex ez : Z) :
  ez <= ex ->
  Z.pos (fst (shl_align mx ex ez)) = Z.pos mx * 2 ^ (ex - ez).
Proof.
  intros H. unfold shl_align.
  destruct (ez - ex) as [|d|d] eqn:E; try lia; cbn [fst].
  - replace (ex - ez) with 0 by lia. lia.
  - rewrite pos_iter_shl, Zpos_shl. f_equal. f_equal. lia.
Qed.

(** The difference of two finite doubles is the rounding of the exact
    difference of their mantissas at the smaller exponent. *)
Lemma SFsub_finite (sx sy : bool) (mx my : positive) (ex ey : Z) :
  let ez := Z.min ex ey in
  SFsub prec emax (S754_finite sx mx ex) (S754_finite sy my ey)
  = binary_normalize prec emax
      (cond_Zopp sx (Z.pos mx * 2 ^ (ex - ez))
       - cond_Zopp sy (Z.pos my * 2 ^ (ey - ez))) ez false.
Proof.
  intros ez. unfold SFsub. change (IntDef.Z.min ex ey) with ez.
  rewrite !shl_align_value by (unfold ez; lia). reflexivity.
Qed.

(** Rounding a mantissa of [53 + k] digits, [k >= 1], in the normal
    range: the result keeps the exponent [e + k] unless the mantissa is
    within half a unit of the next power of two. *)
Lemma binary_round_aux_normal (P : positive) (e : Z) (k : nat) :
  Z.pos (digits2_pos P) = 54 + Z.of_nat k ->
  -1074 <= e + Z.of_nat (S k) <= 970 ->
  (exists M, binary_round_aux prec emax false (Z.pos P) e loc_Exact
             = S754_finite false M (e + Z.of_nat (S k)))
  \/ (binary_round_aux prec emax false (Z.pos P) e loc_Exact
      = S754_finite false 4503599627370496 (e + Z.of_nat (S k) + 1)
      /\ 2 ^ (54 + Z.of_nat k) - 2 ^ Z.of_nat k <= Z.pos P).
Proof.
  intros Hd He.
  pose proof (digits2_pos_bounds P) as [Hlo Hhi]. rewrite Hd in Hlo, Hhi.
  destruct (Z_le_gt_dec (2 ^ (54 + Z.of_nat k) - 2 ^ Z.of_nat k) (Z.pos P))
    as [Hc|Hn].
  { right. split; [|exact Hc]. apply binary_round_aux_carry; [lia|exact He]. }
  left.
  assert (Hpk : 0 < 2 ^ Z.of_nat k) by (apply Z.pow_pos_nonneg; lia).
  assert (H54 : 2 ^ (54 + Z.of_nat k) = 2 ^ 54 * 2 ^ Z.of_nat k)
    by (apply Z.pow_add_r; lia).
  assert (H53 : 2 ^ (54 + Z.of_nat k - 1) = 2 ^ 53 * 2 ^ Z.of_nat k).
  { replace (54 + Z.of_nat k - 1) with (53 + Z.of_nat k) by lia.
    apply Z.pow_add_r; lia. }
  unfold binary_round_aux. unfold shr_fexp at 1.
  unfold fexp, SpecFloat.emin, Zdigits2, shr_record_of_loc, shr.
  rewrite Hd. change prec with 53. change emax with 1024.
  change IntDef.Z.max with Z.max.
  replace (Z.max (54 + Z.of_nat k + e - 53) (3 - 1024 - 53) - e)
    with (Z.of_nat (S k)) by lia.
  destruct (Z.of_nat (S k)) as [|p|p] eqn:Hp; try lia.
  rewrite iter_pos_nat. replace (Pos.to_nat p) with (S k) by lia.
  destruct (shr_iter_spec (Z.pos P) k ltac:(lia)) as [Hm Hr].
  set (mrs := Nat.iter (S k) shr_1 _) in *.
  destruct (round_nearest_even_bound mrs) as [HM Hup].
  set (M1 := round_nearest_even (shr_m mrs) (loc_of_shr_record mrs)) in *.
  assert (Hpow2 : 2 ^ Z.of_nat (S k) = 2 * 2 ^ Z.of_nat k)
    by (rewrite Nat2Z.inj_succ, Z.pow_succ_r by lia; reflexivity).
  pose proof (Z.div_mod (Z.pos P) (2 ^ Z.of_nat (S k)) ltac:(lia)) as Hdm.
  pose proof (Z.mod_pos_bound (Z.pos P) (2 ^ Z.of_nat (S k)) ltac:(lia)) as Hmod.
  rewrite <- Hm in Hdm.
  assert (HQ : 2 ^ 52 <= shr_m mrs < 2 ^ 53).
  { rewrite Hm, Hpow2. split.
    - apply Z.div_le_lower_bound; lia.
    - apply Z.div_lt_upper_bound; lia. }
  assert (HM1 : 2 ^ 52 <= M1 < 2 ^ 53).
  { split; [lia|].
    destruct Hup as [-> | Hup]; [lia|].
    rewrite Hr in Hup.
    pose proof (odd_quotient_remainder (Z.pos P) k ltac:(lia) Hup) as Hrem.
    destruct (Z.eq_dec (shr_m mrs) (2 ^ 53 - 1)) as [Heq|Hne]; [|lia].
    exfalso. rewrite Heq in Hdm. lia. }
  destruct M1 as [|M|M] eqn:HM1e; [lia| |lia].
  rewrite shr_fexp_small; [|apply digits2_pos_le_53; lia|lia].
  cbn [shr_m]. destruct (_ <=? _) eqn:E; [|lia].
  exists M. reflexivity.
Qed.

(** A difference [V * 2^ez] in [0, 1) that stays more than 2^-54 below 1
    is rounded to a double in [0, 1): the result is +0 or positive with
    an exponent of at most -53. *)
Lemma frac_rounding (V ez : Z) :
  0 <= V < 2 ^ (- ez) -> -1074 <= ez < 0 ->
  (V < 2 ^ 53 -> -1022 <= ez) ->
  2 ^ (- ez - 54) < 2 ^ (- ez) - V ->
  binary_normalize prec emax V ez false = S754_zero false
  \/ exists M e', binary_normalize prec emax V ez false = S754_finite false M e'
                  /\ e' <= -53.
Proof.
  intros [HV0 HV1] Hez Hrange Hcarry.
  destruct V as [|P|P]; [left; reflexivity| |lia]. right.
  pose proof (digits2_pos_bounds P) as [Hlo Hhi].
  set (d := Z.pos (digits2_pos P)) in *.
  assert (Hd1 : 1 <= d) by (unfold d; lia).
  assert (Hd : d <= - ez).
  { destruct (Z_le_gt_dec d (- ez)) as [H|H]; [exact H|]. exfalso.
    assert (2 ^ (- ez) <= 2 ^ (d - 1)) by (apply Z.pow_le_mono_r; lia). lia. }
  unfold binary_normalize.
  destruct (Z_le_gt_dec d 53) as [Hs|Hl].
  - (* the difference fits in 53 digits: it is exact *)
    assert (HP53 : Z.pos P < 2 ^ 53).
    { eapply Z.lt_le_trans; [exact Hhi|]. apply Z.pow_le_mono_r; lia. }
    specialize (Hrange HP53).
    pose proof (binary_round_shl P 0 ez) as Hr. cbv zeta in Hr. fold d in Hr.
    change (shl P 0) with P in Hr. rewrite Hr by lia.
    eexists _, _. split; [reflexivity|]. lia.
  - (* more than 53 digits: rounded at exponent [ez + d - 53] *)
    set (k := Z.to_nat (d - 54)).
    assert (Hdk : d = 54 + Z.of_nat k) by (unfold k; lia).
    unfold binary_round. fold d.
    assert (Hf : fexp prec emax (d + ez) = d + ez - 53).
    { unfold fexp, SpecFloat.emin.
      change prec with 53. change emax with 1024. change IntDef.Z.max with Z.max.
      lia. }
    rewrite Hf. unfold shl_align.
    destruct (d + ez - 53 - ez) as [|p|p] eqn:E; try lia.
    destruct (binary_round_aux_normal P ez k Hdk ltac:(lia)) as [[M HM]|[HM Hc]];
      rewrite HM; eexists _, _; (split; [reflexivity|]); [lia|].
    destruct (Z.eq_dec d (- ez)) as [Heq|Hne]; [|lia].
    exfalso. rewrite <- Heq in Hcarry. rewrite Hdk in Hcarry.
    replace (54 + Z.of_nat k - 54) with (Z.of_nat k) in Hcarry by lia. lia.
Qed.

Lemma inUnit_intro (r : float) :
  (exists s, Prim2SF r = S754_zero s)
  \/ (exists M e', Prim2SF r = S754_finite false M e' /\ e' <= -53) ->
  inUnit r = true.
Proof.
  intros H. unfold inUnit.
  rewrite FloatAxioms.leb_spec, FloatAxioms.ltb_spec, Prim2SF_zero, Prim2SF_one.
  destruct H as [[s ->]|(M & e' & -> & He)]; [reflexivity|].
  cbv [SFleb SFltb SFcompare andb].
  destruct (Z.compare_spec e' (-52)); [lia|reflexivity|lia].
Qed.

(** A negative double below -2^-54. *)
Lemma not_tinyNegative (x : float) (m : positive) (e : Z) :
  Prim2SF x = S754_finite true m e -> tinyNegative x = false ->
  2 ^ (-54 - e) < Z.pos m.
Proof.
  intros Hx Ht.
  destruct (Z_lt_le_dec (2 ^ (-54 - e)) (Z.pos m)) as [H|H]; [exact H|exfalso].
  pose proof (Prim2SF_valid x) as Hv. rewrite Hx in Hv.
  apply valid_finite in Hv as [Hc _].
  pose proof (digits2_pos_bounds m) as [Hlo Hhi].
  assert (He : e <= -54).
  { destruct (Z_le_gt_dec e (-54)) as [He|He]; [exact He|].
    rewrite Z.pow_neg_r in H by lia. lia. }
  enough (tinyNegative x = true) by congruence.
  unfold tinyNegative.
  rewrite FloatAxioms.leb_spec, FloatAxioms.ltb_spec, Prim2SF_tiny, Prim2SF_zero, Hx.
  cbv [SFleb SFltb SFcompare andb].
  destruct (Z.compare_spec (-106) e) as [Heq|Hlt|Hgt]; [| |reflexivity].
  - subst e. change (2 ^ (-54 - -106)) with (Z.pos 4503599627370496) in H.
    destruct (PosDef.Pos.compare_cont Eq 4503599627370496 m) eqn:E;
      try reflexivity.
    exfalso.
    assert (Hcmp : (4503599627370496 ?= m)%positive = Lt) by exact E.
    apply (proj1 (Pos.compare_lt_iff _ _)), Pos2Z.pos_lt_pos in Hcmp.
    clear E. lia.
  - exfalso.
    assert (Hd : Z.pos (digits2_pos m) = 53) by lia.
    rewrite Hd in Hlo. change (2 ^ (53 - 1)) with (2 ^ 52) in Hlo.
    assert (2 ^ (-54 - e) <= 2 ^ 51) by (apply Z.pow_le_mono_r; lia).
    lia.
Qed.

Lemma digits2_pos_ge (c : positive) (t : Z) :
  2 ^ t <= Z.pos c -> t + 1 <= Z.pos (digits2_pos c).
Proof.
  intros H. pose proof (digits2_pos_bounds c) as [_ Hhi].
  destruct (Z_le_gt_dec (t + 1) (Z.pos (digits2_pos c))) as [Hle|Hgt]; [exact Hle|].
  exfalso.
  assert (2 ^ Z.pos (digits2_pos c) <= 2 ^ t) by (apply Z.pow_le_mono_r; lia).
  lia.
Qed.

(** The mantissa of the floor, aligned at the exponent of the argument. *)
Lemma floor_operand (c : positive) (e : Z) :
  let dc := Z.pos (digits2_pos c) in
  Z.pos c < 2 ^ 53 -> e <= dc - 53 -> e < 0 ->
  Z.pos (shl c (Z.to_nat (53 - dc))) * 2 ^ (dc - 53 - e) = Z.pos c * 2 ^ (- e).
Proof.
  intros dc Hc He He0. pose proof (digits2_pos_le_53 c Hc) as Hd. fold dc in Hd.
  rewrite Zpos_shl, <- Z.mul_assoc, <- Z.pow_add_r by lia.
  f_equal. f_equal. lia.
Qed.

(** The mantissa of a normal double has 53 digits. *)
Lemma normal_mantissa (x : float) (s : bool) (m : positive) (e : Z) :
  Prim2SF x = S754_finite s m e ->
  Z.pos m < 2 ^ 53 /\ (-1074 < e -> 2 ^ 52 <= Z.pos m) /\ -1074 <= e.
Proof.
  intros Hx. pose proof (Prim2SF_valid x) as Hv. rewrite Hx in Hv.
  apply valid_finite in Hv as [Hc _].
  pose proof (digits2_pos_bounds m) as [Hlo Hhi].
  split; [|split; [|lia]].
  - eapply Z.lt_le_trans; [exact Hhi|]. apply Z.pow_le_mono_r; lia.
  - intros He. assert (Hd : Z.pos (digits2_pos m) = 53) by lia.
    rewrite Hd in Hlo. exact Hlo.
Qed.

(** [x - Math.floor(x)] for a finite [x] that is not in [-2^-54, 0): a
    zero, or a positive double with an exponent of at most -53. *)
Lemma fraction_cases (x : float) :
  isFinite x = true -> tinyNegative x = false ->
  (exists s, Prim2SF (x - Num.Math_floor x) = S754_zero s)
  \/ (exists M e', Prim2SF (x - Num.Math_floor x) = S754_finite false M e'
                   /\ e' <= -53).
Proof.
  intros Hf Ht. unfold isFinite in Hf.
  destruct (Prim2SF x) as [s|s| |s m e] eqn:Hx; try discriminate.
  - (* a zero *)
    left. assert (Hfl : Num.Math_floor x = x)
      by (unfold Num.Math_floor; rewrite Hx; reflexivity).
    rewrite Hfl, sub_spec, Hx. exists false. destruct s; reflexivity.
  - destruct (normal_mantissa x s m e Hx) as (Hm53 & Hm52 & Hemin).
    destruct (Z_le_gt_dec 0 e) as [He|He].
    + (* an integer *)
      left. assert (Hfl : Num.Math_floor x = x).
      { unfold Num.Math_floor. rewrite Hx.
        destruct (0 <=? e) eqn:E; [reflexivity|lia]. }
      rewrite Hfl, sub_spec, Hx. unfold SF64sub. rewrite SFsub_finite.
      rewrite Z.sub_diag. exists false. reflexivity.
    + (* a fractional part *)
      assert (Hk : 0 < 2 ^ (- e)) by (apply Z.pow_pos_nonneg; lia).
      assert (Hfl : Num.Math_floor x
                    = Num.of_Z ((if s then Z.neg m else Z.pos m) / 2 ^ (- e))).
      { unfold Num.Math_floor. rewrite Hx.
        destruct (0 <=? e) eqn:E; [lia|].
        unfold Num.floor_mantissa. rewrite Z.shiftr_div_pow2 by lia. reflexivity. }
      rewrite Hfl. clear Hfl.
      set (v := if s then Z.neg m else Z.pos m).
      pose proof (Z.div_mod v (2 ^ (- e)) ltac:(lia)) as Hdm.
      pose proof (Z.mod_pos_bound v (2 ^ (- e)) Hk) as Hmod.
      set (q := v / 2 ^ (- e)) in *.
      destruct q as [|c|c] eqn:Hq.
      * (* the floor is 0: the difference is [x] *)
        destruct s; [unfold v in Hdm, Hmod; lia|].
        right. exists m, e.
        change (Num.of_Z 0) with 0%float.
        rewrite sub_spec, Hx, Prim2SF_zero. split; [reflexivity|].
        unfold v in Hdm, Hmod.
        destruct (Z_le_gt_dec e (-53)) as [H|H]; [exact H|exfalso].
        specialize (Hm52 ltac:(lia)).
        assert (2 ^ (- e) <= 2 ^ 52) by (apply Z.pow_le_mono_r; lia). lia.
      * (* a positive floor *)
        destruct s; [unfold v in Hdm, Hmod; nia|]. unfold v in Hdm, Hmod.
        assert (Hc53 : Z.pos c < 2 ^ 53) by nia.
        assert (Hec : e <= Z.pos (digits2_pos c) - 53).
        { destruct (Z_le_gt_dec e (-52)) as [H|H]; [lia|].
          specialize (Hm52 ltac:(lia)).
          assert (2 ^ (52 + e) <= Z.pos c); [|apply digits2_pos_ge in H0; lia].
          assert (Hsplit : 2 ^ 52 = 2 ^ (52 + e) * 2 ^ (- e))
            by (rewrite <- Z.pow_add_r by lia; f_equal; lia).
          assert (0 < 2 ^ (52 + e)) by (apply Z.pow_pos_nonneg; lia).
          nia. }
        rewrite sub_spec, Hx, (Prim2SF_of_Z_pos c Hc53). cbv zeta.
        unfold SF64sub. rewrite SFsub_finite.
        replace (Z.min e (Z.pos (digits2_pos c) - 53)) with e by lia.
        rewrite Z.sub_diag, floor_operand by lia. cbn [cond_Zopp].
        replace (Z.pos m * 2 ^ 0 - Z.pos c * 2 ^ (- e))
          with (Z.pos m mod 2 ^ (- e)) by lia.
        destruct (frac_rounding (Z.pos m mod 2 ^ (- e)) e) as [H|H].
        -- exact Hmod.
        -- lia.
        -- intros _.
           destruct (Z_le_gt_dec (-1022) e) as [H|H]; [exact H|exfalso].
           assert (2 ^ 53 <= 2 ^ (- e)) by (apply Z.pow_le_mono_r; lia). nia.
        -- destruct (Z_le_gt_dec 54 (- e)) as [H|H].
           ++ exfalso.
              assert (2 ^ 53 <= 2 ^ (- e)) by (apply Z.pow_le_mono_r; lia). nia.
           ++ rewrite Z.pow_neg_r by lia. lia.
        -- left. exists false. exact H.
        -- right. exact H.
      * (* a negative floor *)
        destruct s; [|unfold v in Hdm, Hmod; nia]. unfold v in Hdm, Hmod.
        assert (Hc53 : Z.pos c < 2 ^ 53) by nia.
        assert (Hec : e <= Z.pos (digits2_pos c) - 53).
        { destruct (Z_le_gt_dec e (-52)) as [H|H]; [lia|].
          specialize (Hm52 ltac:(lia)).
          assert (2 ^ (52 + e) <= Z.pos c); [|apply digits2_pos_ge in H0; lia].
          assert (Hsplit : 2 ^ 52 = 2 ^ (52 + e) * 2 ^ (- e))
            by (rewrite <- Z.pow_add_r by lia; f_equal; lia).
          assert (0 < 2 ^ (52 + e)) by (apply Z.pow_pos_nonneg; lia).
          nia. }
        rewrite sub_spec, Hx, (Prim2SF_of_Z_neg c Hc53). cbv zeta.
        unfold SF64sub. rewrite SFsub_finite.
        replace (Z.min e (Z.pos (digits2_pos c) - 53)) with e by lia.
        rewrite Z.sub_diag, floor_operand by lia. cbn [cond_Zopp].
        replace (- (Z.pos m * 2 ^ 0) - - (Z.pos c * 2 ^ (- e)))
          with (Z.neg m mod 2 ^ (- e)) by lia.
        pose proof (not_tinyNegative x m e Hx Ht) as Hnt.
        destruct (frac_rounding (Z.neg m mod 2 ^ (- e)) e) as [H|H].
        -- exact Hmod.
        -- lia.
        -- intros HV.
           destruct (Z_le_gt_dec (-1022) e) as [H|H]; [exact H|exfalso].
           assert (2 ^ 54 <= 2 ^ (- e)) by (apply Z.pow_le_mono_r; lia). nia.
        -- destruct (Z_le_gt_dec 54 (- e)) as [H|H].
           ++ assert (2 ^ 53 <= 2 ^ (- e)) by (apply Z.pow_le_mono_r; lia).
              assert (c = 1%positive) by nia. subst c.
              replace (- e - 54) with (-54 - e) by lia. lia.
           ++ rewrite Z.pow_neg_r by lia. lia.
        -- left. exists false. exact H.
        -- right. exact H.
Qed.

(** ** Negative integer counters *)

Lemma binary_round_sign (m : positive) (e : Z) :
  binary_round prec emax true m e = SFopp (binary_round prec emax false m e).
Proof.
  unfold binary_round. destruct (shl_align m e _) as [mz ez].
  apply binary_round_aux_sign.
Qed.

(** [seed++] on a negative integer counter. *)
Lemma of_Z_succ_neg (c : positive) :
  Z.pos c <= 2 ^ 53 ->
  (Num.of_Z (Z.neg c) + 1)%float = Num.of_Z (Z.neg c + 1).
Proof.
  intros Hc.
  destruct (Z.eq_dec (Z.pos c) (2 ^ 53)) as [Heq|Hne].
  { replace c with 9007199254740992%positive by (apply Pos2Z.inj; exact (eq_sym Heq)).
    reflexivity. }
  assert (Hc53 : Z.pos c < 2 ^ 53) by lia.
  apply Prim2SF_inj.
  rewrite add_spec, (Prim2SF_of_Z_neg c Hc53), Prim2SF_one. cbv zeta.
  pose proof (digits2_pos_le_53 c Hc53) as Hd.
  set (d := Z.pos (digits2_pos c)) in *.
  assert (Hd1 : 1 <= d) by (unfold d; lia).
  unfold SF64add, SFadd.
  replace (IntDef.Z.min (d - 53) (-52)) with (-52)
    by (change IntDef.Z.min with Z.min; lia).
  rewrite !shl_align_value by lia.
  rewrite Zpos_shl, Z.sub_diag. cbn [cond_Zopp].
  replace (- (Z.pos c * 2 ^ Z.of_nat (Z.to_nat (53 - d)) * 2 ^ (d - 53 - -52))
           + 4503599627370496 * 2 ^ 0)
    with ((Z.neg c + 1) * 2 ^ 52).
  - assert (Hn : forall p, Z.neg p * 2 ^ 52 = Z.neg (shl p 52)).
    { intros p. pose proof (Zpos_shl p 52) as Hp.
      change (Z.of_nat 52) with 52 in Hp. lia. }
    destruct c as [c|c|]; [| |reflexivity].
    + (* an odd counter below -1 *)
      replace (Z.neg c~1 + 1) with (Z.neg c~0) by lia.
      rewrite Hn.
      pose proof (digits2_pos_le_53 c~0 ltac:(lia)) as Hd0.
      unfold binary_normalize. rewrite binary_round_sign.
      rewrite binary_round_shl by (cbv zeta; lia). cbn [SFopp negb].
      rewrite (Prim2SF_of_Z_neg c~0) by lia. cbv zeta. f_equal; lia.
    + replace (Z.neg c~0 + 1) with (Z.neg (Pos.pred_double c)) by lia.
      rewrite Hn.
      assert (Hp : Z.pos (Pos.pred_double c) < 2 ^ 53) by lia.
      pose proof (digits2_pos_le_53 _ Hp) as Hdp.
      unfold binary_normalize. rewrite binary_round_sign.
      rewrite binary_round_shl by (cbv zeta; lia). cbn [SFopp negb].
      rewrite (Prim2SF_of_Z_neg (Pos.pred_double c)) by lia. cbv zeta.
      f_equal; lia.
  - rewrite <- Z.mul_assoc, <- Z.pow_add_r by lia.
    replace (Z.of_nat (Z.to_nat (53 - d)) + (d - 53 - -52)) with 52 by lia.
    change (4503599627370496 * 2 ^ 0) with (2 ^ 52). lia.
Qed.

(** From -2^53 to 2^53, [seed++] adds one exactly. *)
Lemma increments_exact_Z (k : nat) (z : Z) :
  - 2 ^ 53 <= z -> z + Z.of_nat k <= 2 ^ 53 ->
  increments k (Num.of_Z z) = Num.of_Z (z + Z.of_nat k).
Proof.
  revert z. induction k as [|k IH]; intros z H1 H2.
  - simpl. f_equal. lia.
  - unfold increments in *. rewrite Nat.iter_succ_r.
    assert (Hs : (Num.of_Z z + 1)%float = Num.of_Z (z + 1)).
    { destruct z as [|p|p].
      - reflexivity.
      - apply of_Z_succ; lia.
      - apply of_Z_succ_neg. lia. }
    rewrite Hs, IH by lia. f_equal. lia.
Qed.


(** ** Rounding of the default seed *)

(** Rounding a mantissa of [53 + k] digits, [k >= 1], in the normal
    range moves it by at most half a unit of the result. *)
Lemma binary_round_aux_near (P : positive) (e : Z) (k : nat) :
  Z.pos (digits2_pos P) = 54 + Z.of_nat k ->
  -1074 <= e + Z.of_nat (S k) <= 970 ->
  exists M e',
    binary_round_aux prec emax false (Z.pos P) e loc_Exact = S754_finite false M e'
    /\ e + Z.of_nat (S k) <= e' <= e + Z.of_nat (S k) + 1
    /\ Z.pos P - 2 ^ Z.of_nat (S k) < Z.pos M * 2 ^ (e' - e)
       <= Z.pos P + 2 ^ Z.of_nat k.
Proof.
  intros Hd He.
  pose proof (digits2_pos_bounds P) as [Hlo Hhi]. rewrite Hd in Hlo, Hhi.
  assert (Hpk : 0 < 2 ^ Z.of_nat k) by (apply Z.pow_pos_nonneg; lia).
  assert (Hpow2 : 2 ^ Z.of_nat (S k) = 2 * 2 ^ Z.of_nat k)
    by (rewrite Nat2Z.inj_succ, Z.pow_succ_r by lia; reflexivity).
  assert (H54 : 2 ^ (54 + Z.of_nat k) = 2 ^ 54 * 2 ^ Z.of_nat k)
    by (apply Z.pow_add_r; lia).
  destruct (Z_le_gt_dec (2 ^ (54 + Z.of_nat k) - 2 ^ Z.of_nat k) (Z.pos P))
    as [Hc|Hn].
  { exists 4503599627370496%positive, (e + Z.of_nat (S k) + 1).
    split; [apply binary_round_aux_carry; [lia|exact He]|]. split; [lia|].
    replace (e + Z.of_nat (S k) + 1 - e) with (Z.succ (Z.of_nat (S k))) by lia.
    rewrite Z.pow_succ_r, Hpow2 by lia.
    change (Z.pos 4503599627370496) with (2 ^ 52). lia. }
  assert (H53 : 2 ^ (54 + Z.of_nat k - 1) = 2 ^ 53 * 2 ^ Z.of_nat k).
  { replace (54 + Z.of_nat k - 1) with (53 + Z.of_nat k) by lia.
    apply Z.pow_add_r; lia. }
  unfold binary_round_aux. unfold shr_fexp at 1.
  unfold fexp, SpecFloat.emin, Zdigits2, shr_record_of_loc, shr.
  rewrite Hd. change prec with 53. change emax with 1024.
  change IntDef.Z.max with Z.max.
  replace (Z.max (54 + Z.of_nat k + e - 53) (3 - 1024 - 53) - e)
    with (Z.of_nat (S k)) by lia.
  destruct (Z.of_nat (S k)) as [|p|p] eqn:Hp; try lia.
  rewrite iter_pos_nat. replace (Pos.to_nat p) with (S k) by lia.
  destruct (shr_iter_spec (Z.pos P) k ltac:(lia)) as [Hm Hr].
  set (mrs := Nat.iter (S k) shr_1 _) in *.
  destruct (round_nearest_even_bound mrs) as [HM Hup].
  set (M1 := round_nearest_even (shr_m mrs) (loc_of_shr_record mrs)) in *.
  rewrite Hp in Hm.
  pose proof (Z.div_mod (Z.pos P) (2 ^ Z.pos p) ltac:(lia)) as Hdm.
  pose proof (Z.mod_pos_bound (Z.pos P) (2 ^ Z.pos p) ltac:(lia)) as Hmod.
  rewrite <- Hm in Hdm.
  assert (HQ : 2 ^ 52 <= shr_m mrs < 2 ^ 53).
  { rewrite Hm, Hpow2. split.
    - apply Z.div_le_lower_bound; lia.
    - apply Z.div_lt_upper_bound; lia. }
  assert (Hval : M1 * 2 ^ Z.pos p <= Z.pos P + 2 ^ Z.of_nat k).
  { destruct Hup as [-> | Hup]; [lia|].
    rewrite Hr in Hup.
    pose proof (odd_quotient_remainder (Z.pos P) k ltac:(lia) Hup) as Hrem.
    rewrite Nat2Z.inj_succ in Hrem.
    replace (Z.succ (Z.of_nat k)) with (Z.pos p) in Hrem by lia.
    assert (M1 * 2 ^ Z.pos p <= (shr_m mrs + 1) * 2 ^ Z.pos p)
      by (apply Z.mul_le_mono_nonneg_r; lia).
    lia. }
  assert (HM1 : 2 ^ 52 <= M1 < 2 ^ 53).
  { split; [lia|]. apply (Z.mul_lt_mono_pos_r (2 ^ Z.pos p)); lia. }
  destruct M1 as [|M|M] eqn:HM1e; [lia| |lia].
  rewrite shr_fexp_small; [|apply digits2_pos_le_53; lia|lia].
  cbn [shr_m]. destruct (_ <=? _) eqn:E; [|lia].
  exists M, (e + Z.pos p). split; [reflexivity|]. split; [lia|].
  replace (e + Z.pos p - e) with (Z.pos p) by lia.
  assert (shr_m mrs * 2 ^ Z.pos p <= Z.pos M * 2 ^ Z.pos p)
    by (apply Z.mul_le_mono_nonneg_r; lia).
  lia.
Qed.

(** The product of a generator output in [0, 1) and a positive integer
    [N] is a zero or a positive double below [N]. *)
Lemma scaled_below (r : float) (N : Z) :
  inUnit r = true -> 1 <= N < 2 ^ 53 ->
  (exists s, Prim2SF (r * Num.of_Z N)%float = S754_zero s)
  \/ (exists M e', Prim2SF (r * Num.of_Z N)%float = S754_finite false M e'
                   /\ forall c, 0 <= c -> - e' <= c ->
                                Z.pos M * 2 ^ (e' + c) < N * 2 ^ c).
Proof.
  intros Hr HN. destruct N as [|n|n]; [lia| |lia].
  pose proof (Prim2SF_of_Z_pos n ltac:(lia)) as HPN. cbv zeta in HPN.
  pose proof (digits2_pos_le_53 n ltac:(lia)) as Hdn.
  set (dn := Z.pos (digits2_pos n)) in *.
  set (x := (r * Num.of_Z (Z.pos n))%float).
  assert (Hx : Prim2SF x = SFmul prec emax (Prim2SF r) (Prim2SF (Num.of_Z (Z.pos n))))
    by (unfold x; apply mul_spec).
  rewrite HPN in Hx.
  destruct (inUnit_cases r Hr) as [[s Hs]|(m & e & Hs & He & Hm)]; rewrite Hs in Hx.
  { cbn [SFmul] in Hx. left. eexists. exact Hx. }
  cbn [SFmul xorb] in Hx.
  set (k := Z.to_nat (53 - dn)) in *.
  set (E := e + (dn - 53)) in *.
  set (P := (m * shl n k)%positive) in *.
  assert (HB : 0 < 2 ^ Z.of_nat k) by (apply Z.pow_pos_nonneg; lia).
  assert (HP : Z.pos P = Z.pos m * (Z.pos n * 2 ^ Z.of_nat k))
    by (unfold P; rewrite Pos2Z.inj_mul, Zpos_shl; reflexivity).
  assert (HdP : Z.pos (digits2_pos P) <= 106).
  { destruct (Z_le_gt_dec (Z.pos (digits2_pos P)) 106) as [H|H]; [exact H|].
    exfalso. pose proof (digits2_pos_bounds P) as [Hlo _].
    assert (2 ^ 106 <= 2 ^ (Z.pos (digits2_pos P) - 1)) by (apply Z.pow_le_mono_r; lia).
    pose proof (digits2_pos_bounds n) as [_ Hnhi]. fold dn in Hnhi.
    assert (Z.pos n * 2 ^ Z.of_nat k < 2 ^ 53).
    { assert (Hpow : 2 ^ 53 = 2 ^ dn * 2 ^ Z.of_nat k)
        by (rewrite <- Z.pow_add_r by lia; f_equal; lia).
      rewrite Hpow. apply Z.mul_lt_mono_pos_r; assumption. }
    nia. }
  pose proof (binary_round_aux_bound P E ltac:(lia) ltac:(lia)) as Hb.
  rewrite <- Hx in Hb.
  destruct (Prim2SF x) as [s|s| |s M e'] eqn:HPx; try contradiction.
  { left. eexists. reflexivity. }
  destruct s; [contradiction|]. destruct Hb as [HEe Hb].
  right. exists M, e'. split; [reflexivity|]. intros c Hc0 Hce.
  destruct (normal_mantissa x false M e' HPx) as (HM & _ & _).
  assert (HC : 2 ^ 53 <= 2 ^ (- e)) by (apply Z.pow_le_mono_r; lia).
  assert (Hc : 0 < 2 ^ c) by (apply Z.pow_pos_nonneg; lia).
  destruct Hb as [Hb| ->].
  - assert (HF : 0 < 2 ^ (Z.of_nat k - e)) by (apply Z.pow_pos_nonneg; lia).
    assert (Hs1 : 2 ^ (e' + c) * 2 ^ (Z.of_nat k - e) = 2 ^ (e' - E) * 2 ^ c).
    { rewrite <- !Z.pow_add_r by lia. f_equal. unfold E, k. lia. }
    assert (Hs2 : 2 ^ (Z.of_nat k - e) = 2 ^ Z.of_nat k * 2 ^ (- e)).
    { rewrite <- Z.pow_add_r by lia. f_equal; lia. }
    rewrite HP in Hb.
    set (A := 2 ^ (e' - E)) in *. set (F := 2 ^ (Z.of_nat k - e)) in *.
    set (C := 2 ^ (- e)) in *. set (W := Z.pos n * 2 ^ Z.of_nat k) in *.
    set (G := 2 ^ c) in *. set (D := 2 ^ (e' + c)) in *.
    assert (HW : 0 < W) by (unfold W; nia).
    assert (H1 : Z.pos m * W <= (2 ^ 53 - 1) * W)
      by (apply Z.mul_le_mono_nonneg_r; lia).
    assert (H2 : 2 ^ 53 * W <= C * W) by (apply Z.mul_le_mono_nonneg_r; lia).
    assert (H3 : Z.pos M * A < C * W) by lia.
    assert (H4 : Z.pos M * A * G < C * W * G)
      by (apply Z.mul_lt_mono_pos_r; assumption).
    apply (Z.mul_lt_mono_pos_r F); [exact HF|].
    replace (Z.pos M * D * F) with (Z.pos M * A * G)
      by (rewrite <- !Z.mul_assoc, Hs1; reflexivity).
    replace (Z.pos n * G * F) with (C * W * G); [exact H4|].
    rewrite Hs2. unfold W. ring.
  - assert (Hs1 : 2 ^ c = 2 ^ (-1074 + c) * 2 ^ 1074).
    { rewrite <- Z.pow_add_r by lia. f_equal. lia. }
    assert (HD : 0 < 2 ^ (-1074 + c)) by (apply Z.pow_pos_nonneg; lia).
    assert (H1074 : 2 ^ 53 <= 2 ^ 1074) by (apply Z.pow_le_mono_r; lia).
    rewrite Hs1. set (D := 2 ^ (-1074 + c)) in *. set (T := 2 ^ 1074) in *.
    assert (Z.pos M * D < T * D) by (apply Z.mul_lt_mono_pos_r; lia).
    assert (T * D <= Z.pos n * (T * D)) by nia.
    lia.
Qed.

(** The sum of two finite doubles is the rounding of the exact sum of
    their mantissas at the smaller exponent. *)
Lemma SFadd_finite (sx sy : bool) (mx my : positive) (ex ey : Z) :
  let ez := Z.min ex ey in
  SFadd prec emax (S754_finite sx mx ex) (S754_finite sy my ey)
  = binary_normalize prec emax
      (cond_Zopp sx (Z.pos mx * 2 ^ (ex - ez))
       + cond_Zopp sy (Z.pos my * 2 ^ (ey - ez))) ez false.
Proof.
  intros ez. unfold SFadd. change (IntDef.Z.min ex ey) with ez.
  rewrite !shl_align_value by (unfold ez; lia). reflexivity.
Qed.

(** A sum [V * 2^ez] between 1 and an integer [U] is rounded to a double
    between 1 and [U]. *)
Lemma round_sum (V ez U : Z) :
  -1074 <= ez <= -52 -> 1 <= U < 2 ^ 20 ->
  2 ^ (- ez) <= V <= U * 2 ^ (- ez) ->
  exists M e', binary_normalize prec emax V ez false = S754_finite false M e'
               /\ e' < 0 /\ 2 ^ (- e') <= Z.pos M <= U * 2 ^ (- e').
Proof.
  intros Hez HU [HV0 HV1].
  assert (Hz : 0 < 2 ^ (- ez)) by (apply Z.pow_pos_nonneg; lia).
  destruct V as [|P|P]; [lia| |lia].
  pose proof (digits2_pos_ge P (- ez) HV0) as Hd0.
  pose proof (digits2_pos_bounds P) as [Hlo Hhi].
  set (d := Z.pos (digits2_pos P)) in *.
  assert (Hd1 : d <= - ez + 20).
  { destruct (Z_le_gt_dec d (- ez + 20)) as [H|H]; [exact H|exfalso].
    assert (2 ^ (- ez + 20) <= 2 ^ (d - 1)) by (apply Z.pow_le_mono_r; lia).
    assert (2 ^ (- ez + 20) = 2 ^ 20 * 2 ^ (- ez))
      by (rewrite <- Z.pow_add_r by lia; f_equal; lia).
    assert (U * 2 ^ (- ez) < 2 ^ 20 * 2 ^ (- ez))
      by (apply Z.mul_lt_mono_pos_r; lia).
    lia. }
  unfold binary_normalize.
  destruct (Z_le_gt_dec d 53) as [Hs|Hl].
  - (* 53 digits: the sum is exact *)
    assert (ez = -52) by lia. subst ez.
    pose proof (binary_round_shl P 0 (-52)) as Hr. cbv zeta in Hr. fold d in Hr.
    change (shl P 0) with P in Hr. rewrite Hr by lia.
    eexists _, _. split; [reflexivity|].
    replace (Z.to_nat (53 - d)) with 0%nat by lia. change (shl P 0) with P.
    replace (-52 + Z.of_nat 0 + d - 53) with (-52) by lia.
    split; lia.
  - (* more digits: rounded at exponent [ez + d - 53] or the next *)
    set (k := Z.to_nat (d - 54)).
    assert (Hdk : d = 54 + Z.of_nat k) by (unfold k; lia).
    unfold binary_round. fold d.
    assert (Hf : fexp prec emax (d + ez) = d + ez - 53).
    { unfold fexp, SpecFloat.emin.
      change prec with 53. change emax with 1024. change IntDef.Z.max with Z.max.
      lia. }
    rewrite Hf. unfold shl_align.
    destruct (d + ez - 53 - ez) as [|p|p] eqn:E; try lia.
    destruct (binary_round_aux_near P ez k Hdk ltac:(lia))
      as (M & e' & HM & He' & Hlo' & Hhi').
    rewrite HM. exists M, e'. split; [reflexivity|].
    split; [lia|].
    assert (HA : 0 < 2 ^ (e' - ez)) by (apply Z.pow_pos_nonneg; lia).
    assert (Hsplit : 2 ^ (- ez) = 2 ^ (- e') * 2 ^ (e' - ez))
      by (rewrite <- Z.pow_add_r by lia; f_equal; lia).
    assert (Hk1 : 2 ^ Z.of_nat (S k) <= 2 ^ (e' - ez))
      by (apply Z.pow_le_mono_r; lia).
    assert (Hk0 : 2 ^ Z.of_nat k < 2 ^ Z.of_nat (S k))
      by (apply Z.pow_lt_mono_r; lia).
    rewrite Hsplit in HV0, HV1.
    set (A := 2 ^ (e' - ez)) in *. set (D := 2 ^ (- e')) in *.
    split.
    + destruct (Z_le_gt_dec D (Z.pos M)) as [H|H]; [exact H|exfalso].
      assert ((Z.pos M + 1) * A <= D * A)
        by (apply Z.mul_le_mono_nonneg_r; lia).
      lia.
    + destruct (Z_le_gt_dec (Z.pos M) (U * D)) as [H|H]; [exact H|exfalso].
      assert ((U * D + 1) * A <= Z.pos M * A)
        by (apply Z.mul_le_mono_nonneg_r; lia).
      lia.
Qed.

(** [r * N + 1] for a generator output [r] in [0, 1): a double between
    1 and [N + 1]. *)
Lemma scaled_plus_one (r : float) (N : Z) :
  inUnit r = true -> 1 <= N < 2 ^ 19 ->
  exists M e', Prim2SF (r * Num.of_Z N + 1)%float = S754_finite false M e'
               /\ e' < 0 /\ 2 ^ (- e') <= Z.pos M <= (N + 1) * 2 ^ (- e').
Proof.
  intros Hr HN. rewrite add_spec, Prim2SF_one.
  destruct (scaled_below r N Hr ltac:(lia)) as [[s Hx]|(M & e' & Hx & Hlt)].
  - rewrite Hx. exists 4503599627370496%positive, (-52).
    split; [reflexivity|]. split; [lia|].
    change (2 ^ (- -52)) with 4503599627370496. lia.
  - destruct (normal_mantissa _ _ _ _ Hx) as (_ & _ & Hmin).
    rewrite Hx. unfold SF64add. rewrite SFadd_finite. cbv zeta. cbn [cond_Zopp].
    set (ez := Z.min e' (-52)).
    specialize (Hlt (- ez) ltac:(lia) ltac:(lia)).
    replace (e' + - ez) with (e' - ez) in Hlt by lia.
    change (Z.pos 4503599627370496) with (2 ^ 52).
    rewrite <- (Z.pow_add_r 2 52) by lia.
    replace (52 + (-52 - ez)) with (- ez) by lia.
    assert (0 < 2 ^ (e' - ez)) by (apply Z.pow_pos_nonneg; lia).
    assert (0 < Z.pos M * 2 ^ (e' - ez)) by (apply Z.mul_pos_pos; lia).
    apply round_sum; [lia|lia|]. lia.
Qed.

(** [Math.round] of a double between 1 and an integer [U]. *)
Lemma Math_round_range (x : float) (M : positive) (e U : Z) :
  Prim2SF x = S754_finite false M e -> e < 0 ->
  2 ^ (- e) <= Z.pos M <= U * 2 ^ (- e) ->
  exists q, 1 <= q <= U /\ Num.Math_round x = Num.of_Z q.
Proof.
  intros Hx He [Hlo Hhi]. unfold Num.Math_round. rewrite Hx.
  destruct (0 <=? e) eqn:E; [lia|]. cbv zeta. rewrite andb_false_r.
  eexists. split; [|reflexivity].
  rewrite Z.shiftl_1_l, Z.shiftr_div_pow2 by lia.
  replace (- e + 1) with (Z.succ (- e)) by lia. rewrite Z.pow_succ_r by lia.
  assert (HD : 0 < 2 ^ (- e)) by (apply Z.pow_pos_nonneg; lia).
  set (D := 2 ^ (- e)) in *. split.
  - apply Z.div_le_lower_bound; lia.
  - enough (H : (2 * Z.pos M + D) / (2 * D) < U + 1) by lia.
    apply Z.div_lt_upper_bound; lia.
Qed.

(** The default seed drawn from [Math.random()] with a factor [K]. *)
Lemma default_seed_integer (u : float) (K : Z) :
  inUnit u = true -> 1 <= K < 2 ^ 19 ->
  exists q, 1 <= q <= K + 1
            /\ Num.Math_round (u * Num.of_Z K + 1)%float = Num.of_Z q.
Proof.
  intros Hu HK.
  destruct (scaled_plus_one u K Hu HK) as (M & e & Hx & He & Hb).
  exact (Math_round_range _ M e (K + 1) Hx He Hb).
Qed.

(** * The claims *)

(** ** C1: embedding, then extracting *)

(** C1, as the code has it. If the slot selection of the embedding
    finishes and every value it draws is a pixel index of the image,
    embedding [T] under seed [S] and extracting under the same options
    gives [T]; every character code of [T] is at most 255 and [T] has
    fewer than [total - 64] bits. *)
Theorem roundtrip (Math_sin : float -> float) (u u' : float) (fuel : nat)
    (st : store) (img : ImageData) (T : jsstring) (S : float)
    (slots : list float) :
  wf_image st img ->
  Forall (fun c => 0 <= c <= 255) T ->
  Z.of_nat (length (stringToBinary T)) < totalPixels img - 64 ->
  selectSlots Math_sin fuel (length (stringToBinary T)) (createSeededRandom S)
    (Num.of_Z (totalPixels img)) [] = Some slots ->
  Forall (isPixel (totalPixels img)) slots ->
  exists st' out,
    applyInvisibleWatermark Math_sin u fuel st img (withSeed T S) = Some (st', out)
    /\ extractWatermark Math_sin u' fuel st' out (withSeed T S) = Some (Some T).
Proof.
  intros (d & Hd & Hlen & Hb) HT Hcap Hs Hpx.
  set (total := totalPixels img) in *.
  set (bits := stringToBinary T) in *.
  set (a1 := updates d (messageUpdates slots bits)).
  set (a2 := updates a1 (signatureUpdates total)).
  exists (st ++ [a2]),
    {| data := length st; width := width img; height := height img |}.
  split.
  - rewrite (applyInvisibleWatermark_eq Math_sin u fuel st img _ d Hd Hb).
    cbv zeta. cbn [applyConfig spread withSeed message randomSeed default
                   cfg_message cfg_randomSeed from_option id].
    fold bits. fold total. rewrite Hs, updates_app. reflexivity.
  - rewrite extractWatermark_eq. cbv zeta.
    cbn [extractConfig spread withSeed message randomSeed default
         cfg_message cfg_randomSeed from_option id data].
    change (totalPixels {| data := length st; width := width img; height := height img |})
      with total.
    fold bits. rewrite array_alloc.
    assert (Hb1 : Forall isByte a1) by (apply updates_bytes, Hb).
    assert (Hl1 : Z.of_nat (length a1) = 4 * total)
      by (unfold a1; rewrite length_updates; exact Hlen).
    assert (Hm : signatureMatch total (st ++ [a2]) (length st) = true).
    { apply signatureMatch_true_iff. intros i Hi. rewrite array_alloc.
      apply signature_readback; try assumption. lia. }
    rewrite Hm, Hs. cbn [negb]. do 2 f_equal.
    rewrite <- (binaryToString_stringToBinary T HT). fold bits. f_equal.
    apply (message_readback total slots bits d a2); try assumption.
    + apply (selectSlots_length _ _ _ _ _ _ _ Hs).
    + apply (distinct_channelIndex total); [|exact Hpx].
      apply (selectSlots_distinct Math_sin _ _ _ _ [] slots distinct_nil Hs).
    + apply stringToBinary_binary, HT.
    + intros j Hj. apply updates_get_other.
      intros Hin. apply signatureUpdates_index in Hin as (i & _ & ->).
      rewrite Z.add_comm, Z.mod_add in Hj by lia. discriminate.
Qed.

(** C1, witness: seed 42 on the 10x10 image, with the reference sine. *)
Lemma roundtrip_seed42 :
  selectSlots SinRef.sin 100 (length (stringToBinary (js "{}")))
    (createSeededRandom 42) (Num.of_Z (totalPixels img10)) [] = Some slots42
  /\ Forall (isPixel (totalPixels img10)) slots42
  /\ exists st' out,
       applyInvisibleWatermark SinRef.sin 0 100 white10 img10
         (withSeed (js "{}") 42) = Some (st', out)
       /\ extractWatermark SinRef.sin 0 100 st' out (withSeed (js "{}") 42)
          = Some (Some (js "{}")).
Proof.
  split; [exact slots42_eq|]. split; [exact slots42_pixels|].
  apply (roundtrip SinRef.sin 0 0 100 white10 img10 (js "{}") 42 slots42).
  - exact wf_white10.
  - exact braces_bytes.
  - reflexivity.
  - exact slots42_eq.
  - exact slots42_pixels.
Defined.

(** C1, counterexample. A 10x10 image, the text ["{}"] (16 bits, fewer
    than 100 - 64) and the integer seed 2^53: whatever [Math.sin] is, the
    embedding never returns, and there is nothing to extract from. *)
Lemma roundtrip_stalls_at_two53 :
  wf_image white10 img10
  /\ Forall (fun c => 0 <= c <= 255) (js "{}")
  /\ Z.of_nat (length (stringToBinary (js "{}"))) < totalPixels img10 - 64
  /\ Num.to_Z Num.two53 = Some (2 ^ 53)
  /\ ~ exists (Math_sin : float -> float) (u : float) (fuel : nat)
         (res : store * ImageData),
         applyInvisibleWatermark Math_sin u fuel white10 img10
           (withSeed (js "{}") Num.two53) = Some res.
Proof.
  split; [exact wf_white10|]. split; [exact braces_bytes|].
  split; [reflexivity|]. split; [reflexivity|].
  intros (Math_sin & u & fuel & res & H).
  rewrite (applyInvisibleWatermark_eq Math_sin u fuel white10 img10 _
             (repeat 255 400) eq_refl) in H
    by (apply repeat_bytes; unfold isByte; lia).
  cbv zeta in H.
  cbn [applyConfig spread withSeed message randomSeed default
       cfg_message cfg_randomSeed from_option id] in H.
  rewrite length_braces_bits in H.
  unfold createSeededRandom in H.
  rewrite (selectSlots_stuck Math_sin fuel 14 Num.two53 _ two53_stuck) in H.
  discriminate H.
Qed.

(** ** C2: the signature in the last 64 pixels *)

(** C2. Whatever the options, a returned image of at least 64 pixels
    carries bit [i] of the signature in the alpha bit of pixel
    [total - 64 + i], for [i] in 0..63: two embeddings of the same image,
    under any two seeds, agree on the alpha bits of the last 64 pixels. *)
Theorem signature_in_last_64 (Math_sin : float -> float) (u1 u2 : float)
    (fuel1 fuel2 : nat) (st st1 st2 : store) (img out1 out2 : ImageData)
    (options1 options2 : WatermarkOptions) :
  wf_image st img -> 64 <= totalPixels img ->
  applyInvisibleWatermark Math_sin u1 fuel1 st img options1 = Some (st1, out1) ->
  applyInvisibleWatermark Math_sin u2 fuel2 st img options2 = Some (st2, out2) ->
  forall i, 0 <= i < 64 ->
    alphaLSB st1 out1 (totalPixels img - 64 + i) = bitAt signature i
    /\ alphaLSB st2 out2 (totalPixels img - 64 + i)
       = alphaLSB st1 out1 (totalPixels img - 64 + i).
Proof.
  intros Hwf Htot H1 H2 i Hi.
  pose proof (alpha_signature Math_sin u1 fuel1 st st1 img out1 options1 i
                Hwf Htot H1 Hi) as E1.
  pose proof (alpha_signature Math_sin u2 fuel2 st st2 img out2 options2 i
                Hwf Htot H2 Hi) as E2.
  split; [exact E1|]. rewrite E1, E2. reflexivity.
Qed.

(** C2, witness: seeds 42 and 501 on the 10x10 image. *)
Lemma signature_seeds_42_501 :
  exists st1 out1 st2 out2,
    applyInvisibleWatermark SinRef.sin 0 100 white10 img10
      (withSeed (js "{}") 42) = Some (st1, out1)
    /\ applyInvisibleWatermark SinRef.sin 0 100 white10 img10
         (withSeed (js "{}") 501) = Some (st2, out2)
    /\ forall i, 0 <= i < 64 ->
         alphaLSB st1 out1 (totalPixels img10 - 64 + i) = bitAt signature i
         /\ alphaLSB st2 out2 (totalPixels img10 - 64 + i)
            = alphaLSB st1 out1 (totalPixels img10 - 64 + i).
Proof.
  destruct (applyInvisibleWatermark SinRef.sin 0 100 white10 img10
              (withSeed (js "{}") 42)) as [[st1 out1]|] eqn:H1;
    [|vm_compute in H1; discriminate H1].
  destruct (applyInvisibleWatermark SinRef.sin 0 100 white10 img10
              (withSeed (js "{}") 501)) as [[st2 out2]|] eqn:H2;
    [|vm_compute in H2; discriminate H2].
  exists st1, out1, st2, out2. split; [reflexivity|]. split; [reflexivity|].
  apply (signature_in_last_64 SinRef.sin 0 0 100 100 white10 st1 st2 img10
           out1 out2 _ _ wf_white10 ltac:(vm_compute; discriminate) H1 H2).
Defined.

(** ** C3: when extraction returns null *)

(** C3, as the code has it. [extractWatermark] returns [null] exactly when
    one of the 64 alpha bits it reads for the pixels
    [total - 64 .. total - 1] differs from the signature; when all 64
    match and the slot selection for the bits of [config.message]
    finishes, it returns a string, whatever the length of the message;
    when the selection does not finish, it does not return. *)
Theorem extract_null_iff_mismatch (Math_sin : float -> float) (u : float)
    (fuel : nat) (st : store) (img : ImageData) (options : WatermarkOptions) :
  let config := extractConfig u options in
  let selection :=
    selectSlots Math_sin fuel (length (stringToBinary (cfg_message config)))
      (createSeededRandom (cfg_randomSeed config))
      (Num.of_Z (totalPixels img)) [] in
  (extractWatermark Math_sin u fuel st img options = Some None
   <-> exists i, 0 <= i < 64
                 /\ alphaLSB st img (totalPixels img - 64 + i) <> bitAt signature i)
  /\ ((forall i, 0 <= i < 64 ->
         alphaLSB st img (totalPixels img - 64 + i) = bitAt signature i) ->
      (forall slots, selection = Some slots ->
         exists text,
           extractWatermark Math_sin u fuel st img options = Some (Some text))
      /\ (selection = None ->
          extractWatermark Math_sin u fuel st img options = None)).
Proof.
  intros config selection.
  rewrite extractWatermark_eq. cbv zeta. fold config. fold selection.
  destruct (signatureMatch (totalPixels img) st (data img)) eqn:Hm; cbn [negb].
  - pose proof (proj1 (signatureMatch_true_iff _ _ _) Hm) as Hall.
    split.
    + split.
      * destruct selection; discriminate.
      * intros (i & Hi & Hne). exfalso. apply Hne.
        rewrite alphaLSB_signatureIndex. apply Hall, Hi.
    + intros _. split.
      * intros slots ->. eauto.
      * intros ->. reflexivity.
  - split.
    + split; [|reflexivity]. intros _.
      unfold signatureMatch in Hm. rewrite signatureLength_eq in Hm.
      apply forallb_false_exists in Hm as (i & Hin & Hf).
      apply list_elem_of_In, elem_of_seqZ in Hin. exists i. split; [lia|].
      intros Heq. rewrite alphaLSB_signatureIndex in Heq.
      apply bool_decide_eq_false_1 in Hf. apply Hf.
      rewrite signature_chars by lia. f_equal.
      unfold Store.lsbChar, Store.read.
      fold (lsb (TA.get (Store.array st (data img))
                   (signatureIndex (totalPixels img) i))).
      rewrite Heq. unfold bitAt. destruct (isOne signature i); reflexivity.
    + intros Hall. exfalso.
      assert (Ht : signatureMatch (totalPixels img) st (data img) = true).
      { apply signatureMatch_true_iff. intros i Hi.
        rewrite <- alphaLSB_signatureIndex. apply Hall, Hi. }
      rewrite Ht in Hm. discriminate.
Qed.

(** C3, witness: the signed image, the message ["{}"] and seed 42. *)
Lemma extract_signed10_returns :
  (forall i, 0 <= i < 64 ->
     alphaLSB signed10 img10 (totalPixels img10 - 64 + i) = bitAt signature i)
  /\ exists text,
       extractWatermark SinRef.sin 0 100 signed10 img10 (withSeed (js "{}") 42)
       = Some (Some text).
Proof.
  split; [exact signed10_matches|].
  exact (proj1 (proj2 (extract_null_iff_mismatch SinRef.sin 0 100 signed10 img10
                         (withSeed (js "{}") 42)) signed10_matches)
           slots42 slots42_eq).
Defined.

(** C3, counterexample. All 64 signature bits match, and with seed 2^53
    [extractWatermark] returns neither [null] nor a string: its redraw
    loop never finishes, whatever [Math.sin] is. *)
Lemma extract_stalls_at_two53 :
  (forall i, 0 <= i < 64 ->
     alphaLSB signed10 img10 (totalPixels img10 - 64 + i) = bitAt signature i)
  /\ ~ exists (Math_sin : float -> float) (u : float) (fuel : nat)
         (res : option jsstring),
         extractWatermark Math_sin u fuel signed10 img10
           (withSeed (js "{}") Num.two53) = Some res.
Proof.
  split; [exact signed10_matches|].
  intros (Math_sin & u & fuel & res & H).
  rewrite extractWatermark_eq in H. cbv zeta in H.
  rewrite signatureMatch_signed10 in H. cbn [negb] in H.
  cbn [extractConfig spread withSeed message randomSeed default
       cfg_message cfg_randomSeed from_option id] in H.
  rewrite length_braces_bits in H. unfold createSeededRandom in H.
  rewrite (selectSlots_stuck Math_sin fuel 14 Num.two53 _ two53_stuck) in H.
  discriminate H.
Qed.

(** ** C4: the bit codec *)

(** C4. [stringToBinary] writes each character as the eight binary digits
    of its code, most significant first, in character order
    ([stringToBinary("AB")] is ["0100000101000010"]), and [binaryToString]
    undoes it on every text whose character codes are in 0..255. *)
Theorem bit_codec_roundtrip :
  stringToBinary (js "AB") = js "0100000101000010"
  /\ forall T : jsstring,
       Forall (fun c => 0 <= c <= 255) T ->
       stringToBinary T = flat_map byte_bits T
       /\ binaryToString (stringToBinary T) = T.
Proof.
  split; [reflexivity|].
  intros T H. split.
  - apply stringToBinary_bytes, H.
  - apply binaryToString_stringToBinary, H.
Qed.

(** C4, witness: the text ["AB"]. *)
Lemma bit_codec_roundtrip_AB :
  Forall (fun c => 0 <= c <= 255) (js "AB")
  /\ stringToBinary (js "AB") = flat_map byte_bits (js "AB")
  /\ binaryToString (stringToBinary (js "AB")) = js "AB".
Proof.
  assert (H : Forall (fun c => 0 <= c <= 255) (js "AB")).
  { change (js "AB") with [65; 66]. repeat (constructor; [lia|]). constructor. }
  split; [exact H|].
  exact (proj2 bit_codec_roundtrip (js "AB") H).
Defined.

(** ** C5: the seeded generator *)

(** C5, as the code has it. The [k+1]-th call of a generator created with
    seed [s] returns [x - Math.floor(x)] for [x = Math.sin(c) * 10000],
    where [c] is the counter before the increment of that call: [s] after
    [k] evaluations of [seed++]. For an integer seed [s >= 0] the [n]-th
    call ([n >= 1]) uses [s + n - 1], as long as this is at most 2^53. Two
    generators created with the same seed return the same sequence. *)
Theorem generator_calls (Math_sin : float -> float) (n : nat) :
  (forall s : float,
     calls Math_sin n (createSeededRandom s)
     = map (fun k => scaledFraction Math_sin (increments k s)) (seq 0 n))
  /\ (forall s : Z,
        (1 <= n)%nat -> 0 <= s -> s + Z.of_nat n - 1 <= 2 ^ 53 ->
        calls Math_sin n (createSeededRandom (Num.of_Z s)) !! (n - 1)%nat
        = Some (scaledFraction Math_sin (Num.of_Z (s + Z.of_nat n - 1))))
  /\ (forall s s' : float,
        s' = s ->
        calls Math_sin n (createSeededRandom s')
        = calls Math_sin n (createSeededRandom s)).
Proof.
  split; [intros s; apply calls_eq|]. split.
  - intros s Hn Hs Hmax. rewrite calls_eq. cbn [createSeededRandom counter].
    assert (Hk : seq 0 n !! (n - 1)%nat = Some (n - 1)%nat).
    { apply lookup_seq. lia. }
    rewrite (map_lookup _ _ _ _ Hk). do 2 f_equal.
    rewrite increments_exact by lia. f_equal. lia.
  - intros s s' ->. reflexivity.
Qed.

(** C5, witness: the third call from seed 42. *)
Lemma generator_calls_seed42 :
  calls SinRef.sin 3 (createSeededRandom (Num.of_Z 42)) !! 2%nat
  = Some (scaledFraction SinRef.sin (Num.of_Z (42 + 3 - 1)))
  /\ calls SinRef.sin 3 (createSeededRandom 42)
     = calls SinRef.sin 3 (createSeededRandom 42).
Proof.
  destruct (generator_calls SinRef.sin 3) as (_ & H1 & H2).
  split.
  - exact (H1 42 ltac:(lia) ltac:(lia) ltac:(lia)).
  - exact (H2 42%float 42%float eq_refl).
Defined.

(** C5, counterexample. From seed 2^53 the counter is still 2^53 at the
    third call, not 2^53 + 2: a sine that tells the two apart makes the
    third result differ from the fractional part of
    [sin(s + 3 - 1) * 10000]. *)
Lemma generator_saturates :
  counter (after SinRef.sin 2 (createSeededRandom Num.two53)) = Num.two53
  /\ (Num.of_Z (2 ^ 53 + 3 - 1) =? Num.two53)%float = false
  /\ ~ (forall (Math_sin : float -> float) (s : Z) (n : nat),
          (1 <= n)%nat ->
          calls Math_sin n (createSeededRandom (Num.of_Z s)) !! (n - 1)%nat
          = Some (scaledFraction Math_sin (Num.of_Z (s + Z.of_nat n - 1)))).
Proof.
  split; [reflexivity|]. split; [reflexivity|].
  intros H. specialize (H sin_two53 (2 ^ 53) 3%nat ltac:(lia)).
  apply (f_equal (fun o => match o with
                           | Some x => (x =? 0)%float
                           | None => false
                           end)) in H.
  vm_compute in H. discriminate H.
Qed.

(** ** C6: what the embedding leaves untouched *)

(** C6, as the code has it. A call that returns has left every array of the
    caller's store as it was and returns a fresh array. Each of its bytes
    keeps the seven high bits of the input's byte, and is the input's byte
    unless it is the blue byte of a drawn pixel or the alpha byte of one of
    the last 64 pixels: red and green are untouched everywhere, and alpha
    is untouched outside the last 64 pixels. *)
Theorem embedding_frame (Math_sin : float -> float) (u : float) (fuel : nat)
    (st st' : store) (img out : ImageData) (options : WatermarkOptions) :
  wf_image st img ->
  applyInvisibleWatermark Math_sin u fuel st img options = Some (st', out) ->
  (forall r, (r < length st)%nat -> st' !! r = st !! r)
  /\ data out = length st /\ width out = width img /\ height out = height img
  /\ exists slots,
       selectSlots Math_sin fuel
         (length (stringToBinary (cfg_message (applyConfig u options))))
         (createSeededRandom (cfg_randomSeed (applyConfig u options)))
         (Num.of_Z (totalPixels img)) [] = Some slots
       /\ forall p off v,
            0 <= off < 4 -> channel st img p off = Some v ->
            exists v',
              channel st' out p off = Some v'
              /\ Z.shiftr v' 1 = Z.shiftr v 1
              /\ (v' = v
                  \/ (off = 2 /\ exists q, q ∈ slots /\ Num.to_Z q = Some p)
                  \/ (off = 3 /\ totalPixels img - 64 <= p < totalPixels img)).
Proof.
  intros Hwf H.
  destruct (applyInvisibleWatermark_inv Math_sin u fuel st st' img out options Hwf H)
    as (d & slots & Hd & Hb & Hlen & Hs & -> & ->).
  split; [intros r Hr; apply lookup_app_l, Hr|].
  do 3 (split; [reflexivity|]).
  exists slots. split; [exact Hs|].
  intros p off v Hoff Hv.
  rewrite channel_array in Hv |- *. cbn [data]. rewrite array_alloc.
  rewrite (array_lookup _ _ _ Hd) in Hv.
  apply embedded_array_frame; assumption.
Qed.

(** C6, witness: seed 42 on the 10x10 image. *)
Lemma embedding_frame_seed42 :
  exists st' out,
    applyInvisibleWatermark SinRef.sin 0 100 white10 img10 (withSeed (js "{}") 42)
    = Some (st', out)
    /\ (forall r, (r < length white10)%nat -> st' !! r = white10 !! r)
    /\ data out = length white10.
Proof.
  destruct (applyInvisibleWatermark SinRef.sin 0 100 white10 img10
              (withSeed (js "{}") 42)) as [[st' out]|] eqn:H;
    [|vm_compute in H; discriminate H].
  exists st', out. split; [reflexivity|].
  destruct (embedding_frame SinRef.sin 0 100 white10 st' img10 out _ wf_white10 H)
    as (H1 & H2 & _).
  split; assumption.
Defined.

(** C6, counterexample. Pixel 78 is the first pixel drawn for seed 42, so
    it bears a message bit, and it is one of the last 64 pixels: its alpha
    byte goes from 255 to 254. *)
Lemma message_pixel_alpha_changes :
  exists st' out,
    applyInvisibleWatermark SinRef.sin 0 100 white10 img10 (withSeed (js "{}") 42)
    = Some (st', out)
    /\ selectSlots SinRef.sin 100 (length (stringToBinary (js "{}")))
         (createSeededRandom 42) (Num.of_Z (totalPixels img10)) [] = Some slots42
    /\ slots42 !! 0%nat = Some 78%float
    /\ channel white10 img10 78 3 = Some 255
    /\ channel st' out 78 3 = Some 254.
Proof.
  eexists _, _. split; [vm_compute; reflexivity|].
  split; [exact slots42_eq|]. split; [reflexivity|].
  split; vm_compute; reflexivity.
Qed.

(** ** C7: no pixel is drawn twice *)

(** C7, as the code has it. A pass whose loop finishes [k] iterations has
    drawn [k] numbers, no two of them the same element of the set
    [modifiedPixels], so no pixel index twice; the embedding loop and the
    extraction loop draw these same numbers. *)
Theorem slots_never_repeat (Math_sin : float -> float) (fuel k : nat)
    (seed total : float) (slots : list float) :
  selectSlots Math_sin fuel k (createSeededRandom seed) total [] = Some slots ->
  length slots = k
  /\ (forall (i j : nat) (p q : float),
        (i < j)%nat -> slots !! i = Some p -> slots !! j = Some q ->
        Num.SameValueZero q p = false /\ p <> q
        /\ forall z, Num.to_Z p = Some z -> Num.to_Z q <> Some z)
  /\ (forall (bits : jsstring) (st : store) (r : nat),
        length bits = k ->
        exists st',
          embedLoop Math_sin fuel bits (createSeededRandom seed) total [] st r
          = Some (st', slots))
  /\ (forall (st : store) (r : nat),
        exists extractedBinary,
          extractLoop Math_sin fuel k (createSeededRandom seed) total [] st r []
          = Some (extractedBinary, slots)).
Proof.
  intros Hs. split; [exact (selectSlots_length _ _ _ _ _ _ _ Hs)|].
  split; [|split].
  - intros i j p q Hij Hi Hj.
    pose proof (selectSlots_distinct Math_sin _ _ _ _ [] slots distinct_nil Hs) as Hd.
    pose proof (distinctNumbers_pairwise _ Hd i j p q Hij Hi Hj) as Hne.
    split; [exact Hne|]. split.
    + intros ->. rewrite SameValueZero_refl in Hne. discriminate.
    + intros z Hp Hq.
      rewrite (to_Z_SameValueZero q p z Hq Hp) in Hne. discriminate.
  - intros bits st r <-. rewrite embedLoop_selectSlots, Hs. eauto.
  - intros st r. rewrite extractLoop_selectSlots, Hs. eauto.
Qed.

(** C7, witness: the sixteen draws of seed 42. *)
Lemma slots_seed42_never_repeat :
  length slots42 = 16%nat
  /\ (forall (i j : nat) (p q : float),
        (i < j)%nat -> slots42 !! i = Some p -> slots42 !! j = Some q ->
        Num.SameValueZero q p = false /\ p <> q
        /\ forall z, Num.to_Z p = Some z -> Num.to_Z q <> Some z)
  /\ (forall (bits : jsstring) (st : store) (r : nat),
        length bits = 16%nat ->
        exists st',
          embedLoop SinRef.sin 100 bits (createSeededRandom 42) (Num.of_Z 100)
            [] st r = Some (st', slots42))
  /\ (forall (st : store) (r : nat),
        exists extractedBinary,
          extractLoop SinRef.sin 100 16 (createSeededRandom 42) (Num.of_Z 100)
            [] st r [] = Some (extractedBinary, slots42)).
Proof.
  exact (slots_never_repeat SinRef.sin 100 16 42 (Num.of_Z 100) slots42 slots42_eq).
Defined.

(** C7, counterexample. From seed 2^53 no second pixel is ever drawn,
    whatever [Math.sin] is; and from seed [Infinity] the one pixel drawn
    is NaN, which is no pixel index. *)
Lemma slots_stall_or_leave_range :
  (~ exists (Math_sin : float -> float) (fuel : nat) (slots : list float),
       selectSlots Math_sin fuel 2 (createSeededRandom Num.two53)
         (Num.of_Z 100) [] = Some slots)
  /\ selectSlots SinRef.sin 1 1 (createSeededRandom infinity) (Num.of_Z 100) []
     = Some [nan]
  /\ isPixelb 100 nan = false.
Proof.
  split; [|split; reflexivity].
  intros (Math_sin & fuel & slots & H). unfold createSeededRandom in H.
  rewrite (selectSlots_stuck Math_sin fuel 0 Num.two53 _ two53_stuck) in H.
  discriminate H.
Qed.

(** ** C8: default seeds *)

(** C8, as the code has it. With a [randomSeed] in the options, the results
    of both functions do not depend on what [Math.random()] returns in
    their [defaults]: equal inputs give equal outputs. *)
Theorem explicit_seed_reproducible (Math_sin : float -> float) (u1 u2 : float)
    (fuel : nat) (st : store) (img : ImageData) (options : WatermarkOptions)
    (seed : float) :
  randomSeed options = Some seed ->
  applyInvisibleWatermark Math_sin u1 fuel st img options
  = applyInvisibleWatermark Math_sin u2 fuel st img options
  /\ extractWatermark Math_sin u1 fuel st img options
     = extractWatermark Math_sin u2 fuel st img options.
Proof.
  intros Hs. split.
  - unfold applyInvisibleWatermark.
    fold (applyConfig u1 options). fold (applyConfig u2 options).
    replace (applyConfig u1 options) with (applyConfig u2 options);
      [reflexivity|].
    apply (spread_randomSeed _ _ _ seed Hs); reflexivity.
  - unfold extractWatermark.
    fold (extractConfig u1 options). fold (extractConfig u2 options).
    replace (extractConfig u1 options) with (extractConfig u2 options);
      [reflexivity|].
    apply (spread_randomSeed _ _ _ seed Hs); reflexivity.
Qed.

(** C8, witness: seed 42 and two results of [Math.random()]. *)
Lemma explicit_seed42_reproducible :
  applyInvisibleWatermark SinRef.sin 0x1.5p-5 100 white10 img10 (withSeed (js "{}") 42)
  = applyInvisibleWatermark SinRef.sin 0x1p-1 100 white10 img10 (withSeed (js "{}") 42)
  /\ extractWatermark SinRef.sin 0x1.5p-5 100 white10 img10 (withSeed (js "{}") 42)
     = extractWatermark SinRef.sin 0x1p-1 100 white10 img10 (withSeed (js "{}") 42).
Proof.
  exact (explicit_seed_reproducible SinRef.sin 0x1.5p-5 0x1p-1 100 white10 img10
           (withSeed (js "{}") 42) 42 eq_refl).
Defined.

(** C8, counterexample. Options without [randomSeed]: when [Math.random()]
    returns 0.041015625 the embedding runs with seed 42, when it returns
    0.5 with seed 501, and the two results differ (in the blue byte of
    pixel 78). *)
Lemma default_seed_not_reproducible :
  cfg_randomSeed (applyConfig 0x1.5p-5 (withoutSeed (js "{}"))) = 42%float
  /\ cfg_randomSeed (applyConfig 0x1p-1 (withoutSeed (js "{}"))) = 501%float
  /\ applyInvisibleWatermark SinRef.sin 0x1.5p-5 100 white10 img10
       (withoutSeed (js "{}"))
     <> applyInvisibleWatermark SinRef.sin 0x1p-1 100 white10 img10
          (withoutSeed (js "{}")).
Proof.
  split; [reflexivity|]. split; [reflexivity|].
  intros H.
  apply (f_equal (fun res : option (store * ImageData) =>
                    match res with
                    | Some (st', out) => channel st' out 78 2
                    | None => None
                    end)) in H.
  vm_compute in H. discriminate H.
Qed.

(** ** C9: the scenario of the 10x10 image *)

(** C9, as the code has it. On a 10x10 image, with the message ["{}"] and
    seed 42, an embedding whose 16 draws finish on pixels of the image
    writes the 16 message bits into the blue bits of 16 distinct pixels,
    writes the first 64 signature bits into the alpha bits of the pixels
    36 to 99, and leaves every other byte as it was. *)
Theorem scenario_10x10 (Math_sin : float -> float) (u : float) (fuel : nat)
    (st : store) (img : ImageData) (slots : list float) :
  wf_image st img -> width img = 10 -> height img = 10 ->
  selectSlots Math_sin fuel 16 (createSeededRandom 42) (Num.of_Z 100) []
  = Some slots ->
  Forall (isPixel 100) slots ->
  exists st' out,
    applyInvisibleWatermark Math_sin u fuel st img (withSeed (js "{}") 42)
    = Some (st', out)
    /\ length slots = 16%nat
    /\ NoDup (map Num.to_Z slots)
    /\ (forall (k : nat) (p : float) (z : Z),
          slots !! k = Some p -> Num.to_Z p = Some z ->
          blueLSB st' out z = bitAt (stringToBinary (js "{}")) (Z.of_nat k))
    /\ (forall p, 36 <= p < 100 -> alphaLSB st' out p = bitAt signature (p - 36))
    /\ (forall p off,
          0 <= p < 100 -> 0 <= off < 4 ->
          ~ (off = 2 /\ Some p ∈ map Num.to_Z slots) ->
          ~ (off = 3 /\ 36 <= p) ->
          channel st' out p off = channel st img p off).
Proof.
  intros Hwf Hw Hh Hs Hpx.
  assert (Htot : totalPixels img = 100)
    by (unfold totalPixels; rewrite Hw, Hh; reflexivity).
  rewrite <- Htot in Hs, Hpx. rewrite <- length_braces_bits in Hs.
  pose proof Hwf as (d & Hd & Hlen & Hb).
  set (bits := stringToBinary (js "{}")) in *.
  set (a2 := updates (updates d (messageUpdates slots bits))
               (signatureUpdates (totalPixels img))).
  set (out := {| data := length st; width := width img; height := height img |}).
  assert (Hap : applyInvisibleWatermark Math_sin u fuel st img (withSeed (js "{}") 42)
                = Some (st ++ [a2], out)).
  { rewrite (applyInvisibleWatermark_eq Math_sin u fuel st img _ d Hd Hb).
    cbv zeta. cbn [applyConfig spread withSeed message randomSeed default
                   cfg_message cfg_randomSeed from_option id].
    fold bits. rewrite Hs, updates_app. reflexivity. }
  exists (st ++ [a2]), out. split; [exact Hap|].
  split; [rewrite (selectSlots_length _ _ _ _ _ _ _ Hs); reflexivity|].
  split.
  { apply (distinct_to_Z (totalPixels img)); [|exact Hpx].
    apply (selectSlots_distinct Math_sin _ _ _ _ [] slots distinct_nil Hs). }
  split.
  { apply (embedded_blue_bits Math_sin u fuel st (st ++ [a2]) img out (js "{}")
             42 slots); assumption || exact braces_bytes. }
  split.
  { intros p Hp.
    pose proof (alpha_signature Math_sin u fuel st (st ++ [a2]) img out _ (p - 36)
                  Hwf ltac:(lia) Hap ltac:(lia)) as Ha.
    rewrite Htot in Ha. replace (100 - 64 + (p - 36)) with p in Ha by lia.
    exact Ha. }
  intros p off Hp Hoff Hblue Halpha.
  assert (Hin : 0 <= p * 4 + off < Z.of_nat (length d)) by lia.
  destruct (TA_get_in d _ Hin) as [v Hv].
  rewrite !channel_array. cbn [data out]. rewrite array_alloc.
  rewrite (array_lookup _ _ _ Hd), Hv.
  destruct (embedded_array_frame d slots bits (totalPixels img) p off v Hb Hoff Hv)
    as (v' & Hv' & _ & [->|[[-> (q & Hq & Hz)]|[-> Hr]]]).
  - exact Hv'.
  - exfalso. apply Hblue. split; [reflexivity|].
    rewrite <- Hz. apply list_elem_of_In, in_map, list_elem_of_In, Hq.
  - exfalso. apply Halpha. split; [reflexivity|lia].
Qed.

(** C9, witness: the reference sine draws the pixels [slots42]. *)
Lemma scenario_10x10_reference :
  exists st' out,
    applyInvisibleWatermark SinRef.sin 0 100 white10 img10 (withSeed (js "{}") 42)
    = Some (st', out)
    /\ length slots42 = 16%nat
    /\ NoDup (map Num.to_Z slots42)
    /\ (forall (k : nat) (p : float) (z : Z),
          slots42 !! k = Some p -> Num.to_Z p = Some z ->
          blueLSB st' out z = bitAt (stringToBinary (js "{}")) (Z.of_nat k))
    /\ (forall p, 36 <= p < 100 -> alphaLSB st' out p = bitAt signature (p - 36))
    /\ (forall p off,
          0 <= p < 100 -> 0 <= off < 4 ->
          ~ (off = 2 /\ Some p ∈ map Num.to_Z slots42) ->
          ~ (off = 3 /\ 36 <= p) ->
          channel st' out p off = channel white10 img10 p off).
Proof.
  exact (scenario_10x10 SinRef.sin 0 100 white10 img10 slots42 wf_white10
           eq_refl eq_refl slots42_eq slots42_pixels).
Defined.

(** C9, counterexample. On the 10x10 image of zero bytes the alpha byte
    of pixel 45, outside 36..44, goes from 0 to 1: it receives bit 9 of
    the signature. *)
Lemma scenario_alpha_beyond_44 :
  exists st' out,
    applyInvisibleWatermark SinRef.sin 0 100 black10 img10 (withSeed (js "{}") 42)
    = Some (st', out)
    /\ channel black10 img10 45 3 = Some 0
    /\ channel st' out 45 3 = Some 1
    /\ bitAt signature 9 = 1.
Proof.
  eexists _, _. split; [vm_compute; reflexivity|].
  split; [reflexivity|]. split; [vm_compute; reflexivity|reflexivity].
Qed.

(** ** C10: images of fewer than 64 pixels *)

(** C10, as the code has it. For an image of fewer than 64 pixels no
    guard runs: the signature loops compute a negative element index at
    each of their first [64 - total] iterations, where the write changes
    nothing and the read gives the bit 0; no index reaches [4 * total];
    and with at most 62 pixels [extractWatermark] returns [null] whatever
    the image holds. *)
Theorem small_image_signature (total : Z) :
  0 <= total < 64 ->
  (forall i, 0 <= i < 64 -> signatureIndex total i < 4 * total)
  /\ (forall i, 0 <= i < 64 - total ->
        signatureIndex total i < 0
        /\ (forall (st : store) (r : nat), writeSignatureBit total r st i = st)
        /\ (forall (st : store) (r : nat),
              Store.lsbChar st r (Some (signatureIndex total i)) = chr0))
  /\ (total <= 62 ->
      forall (Math_sin : float -> float) (u : float) (fuel : nat) (st : store)
             (img : ImageData) (options : WatermarkOptions),
        totalPixels img = total ->
        extractWatermark Math_sin u fuel st img options = Some None).
Proof.
  intros Ht. split; [intros i Hi; unfold signatureIndex; lia|]. split.
  - intros i Hi.
    assert (Hneg : signatureIndex total i < 0) by (unfold signatureIndex; lia).
    split; [exact Hneg|]. split.
    + intros st r. unfold writeSignatureBit, Store.or1, Store.andnot1.
      destruct (isOne signature i); apply store_write_negative, Hneg.
    + intros st r. unfold Store.lsbChar, Store.read.
      rewrite TA_get_negative by exact Hneg. reflexivity.
  - intros H62 Math_sin u fuel st img options Himg.
    rewrite extractWatermark_eq. cbv zeta.
    rewrite signatureMatch_small by lia. reflexivity.
Qed.

(** C10, witness: 36 pixels. *)
Lemma small_image_36 :
  (forall i, 0 <= i < 64 -> signatureIndex 36 i < 4 * 36)
  /\ (forall i, 0 <= i < 64 - 36 ->
        signatureIndex 36 i < 0
        /\ (forall (st : store) (r : nat), writeSignatureBit 36 r st i = st)
        /\ (forall (st : store) (r : nat),
              Store.lsbChar st r (Some (signatureIndex 36 i)) = chr0))
  /\ (36 <= 62 ->
      forall (Math_sin : float -> float) (u : float) (fuel : nat) (st : store)
             (img : ImageData) (options : WatermarkOptions),
        totalPixels img = 36 ->
        extractWatermark Math_sin u fuel st img options = Some None).
Proof.
  exact (small_image_signature 36 ltac:(lia)).
Defined.

(** C10, counterexample. A 6x6 image has 36 pixels: the first iteration of
    the signature loops addresses element -109, and the image that
    [applyInvisibleWatermark] returns is read by [extractWatermark] as not
    watermarked. *)
Lemma small_image_negative_index :
  totalPixels img6 = 36
  /\ signatureIndex (totalPixels img6) 0 = -109
  /\ exists st' out,
       applyInvisibleWatermark SinRef.sin 0 100 white6 img6 (withSeed (js "{}") 42)
       = Some (st', out)
       /\ extractWatermark SinRef.sin 0 100 st' out (withSeed (js "{}") 42)
          = Some None.
Proof.
  split; [reflexivity|]. split; [reflexivity|].
  eexists _, _. split; [vm_compute; reflexivity|].
  vm_compute. reflexivity.
Qed.

(** * Further properties of the code *)

(** ** Drawn pixels stay inside the image *)

(** X1. [Math.floor(random() * totalPixels)] is a pixel of the image
    whenever the generator's outputs are in [0, 1): every value a finished
    slot selection has drawn is an integer in [0, totalPixels), and the
    blue byte it addresses is an element of the array. *)
Theorem drawn_pixels_in_range (Math_sin : float -> float) (fuel k : nat)
    (seed : float) (N : Z) (slots : list float) :
  1 <= N < 2 ^ 53 ->
  inUnitUpTo Math_sin seed (fuel * k) = true ->
  selectSlots Math_sin fuel k (createSeededRandom seed) (Num.of_Z N) [] = Some slots ->
  Forall (isPixel N) slots
  /\ forall p, p ∈ slots ->
       exists z, channelIndex p 2 = Some (z * 4 + 2) /\ 0 <= z * 4 + 2 < 4 * N.
Proof.
  intros HN Hu Hs.
  pose proof (selectSlots_pixels Math_sin fuel k seed N slots HN Hu Hs) as Hp.
  split; [exact Hp|].
  intros p Hin. rewrite Forall_forall in Hp.
  destruct (isPixel_channelIndex N p 2 (Hp p Hin)) as (z & Hz & Hr).
  exists z. split; [exact Hz|lia].
Qed.

(** X1, witness: the sixteen draws of seed 42 among 100 pixels. *)
Lemma drawn_pixels_in_range_seed42 :
  Forall (isPixel 100) slots42
  /\ forall p, p ∈ slots42 ->
       exists z, channelIndex p 2 = Some (z * 4 + 2) /\ 0 <= z * 4 + 2 < 4 * 100.
Proof.
  apply (drawn_pixels_in_range SinRef.sin 100 16 42 100 slots42).
  - lia.
  - vm_compute. reflexivity.
  - exact slots42_eq.
Defined.

(** ** Capacity *)

(** X2. The message loop has no capacity check: with generator outputs
    in [0, 1), a message of more bits than the image has pixels is never
    embedded, the redraw loop does not finish. *)
Theorem embedding_capacity (Math_sin : float -> float) (u : float) (fuel : nat)
    (st : store) (img : ImageData) (options : WatermarkOptions) :
  let config := applyConfig u options in
  let k := length (stringToBinary (cfg_message config)) in
  wf_image st img ->
  1 <= totalPixels img < 2 ^ 53 ->
  inUnitUpTo Math_sin (cfg_randomSeed config) (fuel * k) = true ->
  totalPixels img < Z.of_nat k ->
  applyInvisibleWatermark Math_sin u fuel st img options = None.
Proof.
  intros config k (d & Hd & Hlen & Hb) HN Hu Hk.
  rewrite (applyInvisibleWatermark_eq Math_sin u fuel st img options d Hd Hb).
  cbv zeta. fold config. fold k.
  destruct (selectSlots Math_sin fuel k (createSeededRandom (cfg_randomSeed config))
              (Num.of_Z (totalPixels img)) []) as [slots|] eqn:Hs; [|reflexivity].
  exfalso.
  pose proof (selectSlots_pixels Math_sin fuel k _ _ slots HN Hu Hs) as Hp.
  pose proof (selectSlots_distinct Math_sin _ _ _ _ [] slots distinct_nil Hs) as Hdist.
  pose proof (distinct_pixels_count _ slots Hdist Hp) as Hc.
  rewrite (selectSlots_length Math_sin _ _ _ _ _ _ Hs) in Hc. lia.
Qed.

(** X2, witness: sixteen bits into an image of one pixel. *)
Lemma embedding_capacity_one_pixel :
  applyInvisibleWatermark SinRef.sin 0 10 [[255; 255; 255; 255]]
    {| data := 0; width := 1; height := 1 |} (withSeed (js "{}") 42) = None.
Proof.
  apply embedding_capacity.
  - exists [255; 255; 255; 255]. split; [reflexivity|]. split; [reflexivity|].
    repeat (constructor; [unfold isByte; lia|]). constructor.
  - vm_compute. split; [discriminate|reflexivity].
  - vm_compute. reflexivity.
  - vm_compute. reflexivity.
Defined.

(** ** The message of the extraction options *)

(** X3. [extractWatermark] uses [config.message] for its length only.
    On an image of at least 63 pixels that carries [T], extracting with
    the same seed and any message [T'] of one-byte characters that is not
    longer than [T] returns the first [T'.length] characters of [T]; with
    [T'] as long as [T] this is [T], also when message bits were drawn
    among the last 64 pixels. *)
Theorem extract_shorter_message (Math_sin : float -> float) (u u' : float)
    (fuel : nat) (st : store) (img : ImageData) (T T' : jsstring) (S : float)
    (slots : list float) :
  wf_image st img ->
  63 <= totalPixels img ->
  Forall isByte T -> Forall isByte T' ->
  (length T' <= length T)%nat ->
  selectSlots Math_sin fuel (length (stringToBinary T)) (createSeededRandom S)
    (Num.of_Z (totalPixels img)) [] = Some slots ->
  Forall (isPixel (totalPixels img)) slots ->
  exists st' out,
    applyInvisibleWatermark Math_sin u fuel st img (withSeed T S) = Some (st', out)
    /\ extractWatermark Math_sin u' fuel st' out (withSeed T' S)
       = Some (Some (firstn (length T') T)).
Proof.
  intros (d & Hd & Hlen & Hb) HN HT HT' Hle Hs Hpx.
  set (total := totalPixels img) in *.
  set (bits := stringToBinary T) in *.
  set (a1 := updates d (messageUpdates slots bits)).
  set (a2 := updates a1 (signatureUpdates total)).
  exists (st ++ [a2]),
    {| data := length st; width := width img; height := height img |}.
  split.
  - rewrite (applyInvisibleWatermark_eq Math_sin u fuel st img _ d Hd Hb).
    cbv zeta. cbn [applyConfig spread withSeed message randomSeed default
                   cfg_message cfg_randomSeed from_option id].
    fold bits. fold total. rewrite Hs, updates_app. reflexivity.
  - rewrite extractWatermark_eq. cbv zeta.
    cbn [extractConfig spread withSeed message randomSeed default
         cfg_message cfg_randomSeed from_option id data].
    change (totalPixels {| data := length st; width := width img; height := height img |})
      with total.
    rewrite array_alloc.
    assert (Hb1 : Forall isByte a1) by (apply updates_bytes, Hb).
    assert (Hl1 : Z.of_nat (length a1) = 4 * total)
      by (unfold a1; rewrite length_updates; exact Hlen).
    assert (Hm : signatureMatch total (st ++ [a2]) (length st) = true).
    { apply signatureMatch_true_iff. intros i Hi. rewrite array_alloc.
      apply signature_readback_63; assumption. }
    rewrite Hm. cbn [negb].
    assert (Hk : length bits
                 = (length (stringToBinary T') + 8 * (length T - length T'))%nat).
    { unfold bits. rewrite !length_stringToBinary by assumption. lia. }
    rewrite Hk in Hs.
    rewrite (selectSlots_prefix Math_sin fuel _ _ _ _ _ slots Hs).
    do 2 f_equal.
    rewrite <- (binaryToString_stringToBinary (firstn (length T') T))
      by (apply Forall_take; exact HT).
    f_equal.
    rewrite (stringToBinary_bytes (firstn (length T') T))
      by (apply Forall_take; exact HT).
    rewrite <- firstn_flat_map_byte_bits, <- (stringToBinary_bytes T HT).
    rewrite (length_stringToBinary T' HT').
    rewrite <- firstn_map. f_equal. fold bits.
    rewrite <- Hk in Hs.
    apply (message_readback total slots bits d a2); try assumption.
    + apply (selectSlots_length _ _ _ _ _ _ _ Hs).
    + apply (distinct_channelIndex total); [|exact Hpx].
      apply (selectSlots_distinct Math_sin _ _ _ _ [] slots distinct_nil Hs).
    + apply stringToBinary_binary, HT.
    + intros j Hj. apply updates_get_other.
      intros Hin. apply signatureUpdates_index in Hin as (i & _ & ->).
      rewrite Z.add_comm, Z.mod_add in Hj by lia. discriminate.
Qed.

(** X3, witness: ["{}"] embedded in the 10x10 image, extracted with the
    options of a one-character message. *)
Lemma extract_shorter_message_seed42 :
  exists st' out,
    applyInvisibleWatermark SinRef.sin 0 100 white10 img10 (withSeed (js "{}") 42)
    = Some (st', out)
    /\ extractWatermark SinRef.sin 0 100 st' out (withSeed (js "?") 42)
       = Some (Some (firstn (length (js "?")) (js "{}"))).
Proof.
  apply (extract_shorter_message SinRef.sin 0 0 100 white10 img10
           (js "{}") (js "?") 42 slots42).
  - exact wf_white10.
  - vm_compute. discriminate.
  - exact braces_bytes.
  - change (Forall isByte [63]).
    repeat (constructor; [unfold isByte; lia|]). constructor.
  - simpl. lia.
  - exact slots42_eq.
  - exact slots42_pixels.
Defined.

(** ** Seeds the counter cannot leave *)

(** X4. Where [seed++] leaves the counter unchanged (2^53, the
    infinities, NaN), the generator repeats one value: for every non-empty
    message the embedding never returns, and the extraction never returns
    a string. *)
Theorem stalled_seed (Math_sin : float -> float) (u : float) (fuel : nat)
    (st : store) (img : ImageData) (T : jsstring) (c : float) :
  (c + 1)%float = c -> T <> [] ->
  applyInvisibleWatermark Math_sin u fuel st img (withSeed T c) = None
  /\ forall text,
       extractWatermark Math_sin u fuel st img (withSeed T c) <> Some (Some text).
Proof.
  intros Hc HT.
  assert (Hk : exists k, length (stringToBinary T) = S (S k)).
  { destruct T as [|x T]; [contradiction|].
    pose proof (length_stringToBinary_ge (x :: T)) as H. cbn [length] in H.
    exists (length (stringToBinary (x :: T)) - 2)%nat. lia. }
  destruct Hk as [k Hk]. split.
  - unfold applyInvisibleWatermark, Store.alloc.
    cbn [spread withSeed message randomSeed default cfg_message cfg_randomSeed
         from_option id].
    rewrite embedLoop_selectSlots, Hk. unfold createSeededRandom.
    rewrite (selectSlots_stuck Math_sin fuel k c _ Hc). reflexivity.
  - intros text. rewrite extractWatermark_eq. cbv zeta.
    cbn [extractConfig spread withSeed message randomSeed default cfg_message
         cfg_randomSeed from_option id].
    rewrite Hk. unfold createSeededRandom.
    rewrite (selectSlots_stuck Math_sin fuel k c _ Hc).
    destruct (negb _); discriminate.
Qed.

(** X4, witness: seed [Infinity] on the 10x10 image. *)
Lemma stalled_seed_infinity :
  applyInvisibleWatermark SinRef.sin 0 100 white10 img10
    (withSeed (js "{}") infinity) = None
  /\ forall text,
       extractWatermark SinRef.sin 0 100 white10 img10
         (withSeed (js "{}") infinity) <> Some (Some text).
Proof.
  apply stalled_seed.
  - reflexivity.
  - discriminate.
Defined.

(** ** The empty message *)

(** X5. With the empty message nothing is drawn: the embedding returns
    for every seed, it writes the signature only (the red, green and blue
    bytes are those of the input), and on an image of at least 63 pixels
    the extraction with the empty message returns the empty string,
    whatever the seeds. *)
Theorem empty_message (Math_sin : float -> float) (u u' : float)
    (fuel fuel' : nat) (st : store) (img : ImageData) (S S' : float) :
  wf_image st img ->
  exists st' out,
    applyInvisibleWatermark Math_sin u fuel st img (withSeed [] S) = Some (st', out)
    /\ (forall p off, 0 <= off < 3 ->
          channel st' out p off = channel st img p off)
    /\ (63 <= totalPixels img ->
        extractWatermark Math_sin u' fuel' st' out (withSeed [] S') = Some (Some [])).
Proof.
  intros (d & Hd & Hlen & Hb).
  set (total := totalPixels img) in *.
  set (a := updates d (signatureUpdates total)).
  exists (st ++ [a]),
    {| data := length st; width := width img; height := height img |}.
  split; [|split].
  - rewrite (applyInvisibleWatermark_eq Math_sin u fuel st img _ d Hd Hb).
    reflexivity.
  - intros p off Hoff. rewrite !channel_array. cbn [data].
    rewrite array_alloc, (array_lookup st _ d Hd).
    apply updates_get_other.
    intros Hin. apply signatureUpdates_index in Hin as (i & _ & Hi). lia.
  - intros HN. rewrite extractWatermark_eq. cbv zeta.
    cbn [extractConfig spread withSeed message randomSeed default cfg_message
         cfg_randomSeed from_option id data].
    change (totalPixels {| data := length st; width := width img; height := height img |})
      with total.
    assert (Hm : signatureMatch total (st ++ [a]) (length st) = true).
    { apply signatureMatch_true_iff. intros i Hi. rewrite array_alloc.
      apply signature_readback_63; assumption. }
    rewrite Hm. reflexivity.
Qed.

(** X5, witness: no fuel at all and the seed [Infinity]. *)
Lemma empty_message_no_fuel :
  exists st' out,
    applyInvisibleWatermark SinRef.sin 0 0 white10 img10 (withSeed [] infinity)
    = Some (st', out)
    /\ (forall p off, 0 <= off < 3 ->
          channel st' out p off = channel white10 img10 p off)
    /\ (63 <= totalPixels img10 ->
        extractWatermark SinRef.sin 0 0 st' out (withSeed [] 42) = Some (Some [])).
Proof.
  apply (empty_message SinRef.sin 0 0 0 0 white10 img10 infinity 42).
  exact wf_white10.
Defined.

(** ** The bit codec beyond the round trip *)

(** X6. [binaryToString] never rejects its input: it returns one
    character for every window of eight characters, the last window
    being shorter when the length is no multiple of eight; the character
    is [String.fromCharCode(parseInt(window, 2))], and it is U+0000 for
    a window that [parseInt] cannot read. *)
Theorem binaryToString_windows (binary : jsstring) :
  length (binaryToString binary) = ((length binary + 7) / 8)%nat
  /\ (forall i : nat,
        (i < (length binary + 7) / 8)%nat ->
        binaryToString binary !! i
        = Some (Str.fromCharCode
                  (Str.parseInt2 (Str.substring (8 * i) (8 * i + 8) binary))))
  /\ (forall (c : Z) (w : jsstring),
        c <> chr0 -> c <> chr1 -> c <> 43 -> c <> 45 ->
        Str.isWhiteSpace c = false ->
        Str.fromCharCode (Str.parseInt2 (c :: w)) = 0).
Proof.
  split; [apply length_binaryToString|]. split.
  - intros i Hi. rewrite binaryToString_closed.
    apply (map_lookup
             (fun i => Str.fromCharCode
                         (Str.parseInt2 (Str.substring (8 * i) (8 * i + 8) binary)))
             _ i i).
    apply (lookup_seq_lt 0). exact Hi.
  - intros c w H0 H1 Hp Hm Hw.
    rewrite parseInt2_NaN by assumption. reflexivity.
Qed.

(** X6, witness: nine characters, the second window is ["x"]. *)
Lemma binaryToString_windows_nine :
  binaryToString (js "01000001x") !! 1%nat
  = Some (Str.fromCharCode
            (Str.parseInt2 (Str.substring (8 * 1) (8 * 1 + 8) (js "01000001x"))))
  /\ Str.fromCharCode (Str.parseInt2 (js "x")) = 0.
Proof.
  destruct (binaryToString_windows (js "01000001x")) as (_ & Hi & Hc).
  split.
  - apply (Hi 1%nat). vm_compute. lia.
  - apply (Hc 120 []); [unfold chr0; lia|unfold chr1; lia|lia|lia|reflexivity].
Defined.

(** X7. Both directions of the codec work piece by piece:
    [stringToBinary] of a concatenation is the concatenation of the
    encodings, and [binaryToString] of a concatenation is the
    concatenation of the decodings when the first part consists of whole
    windows of eight. *)
Theorem codec_concatenation :
  (forall s t : jsstring,
     stringToBinary (s ++ t) = stringToBinary s ++ stringToBinary t)
  /\ (forall (b1 b2 : jsstring) (n : nat),
        length b1 = (8 * n)%nat ->
        binaryToString (b1 ++ b2) = binaryToString b1 ++ binaryToString b2).
Proof.
  split.
  - intros s t. rewrite !stringToBinary_flat_map. apply flat_map_app.
  - exact binaryToString_app.
Qed.

(** X7, witness: one window in front of a partial window. *)
Lemma codec_concatenation_windows :
  binaryToString (js "01000001" ++ js "101")
  = binaryToString (js "01000001") ++ binaryToString (js "101").
Proof.
  apply (proj2 codec_concatenation _ _ 1%nat). reflexivity.
Defined.

(** X8. Decoding is also inverted by encoding: for a string of binary
    digits whose length is a multiple of eight, every decoded character
    is a byte and [stringToBinary (binaryToString b)] is [b]. *)
Theorem encode_after_decode (b : jsstring) (n : nat) :
  length b = (8 * n)%nat ->
  Forall (fun c => c = chr0 \/ c = chr1) b ->
  Forall (fun c => 0 <= c <= 255) (binaryToString b)
  /\ stringToBinary (binaryToString b) = b.
Proof.
  revert b. induction n as [|n IH]; intros b Hl Hb.
  - destruct b; [|discriminate]. split; [constructor|reflexivity].
  - rewrite <- (firstn_skipn 8 b) in Hb |- *.
    apply Forall_app in Hb as [Hb1 Hb2].
    assert (Hl1 : length (firstn 8 b) = 8%nat) by (rewrite length_firstn; lia).
    assert (Hl2 : length (skipn 8 b) = (8 * n)%nat) by (rewrite length_skipn; lia).
    destruct (IH _ Hl2 Hb2) as [IHb IHe].
    destruct (binary_window_byte _ Hl1 Hb1) as (c & Hc & Hw).
    rewrite (binaryToString_app _ _ 1%nat) by exact Hl1.
    rewrite (binaryToString_window _ Hl1), Hw, parseInt2_byte_bits by exact Hc.
    cbn [app]. split; [constructor; assumption|].
    rewrite stringToBinary_cons, IHe, encodeChar_byte by exact Hc. reflexivity.
Qed.

(** X8, witness: sixteen digits. *)
Lemma encode_after_decode_AB :
  Forall (fun c => 0 <= c <= 255) (binaryToString (js "0100000101000010"))
  /\ stringToBinary (binaryToString (js "0100000101000010"))
     = js "0100000101000010".
Proof.
  apply (encode_after_decode (js "0100000101000010") 2).
  - reflexivity.
  - change (js "0100000101000010")
      with [chr0; chr1; chr0; chr0; chr0; chr0; chr0; chr1;
            chr0; chr1; chr0; chr0; chr0; chr0; chr1; chr0].
    repeat (constructor; [auto|]). constructor.
Defined.

(** X9. The bound of the round trip is sharp: for a string of
    non-negative character codes, [binaryToString (stringToBinary T)] is
    [T] exactly when every code is at most 255; a larger code is written
    with more than eight digits and shifts the windows. *)
Theorem roundtrip_iff_bytes (T : jsstring) :
  Forall (fun c => 0 <= c) T ->
  (binaryToString (stringToBinary T) = T <-> Forall (fun c => 0 <= c <= 255) T).
Proof.
  intros Hpos. split.
  - intros Hrt.
    destruct (decide (Forall (fun c => 0 <= c <= 255) T)) as [H|H]; [exact H|].
    exfalso.
    pose proof (length_stringToBinary_wide T Hpos H) as Hw.
    pose proof (length_binaryToString (stringToBinary T)) as Hl.
    rewrite Hrt in Hl.
    assert (length T + 1 <= (length (stringToBinary T) + 7) / 8)%nat; [|lia].
    apply Nat.div_le_lower_bound; lia.
  - apply binaryToString_stringToBinary.
Qed.

(** X9, witness: the character U+0100 comes back as two characters. *)
Lemma roundtrip_iff_bytes_wide :
  (binaryToString (stringToBinary [256]) = [256]
   <-> Forall (fun c => 0 <= c <= 255) [256])
  /\ binaryToString (stringToBinary [256]) = [128; 0].
Proof.
  split; [|reflexivity].
  apply roundtrip_iff_bytes. repeat constructor. lia.
Defined.

(** ** Embedding twice *)



(** ** What the extraction reads *)

(** X11. [extractWatermark] reads the blue and the alpha least
    significant bits only: two images of the same size that agree on
    these bits give the same result, whatever their other bits and
    channels are. *)
Theorem extraction_reads_lsbs (Math_sin : float -> float) (u : float)
    (fuel : nat) (st1 st2 : store) (img1 img2 : ImageData)
    (options : WatermarkOptions) :
  totalPixels img1 = totalPixels img2 ->
  (forall p, blueLSB st1 img1 p = blueLSB st2 img2 p) ->
  (forall p, alphaLSB st1 img1 p = alphaLSB st2 img2 p) ->
  extractWatermark Math_sin u fuel st1 img1 options
  = extractWatermark Math_sin u fuel st2 img2 options.
Proof.
  intros HN Hblue Halpha.
  assert (Hal : forall i,
             lsb (TA.get (Store.array st1 (data img1))
                         (signatureIndex (totalPixels img1) i))
             = lsb (TA.get (Store.array st2 (data img2))
                           (signatureIndex (totalPixels img1) i))).
  { intros i. rewrite <- (alphaLSB_signatureIndex st1 img1 i), Halpha, HN.
    apply alphaLSB_signatureIndex. }
  rewrite !extractWatermark_eq. cbv zeta. rewrite <- HN.
  assert (Hm : signatureMatch (totalPixels img1) st1 (data img1)
               = signatureMatch (totalPixels img1) st2 (data img2)).
  { apply eq_true_iff_eq. rewrite !signatureMatch_true_iff.
    split; intros H i Hi.
    - rewrite <- Hal. apply H, Hi.
    - rewrite Hal. apply H, Hi. }
  rewrite Hm. destruct (negb _); [reflexivity|].
  destruct (selectSlots _ _ _ _ _ _) as [slots|]; [|reflexivity].
  do 3 f_equal. apply map_ext. intros p.
  unfold lsbCharOf, channelIndex. destruct (Num.to_Z p) as [z|]; [|reflexivity].
  specialize (Hblue z). unfold blueLSB in Hblue. rewrite !channel_array in Hblue.
  rewrite Hblue. reflexivity.
Qed.

(** X11, witness: the signed 10x10 image and a second one whose bytes
    are 1 instead of 255. *)
Lemma extraction_reads_lsbs_signed10 :
  extractWatermark SinRef.sin 0 100 signed10 img10 (withSeed (js "{}") 42)
  = extractWatermark SinRef.sin 0 100
      [updates (repeat 1 400) (signatureUpdates 100)] img10 (withSeed (js "{}") 42).
Proof.
  apply extraction_reads_lsbs.
  - reflexivity.
  - intros p. unfold blueLSB. rewrite !channel_array.
    apply lsb_updates_repeat; [unfold isByte; lia|unfold isByte; lia|reflexivity].
  - intros p. unfold alphaLSB. rewrite !channel_array.
    apply lsb_updates_repeat; [unfold isByte; lia|unfold isByte; lia|reflexivity].
Defined.

(** X12. The first bit of the signature is 0: an image whose pixel
    [totalPixels - 64] has an odd alpha byte, as every fully opaque image
    has, is reported as not watermarked, whatever the options, and the
    generator is not run. *)
Theorem opaque_image_gives_null (Math_sin : float -> float) (u : float)
    (fuel : nat) (st : store) (img : ImageData) (options : WatermarkOptions) :
  alphaLSB st img (totalPixels img - 64) = 1 ->
  extractWatermark Math_sin u fuel st img options = Some None.
Proof.
  intros Ha. rewrite extractWatermark_eq. cbv zeta.
  destruct (signatureMatch (totalPixels img) st (data img)) eqn:Hm; [|reflexivity].
  exfalso.
  pose proof (proj1 (signatureMatch_true_iff _ _ _) Hm 0 ltac:(lia)) as H0.
  rewrite <- alphaLSB_signatureIndex in H0.
  replace (totalPixels img - 64 + 0) with (totalPixels img - 64) in H0 by lia.
  rewrite Ha in H0. vm_compute in H0. discriminate H0.
Qed.

(** X12, witness: the all-255 image of 10x10 pixels, without fuel. *)
Lemma opaque_white10_gives_null :
  extractWatermark SinRef.sin 0 0 white10 img10 (withSeed (js "{}") 42) = Some None.
Proof.
  apply opaque_image_gives_null. reflexivity.
Defined.

(** ** The option [strength] *)

(** X13. Neither function reads [config.strength]: options that differ
    in [strength] only give the same results. *)
Theorem strength_is_ignored (Math_sin : float -> float) (u : float) (fuel : nat)
    (st : store) (img : ImageData) (options : WatermarkOptions)
    (s : option float) :
  let options' := {| strength := s; message := message options;
                     randomSeed := randomSeed options |} in
  applyInvisibleWatermark Math_sin u fuel st img options'
  = applyInvisibleWatermark Math_sin u fuel st img options
  /\ extractWatermark Math_sin u fuel st img options'
     = extractWatermark Math_sin u fuel st img options.
Proof.
  destruct options as [s0 m r]. split; reflexivity.
Qed.

(** ** What the extraction returns *)

(** X14. A string returned by [extractWatermark] is determined in shape
    by the options alone: it has one character for every eight bits of
    [stringToBinary(config.message)] (the last bits counting as eight), so
    as many characters as [config.message] when that consists of one-byte
    characters, and every character it holds has a code in [0, 255]. *)
Theorem extracted_text_shape (Math_sin : float -> float) (u : float)
    (fuel : nat) (st : store) (img : ImageData) (options : WatermarkOptions)
    (text : jsstring) :
  let T := cfg_message (extractConfig u options) in
  extractWatermark Math_sin u fuel st img options = Some (Some text) ->
  length text = ((length (stringToBinary T) + 7) / 8)%nat
  /\ Forall (fun c => 0 <= c <= 255) text
  /\ (Forall (fun c => 0 <= c <= 255) T -> length text = length T).
Proof.
  intros T H. rewrite extractWatermark_eq in H. cbv zeta in H. fold T in H.
  destruct (negb _); [discriminate|].
  destruct (selectSlots _ _ _ _ _ _) as [slots|] eqn:Hs; [|discriminate].
  injection H as <-.
  set (b := map _ slots).
  assert (Hlen : length b = length (stringToBinary T)).
  { unfold b. rewrite length_map. apply (selectSlots_length _ _ _ _ _ _ _ Hs). }
  assert (Hb : Forall (fun c => c = chr0 \/ c = chr1) b).
  { unfold b. apply Forall_forall. intros c Hc.
    apply list_elem_of_In, in_map_iff in Hc as (p & <- & _).
    unfold lsbCharOf. destruct (_ =? 1); auto. }
  split; [|split].
  - rewrite length_binaryToString, Hlen. reflexivity.
  - apply binaryToString_bytes, Hb.
  - intros HT. rewrite length_binaryToString, Hlen, (length_stringToBinary T HT).
    symmetry. apply Nat.div_unique with 7%nat; lia.
Qed.

(** X14, witness: the signed 10x10 image read with a two-character
    message. *)
Lemma extracted_text_shape_signed10 :
  exists text,
    extractWatermark SinRef.sin 0 100 signed10 img10 (withSeed (js "{}") 42)
    = Some (Some text)
    /\ length text = 2%nat
    /\ Forall (fun c => 0 <= c <= 255) text.
Proof.
  destruct (extractWatermark SinRef.sin 0 100 signed10 img10 (withSeed (js "{}") 42))
    as [[text|]|] eqn:H.
  - exists text. split; [reflexivity|].
    destruct (extracted_text_shape SinRef.sin 0 100 signed10 img10
                (withSeed (js "{}") 42) text H) as (_ & Hb & Hl).
    split; [|exact Hb]. apply Hl. exact braces_bytes.
  - exfalso. vm_compute in H. discriminate H.
  - exfalso. vm_compute in H. discriminate H.
Defined.

(** ** Recognising an embedded image *)

(** X15. What [applyInvisibleWatermark] returns for an image of at least
    63 pixels is always recognised: [extractWatermark] never answers
    [null] on it, whatever options, seed or message it is given.  (With 63
    pixels the first signature bit is read in front of the array, as 0,
    which is the bit expected.) *)
Theorem embedded_image_is_recognised (Math_sin Math_sin' : float -> float)
    (u u' : float) (fuel fuel' : nat) (st st' : store) (img out : ImageData)
    (options options' : WatermarkOptions) :
  wf_image st img -> 63 <= totalPixels img ->
  applyInvisibleWatermark Math_sin u fuel st img options = Some (st', out) ->
  extractWatermark Math_sin' u' fuel' st' out options' <> Some None.
Proof.
  intros Hwf HN H.
  destruct (applyInvisibleWatermark_inv Math_sin u fuel st st' img out options Hwf H)
    as (d & slots & Hd & Hb & Hlen & Hs & -> & ->).
  rewrite extractWatermark_eq. cbv zeta. cbn [data].
  change (totalPixels {| data := length st; width := width img; height := height img |})
    with (totalPixels img).
  match goal with
  | |- context [signatureMatch ?t ?s ?r] =>
      assert (Hm : signatureMatch t s r = true)
  end.
  { apply signatureMatch_true_iff. intros i Hi. rewrite array_alloc.
    apply signature_readback_63; try assumption.
    - apply updates_bytes, Hb.
    - rewrite length_updates. exact Hlen. }
  rewrite Hm. cbn [negb]. cbv iota.
  destruct (selectSlots Math_sin' _ _ _ _ _); intros E; discriminate E.
Qed.

(** X15, witness: an image of 9x7 = 63 pixels, embedded under seed 42 and
    read with another seed and message. *)
Lemma embedded_image_is_recognised_63 :
  exists st' out,
    applyInvisibleWatermark SinRef.sin 0 100 [repeat 255 252]
      {| data := 0; width := 9; height := 7 |} (withSeed (js "{}") 42)
    = Some (st', out)
    /\ extractWatermark SinRef.sin 0 100 st' out (withSeed (js "?") 501)
       <> Some None.
Proof.
  destruct (applyInvisibleWatermark SinRef.sin 0 100 [repeat 255 252]
              {| data := 0; width := 9; height := 7 |} (withSeed (js "{}") 42))
    as [[st' out]|] eqn:H.
  - exists st', out. split; [reflexivity|].
    apply (embedded_image_is_recognised SinRef.sin SinRef.sin 0 0 100 100
             [repeat 255 252] st' {| data := 0; width := 9; height := 7 |} out
             (withSeed (js "{}") 42) (withSeed (js "?") 501)).
    + exists (repeat 255 252). split; [reflexivity|]. split; [reflexivity|].
      apply repeat_bytes. unfold isByte. lia.
    + vm_compute. discriminate.
    + exact H.
  - exfalso. vm_compute in H. discriminate H.
Defined.

(** ** The generator can return 1 *)

(** X16. The range of the generator is not [0, 1): when
    [Math.sin(seed) * 10000] is a negative number of magnitude at most
    2^-54, [x - Math.floor(x)] is [x + 1] rounded, which is exactly 1.  The
    pixel drawn is then [totalPixels], one past the last pixel: the bit of
    that draw is written nowhere, and the extraction reads it as 0. *)
Theorem generator_can_return_one (Math_sin : float -> float) (c : float) (N : Z) :
  tinyNegative (Math_sin c * 10000)%float = true ->
  1 <= N < 2 ^ 53 ->
  scaledFraction Math_sin c = 1%float
  /\ drawPixel Math_sin 1 (createSeededRandom c) (Num.of_Z N) []
     = Some (Num.of_Z N, {| counter := (c + 1)%float |})
  /\ Num.to_Z (Num.of_Z N) = Some N
  /\ forall (st : store) (img : ImageData) (bit : Z),
       wf_image st img -> totalPixels img = N ->
       embedBit st (data img) (Num.of_Z N) bit = st
       /\ Store.lsbChar st (data img) (channelIndex (Num.of_Z N) 2) = chr0.
Proof.
  intros Hx HN.
  assert (Hr : scaledFraction Math_sin c = 1%float).
  { unfold scaledFraction. cbv zeta. rewrite (Math_floor_tiny _ Hx).
    apply sub_tiny, Hx. }
  assert (Hz : Num.to_Z (Num.of_Z N) = Some N) by (apply to_Z_of_Z; lia).
  split; [exact Hr|]. split; [|split; [exact Hz|]].
  - cbn [drawPixel]. rewrite random_eq. cbn [createSeededRandom counter].
    rewrite Hr, one_times_of_Z, Math_floor_of_Z by lia. reflexivity.
  - intros st img bit (d & Hd & Hlen & Hb) Htot. rewrite Htot in Hlen.
    assert (Hc : channelIndex (Num.of_Z N) 2 = Some (N * 4 + 2))
      by (unfold channelIndex; rewrite Hz; reflexivity).
    split.
    + rewrite embedBit_setLSB, Hc. unfold setLSB. cbn [fst snd].
      assert (Hw : forall v, Store.write st (data img) (Some (N * 4 + 2)) v = st).
      { intros v. unfold Store.write. rewrite (array_lookup st _ d Hd).
        rewrite TA_set_out by lia. apply list_insert_id, Hd. }
      destruct (bit =? chr1); unfold Store.or1, Store.andnot1; apply Hw.
    + rewrite Hc. unfold Store.lsbChar, Store.read.
      rewrite (array_lookup st _ d Hd).
      assert (Hg : TA.get d (N * 4 + 2) = None).
      { unfold TA.get. destruct (0 <=? N * 4 + 2); [|reflexivity].
        apply lookup_ge_None_2. lia. }
      rewrite Hg. reflexivity.
Qed.

(** X16, witness: the seed -2^-80, whose sine is the seed itself, on the
    10x10 image. *)
Lemma generator_returns_one_tiny_seed :
  scaledFraction SinRef.sin (-0x1p-80) = 1%float
  /\ drawPixel SinRef.sin 1 (createSeededRandom (-0x1p-80)) (Num.of_Z 100) []
     = Some (Num.of_Z 100, {| counter := (-0x1p-80 + 1)%float |})
  /\ embedBit white10 (data img10) (Num.of_Z 100) chr1 = white10.
Proof.
  destruct (generator_can_return_one SinRef.sin (-0x1p-80) 100)
    as (H1 & H2 & _ & H4).
  - vm_compute. reflexivity.
  - lia.
  - split; [exact H1|]. split; [exact H2|].
    apply (H4 white10 img10 chr1 wf_white10 eq_refl).
Defined.

(** ** The range of the generator *)

(** X17. For [x = Math.sin(seed) * 10000] the generator returns
    [x - Math.floor(x)] in double precision: a number in [0, 1) for every
    finite [x] outside [-2^-54, 0), so that the pixel drawn from it is a
    pixel of the image; and NaN when [x] is NaN or an infinity. *)
Theorem generator_range (Math_sin : float -> float) (c : float) (N : Z) :
  let x := (Math_sin c * 10000)%float in
  (isFinite x = true -> tinyNegative x = false ->
   inUnit (scaledFraction Math_sin c) = true
   /\ (1 <= N < 2 ^ 53 ->
       isPixel N (Num.Math_floor (scaledFraction Math_sin c * Num.of_Z N)%float)))
  /\ (isFinite x = false -> scaledFraction Math_sin c = nan).
Proof.
  intros x. split.
  - intros Hf Ht.
    assert (Hu : inUnit (scaledFraction Math_sin c) = true).
    { apply inUnit_intro. unfold scaledFraction. cbv zeta. fold x.
      destruct (fraction_cases x Hf Ht) as [H|H]; [left|right]; exact H. }
    split; [exact Hu|]. intros HN. apply floor_scaled_isPixel; assumption.
  - intros Hf. unfold scaledFraction. cbv zeta. fold x.
    apply Prim2SF_inj. unfold isFinite in Hf.
    assert (Hfl : Num.Math_floor x = x).
    { unfold Num.Math_floor. destruct (Prim2SF x); try discriminate; reflexivity. }
    rewrite Hfl, sub_spec.
    destruct (Prim2SF x) as [s|s| |s m e]; try discriminate.
    + destruct s; reflexivity.
    + reflexivity.
Qed.

(** X17, witness: seed 42 with the reference sine, among 100 pixels. *)
Lemma generator_range_seed42 :
  inUnit (scaledFraction SinRef.sin 42) = true
  /\ (1 <= 100 < 2 ^ 53 ->
      isPixel 100 (Num.Math_floor (scaledFraction SinRef.sin 42 * Num.of_Z 100)%float)).
Proof.
  apply (proj1 (generator_range SinRef.sin 42 100)).
  - vm_compute. reflexivity.
  - vm_compute. reflexivity.
Defined.

(** ** Integer seeds *)

(** X18. [seed++] is exact on every integer counter from -2^53 to 2^53,
    negative ones included: for an integer seed [s >= -2^53] with
    [s + n - 1 <= 2^53], the counter before the [n]-th call is exactly
    [s + n - 1], and that call returns the fractional part of
    [Math.sin(s + n - 1) * 10000]. *)
Theorem integer_seeds_count_exactly (Math_sin : float -> float) (s : Z) (n : nat) :
  (1 <= n)%nat -> - 2 ^ 53 <= s -> s + Z.of_nat n - 1 <= 2 ^ 53 ->
  counter (after Math_sin (n - 1) (createSeededRandom (Num.of_Z s)))
  = Num.of_Z (s + Z.of_nat n - 1)
  /\ calls Math_sin n (createSeededRandom (Num.of_Z s)) !! (n - 1)%nat
     = Some (scaledFraction Math_sin (Num.of_Z (s + Z.of_nat n - 1))).
Proof.
  intros Hn Hs Hmax.
  assert (Hc : increments (n - 1) (Num.of_Z s) = Num.of_Z (s + Z.of_nat n - 1)).
  { rewrite increments_exact_Z by lia. f_equal. lia. }
  split.
  - rewrite after_counter. exact Hc.
  - rewrite calls_eq. cbn [createSeededRandom counter].
    assert (Hk : seq 0 n !! (n - 1)%nat = Some (n - 1)%nat).
    { apply lookup_seq. lia. }
    rewrite (map_lookup _ _ _ _ Hk), Hc. reflexivity.
Qed.

(** X18, witness: the fifth call from seed -3 evaluates the sine at 1. *)
Lemma integer_seeds_count_exactly_minus3 :
  counter (after SinRef.sin (5 - 1) (createSeededRandom (Num.of_Z (-3))))
  = Num.of_Z (-3 + Z.of_nat 5 - 1)
  /\ calls SinRef.sin 5 (createSeededRandom (Num.of_Z (-3))) !! (5 - 1)%nat
     = Some (scaledFraction SinRef.sin (Num.of_Z (-3 + Z.of_nat 5 - 1))).
Proof.
  apply integer_seeds_count_exactly; lia.
Defined.

(** ** Default seeds *)

(** X19. Without [randomSeed] in the options, and with [Math.random()]
    in [0, 1), the seed of [applyInvisibleWatermark] is an integer from 1
    to 1001 and the seed of [extractWatermark] an integer from 1 to
    10001: the rounding of the product, of the sum and of [Math.round]
    never leaves these ranges. *)
Theorem default_seed_range (u : float) (options : WatermarkOptions) :
  inUnit u = true -> randomSeed options = None ->
  (exists q, 1 <= q <= 1001
             /\ cfg_randomSeed (applyConfig u options) = Num.of_Z q)
  /\ (exists q, 1 <= q <= 10001
                /\ cfg_randomSeed (extractConfig u options) = Num.of_Z q).
Proof.
  intros Hu Hopt. unfold applyConfig, extractConfig, spread.
  cbn [cfg_randomSeed]. rewrite Hopt. cbn [default].
  split.
  - replace 1000%float with (Num.of_Z 1000) by reflexivity.
    apply (default_seed_integer u 1000 Hu). lia.
  - replace 10000%float with (Num.of_Z 10000) by reflexivity.
    apply (default_seed_integer u 10000 Hu). lia.
Qed.

(** X19, witness: [Math.random()] returns 0.5 and the options hold a
    message only. *)
Lemma default_seed_range_half :
  (exists q, 1 <= q <= 1001
             /\ cfg_randomSeed (applyConfig 0x1p-1 (withoutSeed (js "{}")))
                = Num.of_Z q)
  /\ (exists q, 1 <= q <= 10001
                /\ cfg_randomSeed (extractConfig 0x1p-1 (withoutSeed (js "{}")))
                   = Num.of_Z q).
Proof.
  apply default_seed_range.
  - vm_compute. reflexivity.
  - reflexivity.
Defined.
